(** * simple_go_stream: the streamv3 pipeline engine

    A shallow embedding of the types [SliceStreamer], [MapStreamer]
    (map_stream.go) and [DataGetter] of package streamv3, and the
    properties of the evaluation engine proved about it.

    Conventions of the embedding.
    - A Go [interface{}] value is an element of one type [V]; it must be
      comparable because the engine uses such values as map keys.
    - Go [int] is [Z]; a slice is a [list]; a Go [map] is a [gmap].
    - A [*SliceStreamer] is an address into a heap of nodes, so that the two
      ways the code treats a receiver (allocate a child, or write through
      the pointer) stay distinguishable.
    - A call that may panic returns an [outcome].
    - The reflection checks of the builders (arity and types of the
      supplied functions) are not part of the embedding: a [V -> outcome V]
      is already a one-argument function on the element type. *)

From Stdlib Require Import ZArith Lia.
From stdpp Require Import base option list gmap fin_maps.

Local Open Scope Z_scope.

(** ** Panics and outcomes *)

(** Run-time errors the engine itself can run into. [OutOfMemory] stands for
    the unbounded [append] loop of a chain walk that never reaches [nil].
    [ConcurrentMapWrites] is the run time's [fatal error: concurrent map
    writes]: it ends the process and no [recover] sees it, so it only ever
    shows as the way a terminal call ends. *)
Inductive runtimeError :=
  | IndexOutOfRange
  | SliceBoundsOutOfRange
  | DivideByZero
  | NilDereference
  | NegativeWaitGroupCounter
  | OutOfMemory
  | ConcurrentMapWrites.

(** Errors the engine raises itself with [panic(fmt.Errorf(...))]. *)
Inductive usageError :=
  | KeyerIsNil
  | LimitNotPositive (n : Z)
  | OffsetNotPositive (n : Z).

Section Outcome.
Context {V : Type}.

(** The value carried by a panic: what a user-supplied operation passed to
    [panic], a run-time error, an error of the engine's own argument
    checks, or the error a stage builds from a recovered value [r] with
    [fmt.Errorf("panic: %s", r)]. *)
Inductive panicValue :=
  | Raised (v : V)
  | Runtime (e : runtimeError)
  | Usage (e : usageError)
  | Errorf (r : panicValue).

Inductive outcome (T : Type) :=
  | Ok (t : T)
  | Panic (p : panicValue).
Global Arguments Ok {T} t.
Global Arguments Panic {T} p.

Definition bind {T U} (m : outcome T) (k : T → outcome U) : outcome U :=
  match m with
  | Ok t => k t
  | Panic p => Panic p
  end.

Definition panics {T} (m : outcome T) : Prop := ∃ p, m = Panic p.
End Outcome.
Global Arguments panicValue V : clear implicits.
Global Arguments outcome V T : clear implicits.

Notation "x ⇐ m ;; k" := (bind m (fun x => k))
  (at level 100, m at next level, right associativity,
   format "'[v' x  ⇐  m ;;  '/' k ']'").

(** ** Addresses and parent chains *)

Abbreviation addr := nat (only parsing).

(** [for ; lastStreamer != nil; lastStreamer = lastStreamer.lastStreamer]
    collecting the visited nodes, leaf first. The fuel is the size of the heap:
    a walk that needs more has come back to a node it already visited. *)
Fixpoint chain {V N} (last : N → option addr) (heap : list N) (fuel : nat)
    (p : option addr) : outcome V (list N) :=
  match p with
  | None => Ok []
  | Some a =>
    match fuel with
    | O => Panic (Runtime OutOfMemory)
    | S fuel' =>
      match heap !! a with
      | None => Panic (Runtime NilDereference)
      | Some n => l ⇐ chain last heap fuel' (last n) ;; Ok (n :: l)
      end
    end
  end.

(** ** Stores into a map shared by goroutines

    [filter], [_map] and [flatMap] collect the results of their goroutines
    in a slice, one element per goroutine; [groupBy] and [toMap] collect
    them in a Go map, [resultCollection], into which every goroutine stores
    under its own index, without a lock. Go does not make concurrent writes
    to a map safe, distinct keys or not. What comes of the stores of two or
    more goroutines is up to the run time: it may notice two writers at work
    and end the process, or it does not, and the stores that fell on top of
    each other may be missing from the map. [Stored kept] is the second
    case, [kept i] telling whether the store of goroutine [i] is in the map
    afterwards. *)
Inductive mapWrites :=
  | Stored (kept : nat → bool)
  | ConcurrentWrites.

(** ** The fork-join loop shared by every parallel stage

    [filter], [_map], [flatMap], [groupBy] and [toMap] each spell out the same
    loop: [wg.Add(parallel)], [batch := len(data) / parallel], one goroutine
    per index [i] over [data[start:end]], [wg.Wait()], then the test of
    [panicError]. It is written once here and instantiated with the body of
    the goroutine. *)
Section ForkJoin.
Context {V : Type}.

(** The order in which the deferred functions of the [k] goroutines of a
    join run. Only a join that fails depends on it, and an evaluation has at
    most one such join, so one order per degree covers every execution. *)
Variable sched : nat → list nat.

(** [start] and [end] of goroutine [i]. *)
Definition bounds (len parallel i : Z) : Z * Z :=
  let batch := len / parallel in
  let start := i * batch in
  let end_ := start + batch in
  if (i =? parallel - 1) && (end_ <? len) then (start, len) else (start, end_).

(** The elements [data[i]] for [start <= i < end]. *)
Definition slice {A} (data : list A) (start end_ : Z) : list A :=
  take (Z.to_nat end_ - Z.to_nat start) (drop (Z.to_nat start) data).

Definition batches {A} (data : list A) (parallel : Z) : list (list A) :=
  map (λ i, let '(start, end_) := bounds (Z.of_nat (length data)) parallel (Z.of_nat i)
            in slice data start end_)
      (seq 0 (Z.to_nat parallel)).

(** [panicError] after [wg.Wait()]: every goroutine that recovered a panic
    [r] has assigned [fmt.Errorf("panic: %s", r)] to the shared variable, in
    the order [order]. *)
Definition panicError {T} (outs : list (outcome V T)) (order : list nat)
    : option (panicValue V) :=
  fold_left
    (λ err i, match outs !! i with
              | Some (Panic r) => Some (Errorf r)
              | _ => err
              end)
    order None.

(** What goroutine [i] left in its slot: a goroutine that panicked never
    reached the assignment. *)
Definition slot {T} (o : outcome V T) : option T :=
  match o with Ok t => Some t | Panic _ => None end.

Definition forkJoin {A T} (parallel : Z) (data : list A)
    (worker : list A → outcome V T) : outcome V (list (option T)) :=
  if parallel <? 0 then Panic (Runtime NegativeWaitGroupCounter)
  else if parallel =? 0 then Panic (Runtime DivideByZero)
  else
    let outs := map worker (batches data parallel) in
    match panicError outs (sched (Z.to_nat parallel)) with
    | Some err => Panic err
    | None => Ok (map slot outs)
    end.

(** [for i := 0; i < len(results); i++ { result = append(result, results[i]...) }] *)
Definition appendAll {A} (results : list (option (list A))) : list A :=
  fold_left (λ result r, result ++ default [] r) results [].
End ForkJoin.

(** ** map_stream.go: [MapStreamer] *)

Module MapStreamer.
Section MapStreamer.
Context {V : Type}.
Variable sched : nat → list nat.
Variable NumCPU : Z.

Record pair := Pair { key : V; value : V }.

Record MapStreamer := {
  lastStreamer : option addr;
  parallel : Z;
  filterFunc : option (list (V → V → outcome V bool));
  mapFunc : option (V → V → outcome V V);
  flatMapFunc : option (V → V → outcome V (list V));
  pairData : list pair
}.

Abbreviation heap := (list MapStreamer).

(** [OfMap], given the pairs of the map in the order [MapRange] yields
    them. *)
Definition OfMap (h : heap) (pairData_ : list pair) : heap * addr :=
  (h ++ [ {| lastStreamer := None;
             parallel := 1;
             filterFunc := None;
             mapFunc := None;
             flatMapFunc := None;
             pairData := pairData_ |} ],
   length h).

(** [Parallel] writes the clamped degree through the receiver and returns
    the receiver. *)
Definition Parallel (h : heap) (streamer : addr) (parallel_ : Z)
    : outcome V (heap * addr) :=
  match h !! streamer with
  | None => Panic (Runtime NilDereference)
  | Some s =>
    let parallel_ := if parallel_ <=? 0 then 1 else parallel_ in
    let parallel_ := if parallel_ >? NumCPU * 2 then NumCPU * 2 else parallel_ in
    Ok (<[streamer := {| lastStreamer := lastStreamer s;
                         parallel := parallel_;
                         filterFunc := filterFunc s;
                         mapFunc := mapFunc s;
                         flatMapFunc := flatMapFunc s;
                         pairData := pairData s |}]> h,
        streamer)
  end.

Definition Filter (h : heap) (streamer : addr)
    (filters : list (V → V → outcome V bool)) : outcome V (heap * addr) :=
  match h !! streamer with
  | None => Panic (Runtime NilDereference)
  | Some s =>
    Ok (h ++ [ {| lastStreamer := Some streamer;
                  parallel := parallel s;
                  filterFunc := Some filters;
                  mapFunc := None;
                  flatMapFunc := None;
                  pairData := [] |} ],
        length h)
  end.

(** The inner loop over [streamer.filterFunc], leaving at the first
    predicate that answers false. *)
Fixpoint isFilter (fs : list (V → V → outcome V bool)) (x : pair)
    : outcome V bool :=
  match fs with
  | [] => Ok true
  | f :: fs' => b ⇐ f (key x) (value x) ;; if b then isFilter fs' x else Ok false
  end.

Fixpoint filterWorker (fs : list (V → V → outcome V bool))
    (batch : list pair) (res : list pair) : outcome V (list pair) :=
  match batch with
  | [] => Ok res
  | x :: batch' =>
    b ⇐ isFilter fs x ;;
    filterWorker fs batch' (if b then res ++ [x] else res)
  end.

Definition filter (streamer : MapStreamer) (data : list pair)
    : outcome V (list pair) :=
  match filterFunc streamer with
  | None | Some [] => Ok data
  | Some fs =>
    results ⇐ forkJoin sched (parallel streamer) data
                (λ batch, filterWorker fs batch []) ;;
    Ok (appendAll results)
  end.

Fixpoint mapWorker (f : V → V → outcome V V) (batch : list pair)
    (res : list V) : outcome V (list V) :=
  match batch with
  | [] => Ok res
  | x :: batch' => y ⇐ f (key x) (value x) ;; mapWorker f batch' (res ++ [y])
  end.

Definition _map (streamer : MapStreamer) (data : list pair)
    : outcome V (list V) :=
  match mapFunc streamer with
  | None => Ok []
  | Some f =>
    results ⇐ forkJoin sched (parallel streamer) data
                (λ batch, mapWorker f batch []) ;;
    Ok (appendAll results)
  end.

Fixpoint flatMapWorker (f : V → V → outcome V (list V)) (batch : list pair)
    (res : list V) : outcome V (list V) :=
  match batch with
  | [] => Ok res
  | x :: batch' => ys ⇐ f (key x) (value x) ;; flatMapWorker f batch' (res ++ ys)
  end.

Definition flatMap (streamer : MapStreamer) (data : list pair)
    : outcome V (list V) :=
  match flatMapFunc streamer with
  | None => Ok []
  | Some f =>
    results ⇐ forkJoin sched (parallel streamer) data
                (λ batch, flatMapWorker f batch []) ;;
    Ok (appendAll results)
  end.

(** The replay loop of [scan], root first: it returns from inside the loop
    at the first node that carries a mapper. *)
Fixpoint replay (rootFirst : list MapStreamer) (newData : list pair)
    : outcome V (list V) :=
  match rootFirst with
  | [] => Ok []
  | s :: rest =>
    newData ⇐ match filterFunc s with
               | Some _ => filter s newData
               | None => Ok newData
               end ;;
    match flatMapFunc s with
    | Some _ => flatMap s newData
    | None =>
      match mapFunc s with
      | Some _ => _map s newData
      | None => replay rest newData
      end
    end
  end.

Definition streamerList (h : heap) (streamer : addr)
    : outcome V (list MapStreamer) :=
  chain lastStreamer h (length h) (Some streamer).

Definition scan (h : heap) (streamer : addr) : outcome V (list V) :=
  l ⇐ streamerList h streamer ;;
  match last l with
  | None => Panic (Runtime IndexOutOfRange)
  | Some root => replay (rev l) (pairData root)
  end.

(** The loop of [KeysToStream] and [ValuesToStream]: the filters of the
    chain, root first, and nothing else. *)
Fixpoint replayFilters (rootFirst : list MapStreamer) (newData : list pair)
    : outcome V (list pair) :=
  match rootFirst with
  | [] => Ok newData
  | s :: rest =>
    newData ⇐ match filterFunc s with
               | Some _ => filter s newData
               | None => Ok newData
               end ;;
    replayFilters rest newData
  end.

Definition filtered (h : heap) (streamer : addr) : outcome V (list pair) :=
  l ⇐ streamerList h streamer ;;
  match last l with
  | None => Panic (Runtime IndexOutOfRange)
  | Some root => replayFilters (rev l) (pairData root)
  end.
End MapStreamer.
Global Arguments pair V : clear implicits.
Global Arguments MapStreamer V : clear implicits.
End MapStreamer.

(** ** [DataGetter] and [SliceStreamer] *)

Module SliceStreamer.
Section SliceStreamer.
Context {V : Type} `{Countable V}.
Variable sched : nat → list nat.

(** What the run time makes of the stores into [resultCollection] of a join
    of [k] goroutines. *)
Variable race : nat → mapWrites.
Variable NumCPU : Z.

(** [sort.Slice(newData, less)] of the Go library, with [less] reading the
    two elements at the indices it is given. *)
Variable sort_Slice : list V → (V → V → outcome V bool) → outcome V (list V).

(** The two implementations of the [DataGetter] interface. *)
Inductive DataGetter :=
  | sliceGetter (data : list V)
  | mapGetter (steamer : addr).

Record SliceStreamer := {
  lastStreamer : option addr;
  dataGetter : option DataGetter;
  parallel : Z;
  filterFunc : option (list (V → outcome V bool));
  mapFunc : option (V → outcome V V);
  flatMapFunc : option (V → outcome V (list V));
  sortFunc : option (V → V → outcome V bool);
  offset : Z;
  limit : Z
}.

(** Every node allocated so far, of both kinds. *)
Record store := {
  slices : list SliceStreamer;
  maps : list (MapStreamer.MapStreamer V)
}.

Definition getData (st : store) (getter : option DataGetter)
    : outcome V (list V) :=
  match getter with
  | None => Panic (Runtime NilDereference)
  | Some (sliceGetter data) => Ok data
  | Some (mapGetter steamer) => MapStreamer.scan sched (maps st) steamer
  end.

(** *** Builders *)

Definition alloc (st : store) (s : SliceStreamer) : store * addr :=
  ({| slices := slices st ++ [s]; maps := maps st |}, length (slices st)).

Definition OfSlice (st : store) (data : list V) : store * addr :=
  alloc st {| lastStreamer := None;
              dataGetter := Some (sliceGetter data);
              parallel := 1;
              filterFunc := None;
              mapFunc := None;
              flatMapFunc := None;
              sortFunc := None;
              offset := 0;
              limit := 0 |}.

Definition Parallel (st : store) (streamer : addr) (parallel_ : Z)
    : outcome V (store * addr) :=
  match slices st !! streamer with
  | None => Panic (Runtime NilDereference)
  | Some s =>
    let parallel_ := if parallel_ <=? 0 then 1 else parallel_ in
    let parallel_ := if parallel_ >? NumCPU * 2 then NumCPU * 2 else parallel_ in
    Ok ({| slices := <[streamer := {| lastStreamer := lastStreamer s;
                                      dataGetter := dataGetter s;
                                      parallel := parallel_;
                                      filterFunc := filterFunc s;
                                      mapFunc := mapFunc s;
                                      flatMapFunc := flatMapFunc s;
                                      sortFunc := sortFunc s;
                                      offset := offset s;
                                      limit := limit s |}]> (slices st);
           maps := maps st |},
        streamer)
  end.

Definition Filter (st : store) (streamer : addr)
    (filters : list (V → outcome V bool)) : outcome V (store * addr) :=
  match slices st !! streamer with
  | None => Panic (Runtime NilDereference)
  | Some s =>
    Ok (alloc st {| lastStreamer := Some streamer;
                    dataGetter := None;
                    parallel := parallel s;
                    filterFunc := Some filters;
                    mapFunc := None;
                    flatMapFunc := None;
                    sortFunc := None;
                    offset := offset s;
                    limit := limit s |})
  end.

Definition Map (st : store) (streamer : addr) (mapper : V → outcome V V)
    : outcome V (store * addr) :=
  match slices st !! streamer with
  | None => Panic (Runtime NilDereference)
  | Some s =>
    Ok (alloc st {| lastStreamer := Some streamer;
                    dataGetter := None;
                    parallel := parallel s;
                    filterFunc := None;
                    mapFunc := Some mapper;
                    flatMapFunc := None;
                    sortFunc := None;
                    offset := offset s;
                    limit := limit s |})
  end.

Definition FlatMap (st : store) (streamer : addr)
    (flatMapper : V → outcome V (list V)) : outcome V (store * addr) :=
  match slices st !! streamer with
  | None => Panic (Runtime NilDereference)
  | Some s =>
    Ok (alloc st {| lastStreamer := Some streamer;
                    dataGetter := None;
                    parallel := parallel s;
                    filterFunc := None;
                    mapFunc := None;
                    flatMapFunc := Some flatMapper;
                    sortFunc := None;
                    offset := offset s;
                    limit := limit s |})
  end.

Definition Limit (st : store) (streamer : addr) (n : Z)
    : outcome V (store * addr) :=
  if n <=? 0 then Panic (Usage (LimitNotPositive n))
  else
    match slices st !! streamer with
    | None => Panic (Runtime NilDereference)
    | Some s =>
      Ok (alloc st {| lastStreamer := Some streamer;
                      dataGetter := None;
                      parallel := parallel s;
                      filterFunc := None;
                      mapFunc := None;
                      flatMapFunc := None;
                      sortFunc := None;
                      offset := offset s;
                      limit := n |})
    end.

Definition Offset (st : store) (streamer : addr) (n : Z)
    : outcome V (store * addr) :=
  if n <=? 0 then Panic (Usage (OffsetNotPositive n))
  else
    match slices st !! streamer with
    | None => Panic (Runtime NilDereference)
    | Some s =>
      Ok (alloc st {| lastStreamer := Some streamer;
                      dataGetter := None;
                      parallel := parallel s;
                      filterFunc := None;
                      mapFunc := None;
                      flatMapFunc := None;
                      sortFunc := None;
                      offset := n;
                      limit := limit s |})
    end.

Definition Sorted (st : store) (streamer : addr)
    (sorter : V → V → outcome V bool) : outcome V (store * addr) :=
  match slices st !! streamer with
  | None => Panic (Runtime NilDereference)
  | Some s =>
    Ok (alloc st {| lastStreamer := Some streamer;
                    dataGetter := None;
                    parallel := parallel s;
                    filterFunc := None;
                    mapFunc := None;
                    flatMapFunc := None;
                    sortFunc := Some sorter;
                    offset := offset s;
                    limit := limit s |})
  end.

(** *** Inner implementation *)

Fixpoint isFilter (fs : list (V → outcome V bool)) (x : V) : outcome V bool :=
  match fs with
  | [] => Ok true
  | f :: fs' => b ⇐ f x ;; if b then isFilter fs' x else Ok false
  end.

Fixpoint filterWorker (fs : list (V → outcome V bool)) (batch : list V)
    (res : list V) : outcome V (list V) :=
  match batch with
  | [] => Ok res
  | x :: batch' =>
    b ⇐ isFilter fs x ;;
    filterWorker fs batch' (if b then res ++ [x] else res)
  end.

Definition filter (streamer : SliceStreamer) (data : list V)
    : outcome V (list V) :=
  match filterFunc streamer with
  | None | Some [] => Ok data
  | Some fs =>
    results ⇐ forkJoin sched (parallel streamer) data
                (λ batch, filterWorker fs batch []) ;;
    Ok (appendAll results)
  end.

Fixpoint mapWorker (f : V → outcome V V) (batch : list V) (res : list V)
    : outcome V (list V) :=
  match batch with
  | [] => Ok res
  | x :: batch' => y ⇐ f x ;; mapWorker f batch' (res ++ [y])
  end.

Definition _map (streamer : SliceStreamer) (data : list V)
    : outcome V (list V) :=
  match mapFunc streamer with
  | None => Ok data
  | Some f =>
    results ⇐ forkJoin sched (parallel streamer) data
                (λ batch, mapWorker f batch []) ;;
    Ok (appendAll results)
  end.

Fixpoint flatMapWorker (f : V → outcome V (list V)) (batch : list V)
    (res : list V) : outcome V (list V) :=
  match batch with
  | [] => Ok res
  | x :: batch' => ys ⇐ f x ;; flatMapWorker f batch' (res ++ ys)
  end.

Definition flatMap (st : store) (streamer : SliceStreamer) (data : list V)
    : outcome V (list V) :=
  match flatMapFunc streamer with
  | None => getData st (dataGetter streamer)
  | Some f =>
    results ⇐ forkJoin sched (parallel streamer) data
                (λ batch, flatMapWorker f batch []) ;;
    Ok (appendAll results)
  end.

(** One round of the replay loop of [scan]. *)
Definition stage (st : store) (s : SliceStreamer) (newData : list V)
    : outcome V (list V) :=
  newData ⇐ match filterFunc s with
             | Some _ => filter s newData
             | None => Ok newData
             end ;;
  newData ⇐ match flatMapFunc s with
             | Some _ => flatMap st s newData
             | None => Ok newData
             end ;;
  newData ⇐ match mapFunc s with
             | Some _ => _map s newData
             | None => Ok newData
             end ;;
  match sortFunc s with
  | Some f => sort_Slice newData f
  | None => Ok newData
  end.

Fixpoint replay (st : store) (rootFirst : list SliceStreamer)
    (newData : list V) : outcome V (list V) :=
  match rootFirst with
  | [] => Ok newData
  | s :: rest => newData ⇐ stage st s newData ;; replay st rest newData
  end.

(** The slice expression [data[lo:hi]]. The upper bound is checked against
    the length, not the capacity: [scan] never asks for more than the
    length. *)
Definition reslice (data : list V) (lo hi : Z) : outcome V (list V) :=
  if (0 <=? lo) && (lo <=? hi) && (hi <=? Z.of_nat (length data))
  then Ok (slice data lo hi)
  else Panic (Runtime SliceBoundsOutOfRange).

(** The lines of [scan] below the comment [// offset limit]. *)
Definition window (streamer : SliceStreamer) (newData : list V)
    : outcome V (list V) :=
  let len := Z.of_nat (length newData) in
  let offset_ := if offset streamer <? len then offset streamer else 0 in
  let limit_ := len - offset_ in
  let limit_ := if (0 <? limit streamer) && (limit streamer <? limit_)
                then limit streamer else limit_ in
  reslice newData offset_ (offset_ + limit_).

Definition streamerList (st : store) (streamer : addr)
    : outcome V (list SliceStreamer) :=
  chain lastStreamer (slices st) (length (slices st)) (Some streamer).

Definition scan (st : store) (streamer : addr) : outcome V (list V) :=
  l ⇐ streamerList st streamer ;;
  match l, last l with
  | leaf :: _, Some root =>
    data ⇐ getData st (dataGetter root) ;;
    newData ⇐ replay st (rev l) data ;;
    window leaf newData
  | _, _ => Panic (Runtime IndexOutOfRange)
  end.

(** The loop of [reduce] over two or more elements. *)
Fixpoint accumulate (fv : V → V → outcome V V) (data : list V) (baseVal : V)
    : outcome V V :=
  match data with
  | [] => Ok baseVal
  | x :: data' => b ⇐ fv baseVal x ;; accumulate fv data' b
  end.

(** A terminal call that writes through a pointer returns what the pointer
    holds afterwards, next to how the call ended. *)
Definition reduce (st : store) (streamer : addr) (fv : V → V → outcome V V)
    (iv : V) : V * outcome V unit :=
  match scan st streamer with
  | Panic p => (iv, Panic p)
  | Ok [] => (iv, Ok ())
  | Ok [x] => (x, Ok ())
  | Ok data =>
    match accumulate fv data iv with
    | Ok baseVal => (baseVal, Ok ())
    | Panic p => (iv, Panic p)
    end
  end.

(** The goroutines of [groupBy] and [toMap] each begin with
    [resultCollection[goroutineID] = curGoroutineMap]. A single goroutine
    has stored before [wg.Wait()] returns. With more goroutines the stores
    race: [None] says the run time ended the process over them, otherwise
    the stores that are in the map afterwards are given. *)
Definition stores (parallel_ : Z) : option (nat → bool) :=
  if parallel_ <=? 1 then Some (λ _, true)
  else match race (Z.to_nat parallel_) with
       | Stored kept => Some kept
       | ConcurrentWrites => None
       end.

(** [resultCollection[i]] as the merge loop reads it: the map of goroutine
    [i], or the nil map when the store of goroutine [i] is not there. *)
Definition collected {T} (kept : nat → bool)
    (resultCollection : list (option T)) : list (option T) :=
  imap (λ i m, if kept i then m else None) resultCollection.

Fixpoint groupByWorker (keyer : V → outcome V V) (batch : list V)
    (curGoroutineMap : gmap V (list V)) : outcome V (gmap V (list V)) :=
  match batch with
  | [] => Ok curGoroutineMap
  | x :: batch' =>
    key ⇐ keyer x ;;
    groupByWorker keyer batch'
      (<[key := default [] (curGoroutineMap !! key) ++ [x]]> curGoroutineMap)
  end.

(** [for k, v := range goroutineMap] of [groupBy]. *)
Definition mergeGroups (goroutineMap val : gmap V (list V)) : gmap V (list V) :=
  map_fold (λ k v val, <[k := default [] (val !! k) ++ v]> val) val goroutineMap.

Definition groupBy (streamer : SliceStreamer) (keyer : V → outcome V V)
    (scanResult : list V) (val : gmap V (list V))
    : gmap V (list V) * outcome V unit :=
  match stores (parallel streamer) with
  | None => (val, Panic (Runtime ConcurrentMapWrites))
  | Some kept =>
    match forkJoin sched (parallel streamer) scanResult
            (λ batch, groupByWorker keyer batch ∅) with
    | Panic p => (val, Panic p)
    | Ok resultCollection =>
      (fold_left (λ val goroutineMap, mergeGroups (default ∅ goroutineMap) val)
                 (collected kept resultCollection) val,
       Ok ())
    end
  end.

Fixpoint toMapWorker (keyer : V → outcome V V) (batch : list V)
    (curGoroutineMap : gmap V V) : outcome V (gmap V V) :=
  match batch with
  | [] => Ok curGoroutineMap
  | x :: batch' =>
    key ⇐ keyer x ;; toMapWorker keyer batch' (<[key := x]> curGoroutineMap)
  end.

(** [for k, v := range goroutineMap] of [toMap]. *)
Definition mergeEntries (goroutineMap val : gmap V V) : gmap V V :=
  map_fold (λ k v val, <[k := v]> val) val goroutineMap.

Definition toMap (streamer : SliceStreamer) (keyer : V → outcome V V)
    (scanResult : list V) (val : gmap V V) : gmap V V * outcome V unit :=
  match stores (parallel streamer) with
  | None => (val, Panic (Runtime ConcurrentMapWrites))
  | Some kept =>
    match forkJoin sched (parallel streamer) scanResult
            (λ batch, toMapWorker keyer batch ∅) with
    | Panic p => (val, Panic p)
    | Ok resultCollection =>
      (fold_left (λ val goroutineMap, mergeEntries (default ∅ goroutineMap) val)
                 (collected kept resultCollection) val,
       Ok ())
    end
  end.

(** The index expression [scanResult[index]]. *)
Definition at_ (scanResult : list V) (index : Z) : outcome V V :=
  if index <? 0 then Panic (Runtime IndexOutOfRange)
  else match scanResult !! Z.to_nat index with
       | Some x => Ok x
       | None => Panic (Runtime IndexOutOfRange)
       end.

Definition indexAt (index : Z) (scanResult : list V) (val : V)
    : V * outcome V bool :=
  if Z.of_nat (length scanResult) <=? index then (val, Ok false)
  else match at_ scanResult index with
       | Ok x => (x, Ok true)
       | Panic p => (val, Panic p)
       end.

(** *** Terminal operations *)

(** A nil slice and an empty slice are both the empty list, so the
    initialisation of a nil [result] leaves no trace here. *)
Definition Scan (st : store) (streamer : addr) (result : list V)
    : list V * outcome V unit :=
  match scan st streamer with
  | Panic p => (result, Panic p)
  | Ok scanResult => (fold_left (λ val x, val ++ [x]) scanResult [], Ok ())
  end.

Definition Count (st : store) (streamer : addr) : outcome V Z :=
  result ⇐ scan st streamer ;; Ok (Z.of_nat (length result)).

(** [GroupBy] and [ToMap] are handed a pointer to the destination map, as
    the tests of the package do; the destination is [None] when that map is
    nil. *)
Definition GroupBy (st : store) (streamer : addr)
    (keyer : option (V → outcome V V)) (result : option (gmap V (list V)))
    : option (gmap V (list V)) * outcome V unit :=
  match keyer with
  | None => (result, Panic (Usage KeyerIsNil))
  | Some fv =>
    let val := default ∅ result in
    match scan st streamer, slices st !! streamer with
    | Panic p, _ => (Some val, Panic p)
    | Ok _, None => (Some val, Panic (Runtime NilDereference))
    | Ok scanResult, Some s =>
      let '(val, o) := groupBy s fv scanResult val in (Some val, o)
    end
  end.

Definition ToMap (st : store) (streamer : addr)
    (keyer : option (V → outcome V V)) (result : option (gmap V V))
    : option (gmap V V) * outcome V unit :=
  match keyer with
  | None => (result, Panic (Usage KeyerIsNil))
  | Some fv =>
    let val := default ∅ result in
    match scan st streamer, slices st !! streamer with
    | Panic p, _ => (Some val, Panic p)
    | Ok _, None => (Some val, Panic (Runtime NilDereference))
    | Ok scanResult, Some s =>
      let '(val, o) := toMap s fv scanResult val in (Some val, o)
    end
  end.

Definition Reduce (st : store) (streamer : addr)
    (accumulator : V → V → outcome V V) (result : V) : V * outcome V unit :=
  reduce st streamer accumulator result.

Definition First (st : store) (streamer : addr) (result : V)
    : V * outcome V bool :=
  match scan st streamer with
  | Panic p => (result, Panic p)
  | Ok scanResult => indexAt 0 scanResult result
  end.

Definition Last (st : store) (streamer : addr) (result : V)
    : V * outcome V bool :=
  match scan st streamer with
  | Panic p => (result, Panic p)
  | Ok scanResult =>
    indexAt (Z.of_nat (length scanResult) - 1) scanResult result
  end.

Definition IndexAt (st : store) (streamer : addr) (index : Z) (result : V)
    : V * outcome V bool :=
  match scan st streamer with
  | Panic p => (result, Panic p)
  | Ok scanResult => indexAt index scanResult result
  end.

(** The operations of [Foreach] act on what lies outside the stream; [S] is
    that state. A call returns the state it leaves behind, also when it
    panics. *)
Fixpoint callAll {S : Type} (fvs : list (V → S → S * outcome V unit)) (x : V)
    (w : S) : S * outcome V unit :=
  match fvs with
  | [] => (w, Ok ())
  | fv :: fvs' =>
    match fv x w with
    | (w', Ok _) => callAll fvs' x w'
    | (w', Panic p) => (w', Panic p)
    end
  end.

Fixpoint visit {S : Type} (fvs : list (V → S → S * outcome V unit))
    (result : list V) (w : S) : S * outcome V unit :=
  match result with
  | [] => (w, Ok ())
  | x :: result' =>
    match callAll fvs x w with
    | (w', Ok _) => visit fvs result' w'
    | (w', Panic p) => (w', Panic p)
    end
  end.

Definition Foreach {S : Type} (st : store) (streamer : addr)
    (foreachOps : list (V → S → S * outcome V unit)) (w : S)
    : S * outcome V unit :=
  match scan st streamer with
  | Panic p => (w, Panic p)
  | Ok result => visit foreachOps result w
  end.
End SliceStreamer.
Global Arguments DataGetter V : clear implicits.
Global Arguments SliceStreamer V : clear implicits.
Global Arguments store V : clear implicits.
End SliceStreamer.

(** ** map_stream.go: the methods of [MapStreamer] that hand over to a
    [SliceStreamer] *)

Module MapStream.
Section MapStream.
Context {V : Type} `{Countable V}.
Variable sched : nat → list nat.

Import SliceStreamer.

Abbreviation store := (SliceStreamer.store V).

(** The node both [Map] and [FlatMap] wrap around a fresh [MapStreamer]. *)
Definition wrap (st : store) (newStreamer : MapStreamer.MapStreamer V)
    (parallel_ : Z) : store * addr :=
  ({| slices := slices st ++
                [ {| lastStreamer := None;
                     dataGetter := Some (mapGetter (length (maps st)));
                     parallel := parallel_;
                     filterFunc := None;
                     mapFunc := None;
                     flatMapFunc := None;
                     sortFunc := None;
                     offset := 0;
                     limit := 0 |} ];
      maps := maps st ++ [newStreamer] |},
   length (slices st)).

Definition Map (st : store) (streamer : addr)
    (mapper : V → V → outcome V V) : outcome V (store * addr) :=
  match maps st !! streamer with
  | None => Panic (Runtime NilDereference)
  | Some s =>
    Ok (wrap st {| MapStreamer.lastStreamer := Some streamer;
                   MapStreamer.parallel := MapStreamer.parallel s;
                   MapStreamer.filterFunc := None;
                   MapStreamer.mapFunc := Some mapper;
                   MapStreamer.flatMapFunc := None;
                   MapStreamer.pairData := [] |}
             (MapStreamer.parallel s))
  end.

Definition FlatMap (st : store) (streamer : addr)
    (flatMapper : V → V → outcome V (list V)) : outcome V (store * addr) :=
  match maps st !! streamer with
  | None => Panic (Runtime NilDereference)
  | Some s =>
    Ok (wrap st {| MapStreamer.lastStreamer := Some streamer;
                   MapStreamer.parallel := MapStreamer.parallel s;
                   MapStreamer.filterFunc := None;
                   MapStreamer.mapFunc := None;
                   MapStreamer.flatMapFunc := Some flatMapper;
                   MapStreamer.pairData := [] |}
             (MapStreamer.parallel s))
  end.

(** The root node [KeysToStream] and [ValuesToStream] return. *)
Definition projected (data : list V) (parallel_ : Z) : SliceStreamer V :=
  {| lastStreamer := None;
     dataGetter := Some (sliceGetter data);
     parallel := parallel_;
     filterFunc := None;
     mapFunc := None;
     flatMapFunc := None;
     sortFunc := None;
     offset := 0;
     limit := 0 |}.

Definition KeysToStream (st : store) (streamer : addr)
    : outcome V (store * addr) :=
  newData ⇐ MapStreamer.filtered sched (maps st) streamer ;;
  let data := fold_left (λ data p, data ++ [MapStreamer.key p]) newData [] in
  match maps st !! streamer with
  | None => Panic (Runtime NilDereference)
  | Some s => Ok (alloc st (projected data (MapStreamer.parallel s)))
  end.

Definition ValuesToStream (st : store) (streamer : addr)
    : outcome V (store * addr) :=
  newData ⇐ MapStreamer.filtered sched (maps st) streamer ;;
  let data := fold_left (λ data p, data ++ [MapStreamer.value p]) newData [] in
  match maps st !! streamer with
  | None => Panic (Runtime NilDereference)
  | Some s => Ok (alloc st (projected data (MapStreamer.parallel s)))
  end.
End MapStream.
End MapStream.

(** * Notions used to state the properties *)

Section JoinSpec.
Context {V : Type}.

(** A schedule runs the deferred function of each of the [k] goroutines of
    a join exactly once. *)
Definition schedule (sched : nat → list nat) : Prop :=
  ∀ k, sched k ≡ₚ seq 0 k.

(** The value goroutine [i] recovered, if it panicked. *)
Definition recovered {T} (outs : list (outcome V T)) (i : nat)
    : option (panicValue V) :=
  match outs !! i with
  | Some (Panic r) => Some r
  | _ => None
  end.

(** The recovered values in the order they were recorded; the first and
    the last of them. *)
Definition recordings {T} (outs : list (outcome V T)) (order : list nat)
    : list (panicValue V) :=
  omap (recovered outs) order.


Definition lastRecorded {T} (outs : list (outcome V T)) (order : list nat)
    : option (panicValue V) :=
  last (recordings outs order).

(** Sequential reference execution of an elementwise operation: one
    element after the other, stopping at the first panic. *)
Fixpoint traverse {A B} (op : A → outcome V (list B)) (l : list A)
    : outcome V (list B) :=
  match l with
  | [] => Ok []
  | x :: l' => ys ⇐ op x ;; rest ⇐ traverse op l' ;; Ok (ys ++ rest)
  end.
End JoinSpec.

(** What the goroutines of the elementwise stages do with one element. *)
Section ElementOps.
Context {V : Type}.

Definition filterOp (fs : list (V → outcome V bool)) (x : V)
    : outcome V (list V) :=
  b ⇐ SliceStreamer.isFilter fs x ;; Ok (if b then [x] else []).

Definition mapOp (f : V → outcome V V) (x : V) : outcome V (list V) :=
  y ⇐ f x ;; Ok [y].

Definition pairFilterOp (fs : list (V → V → outcome V bool))
    (x : MapStreamer.pair V) : outcome V (list (MapStreamer.pair V)) :=
  b ⇐ MapStreamer.isFilter fs x ;; Ok (if b then [x] else []).

Definition pairMapOp (f : V → V → outcome V V) (x : MapStreamer.pair V)
    : outcome V (list V) :=
  y ⇐ f (MapStreamer.key x) (MapStreamer.value x) ;; Ok [y].

Definition pairFlatMapOp (f : V → V → outcome V (list V))
    (x : MapStreamer.pair V) : outcome V (list V) :=
  f (MapStreamer.key x) (MapStreamer.value x).
End ElementOps.

(** Two nodes, and two stores, that differ at most in the configured degrees
    of parallelism, all of them valid. *)
Section UpToParallel.
Context {V : Type}.

Definition withParallel (k : Z) (s : SliceStreamer.SliceStreamer V)
    : SliceStreamer.SliceStreamer V :=
  {| SliceStreamer.lastStreamer := SliceStreamer.lastStreamer s;
     SliceStreamer.dataGetter := SliceStreamer.dataGetter s;
     SliceStreamer.parallel := k;
     SliceStreamer.filterFunc := SliceStreamer.filterFunc s;
     SliceStreamer.mapFunc := SliceStreamer.mapFunc s;
     SliceStreamer.flatMapFunc := SliceStreamer.flatMapFunc s;
     SliceStreamer.sortFunc := SliceStreamer.sortFunc s;
     SliceStreamer.offset := SliceStreamer.offset s;
     SliceStreamer.limit := SliceStreamer.limit s |}.

Definition pairWithParallel (k : Z) (s : MapStreamer.MapStreamer V)
    : MapStreamer.MapStreamer V :=
  {| MapStreamer.lastStreamer := MapStreamer.lastStreamer s;
     MapStreamer.parallel := k;
     MapStreamer.filterFunc := MapStreamer.filterFunc s;
     MapStreamer.mapFunc := MapStreamer.mapFunc s;
     MapStreamer.flatMapFunc := MapStreamer.flatMapFunc s;
     MapStreamer.pairData := MapStreamer.pairData s |}.

Definition sameUpToParallel (s s' : SliceStreamer.SliceStreamer V) : Prop :=
  1 ≤ SliceStreamer.parallel s ∧ 1 ≤ SliceStreamer.parallel s' ∧
  s' = withParallel (SliceStreamer.parallel s') s.

Definition pairSameUpToParallel (s s' : MapStreamer.MapStreamer V) : Prop :=
  1 ≤ MapStreamer.parallel s ∧ 1 ≤ MapStreamer.parallel s' ∧
  s' = pairWithParallel (MapStreamer.parallel s') s.

Definition storeSameUpToParallel (st st' : SliceStreamer.store V) : Prop :=
  Forall2 sameUpToParallel (SliceStreamer.slices st) (SliceStreamer.slices st') ∧
  Forall2 pairSameUpToParallel (SliceStreamer.maps st) (SliceStreamer.maps st').
End UpToParallel.

(** Aggregation by key, stated on the whole evaluated sequence. *)
Section AggregationSpec.
Context {V : Type} `{Countable V}.

(** A key extractor that never panics. *)
Definition pureKeyer (key : V → V) : V → outcome V V := λ x, Ok (key x).

(** The elements with key [k], in their original order. *)
Definition group (key : V → V) (k : V) (data : list V) : list V :=
  filter (λ x, key x = k) data.

(** The element with key [k] that comes last in the data. *)
Definition lastWith (key : V → V) (k : V) (data : list V) : option V :=
  last (group key k data).

(** A list stored under a key, extended by newly grouped elements. *)
Definition extend (old : option (list V)) (g : list V) : option (list V) :=
  match g with
  | [] => old
  | _ => Some (default [] old ++ g)
  end.

(** All elements held by the groups of a map. *)
Definition members (m : gmap V (list V)) : list V :=
  concat (snd <$> map_to_list m).

(** The run time did not end the process over the stores of a join of
    degree [k]: there was one goroutine only, or no two writers were
    noticed. *)
Definition undetected (race : nat → mapWrites) (k : Z) : Prop :=
  k ≤ 1 ∨ ∃ kept, race (Z.to_nat k) = Stored kept.

(** The store of every goroutine of a join of degree [k] is in the map:
    there was one goroutine only, or no store was lost. *)
Definition landed (race : nat → mapWrites) (k : Z) : Prop :=
  k ≤ 1
  ∨ ∃ kept, race (Z.to_nat k) = Stored kept
            ∧ ∀ i, (i < Z.to_nat k)%nat → kept i = true.

(** The elements of the batches whose store is in the map. *)
Definition keptData (kept : nat → bool) (data : list V) (k : Z) : list V :=
  concat (imap (λ i b, if kept i then b else []) (batches data k)).
End AggregationSpec.

(** What a builder call does to the store. *)
Section BuilderSpec.
Context {V : Type}.
Implicit Types st : SliceStreamer.store V.

(** The call returns a node that was not there before and that has the
    receiver as parent, and no node that was there before has changed. *)
Definition buildsChild st (streamer : addr)
    (o : outcome V (SliceStreamer.store V * addr)) : Prop :=
  ∃ st' a child,
    o = Ok (st', a)
    ∧ SliceStreamer.slices st !! a = None
    ∧ SliceStreamer.slices st' !! a = Some child
    ∧ SliceStreamer.lastStreamer child = Some streamer
    ∧ (∀ b n, SliceStreamer.slices st !! b = Some n →
              SliceStreamer.slices st' !! b = Some n)
    ∧ SliceStreamer.maps st' = SliceStreamer.maps st.

(** The degree [Parallel] stores for an argument [k]. *)
Definition clamp (NumCPU k : Z) : Z := Z.min (Z.max k 1) (NumCPU * 2).

(** The call returns the receiver itself; the receiver now carries the
    clamped degree and is otherwise as before, as is every other node. *)
Definition retunesReceiver (NumCPU : Z) st (streamer : addr) (k : Z)
    (o : outcome V (SliceStreamer.store V * addr)) : Prop :=
  ∃ st' s,
    o = Ok (st', streamer)
    ∧ SliceStreamer.slices st !! streamer = Some s
    ∧ SliceStreamer.slices st' !! streamer
      = Some (withParallel (clamp NumCPU k) s)
    ∧ length (SliceStreamer.slices st') = length (SliceStreamer.slices st)
    ∧ (∀ b, b ≠ streamer →
            SliceStreamer.slices st' !! b = SliceStreamer.slices st !! b)
    ∧ SliceStreamer.maps st' = SliceStreamer.maps st.
End BuilderSpec.

(** How a join with a panicking goroutine ends. *)
Section FaultSpec.
Context {V : Type}.


End FaultSpec.

(** How the terminal calls on a stream end when its evaluation fails. *)
Section TerminalSpec.
Context {V : Type} `{Countable V}.

End TerminalSpec.

(** The pairs that pass the filters of a chain of [MapStreamer] nodes. *)
Section ProjectionSpec.
Context {V : Type}.

(** The answer of a predicate that does not panic. *)
Definition holds (f : V → V → outcome V bool) (x : MapStreamer.pair V) : bool :=
  match f (MapStreamer.key x) (MapStreamer.value x) with
  | Ok b => b
  | Panic _ => false
  end.

(** [x] satisfies every predicate of the filter of [s], if [s] has one. *)
Definition passes (s : MapStreamer.MapStreamer V) (x : MapStreamer.pair V)
    : bool :=
  forallb (λ f, holds f x) (default [] (MapStreamer.filterFunc s)).

(** Filtering node after node, root first. Only [filterFunc] is read. *)
Definition survivors (rootFirst : list (MapStreamer.MapStreamer V))
    (data : list (MapStreamer.pair V)) : list (MapStreamer.pair V) :=
  fold_left (λ d s, filter (λ x, passes s x = true) d) rootFirst data.

(** No predicate on the chain panics. *)
Definition totalFilters (l : list (MapStreamer.MapStreamer V)) : Prop :=
  ∀ s fs f k v,
    s ∈ l → MapStreamer.filterFunc s = Some fs → f ∈ fs → ∃ b, f k v = Ok b.

(** A stream over the slice [data]: a node without parent, without
    operations and without window, of degree [k]. *)
Definition rootOver (data : list V) (k : Z) : SliceStreamer.SliceStreamer V :=
  {| SliceStreamer.lastStreamer := None;
     SliceStreamer.dataGetter := Some (SliceStreamer.sliceGetter data);
     SliceStreamer.parallel := k;
     SliceStreamer.filterFunc := None;
     SliceStreamer.mapFunc := None;
     SliceStreamer.flatMapFunc := None;
     SliceStreamer.sortFunc := None;
     SliceStreamer.offset := 0;
     SliceStreamer.limit := 0 |}.

(** The store with one more stream, at the next free address. *)
Definition withStream (st : SliceStreamer.store V)
    (n : SliceStreamer.SliceStreamer V) : SliceStreamer.store V :=
  {| SliceStreamer.slices := SliceStreamer.slices st ++ [n];
     SliceStreamer.maps := SliceStreamer.maps st |}.

(** The node with its mappers removed. *)
Definition eraseMappers (s : MapStreamer.MapStreamer V)
    : MapStreamer.MapStreamer V :=
  {| MapStreamer.lastStreamer := MapStreamer.lastStreamer s;
     MapStreamer.parallel := MapStreamer.parallel s;
     MapStreamer.filterFunc := MapStreamer.filterFunc s;
     MapStreamer.mapFunc := None;
     MapStreamer.flatMapFunc := None;
     MapStreamer.pairData := MapStreamer.pairData s |}.
End ProjectionSpec.

(** The stores the builders produce: a parent was allocated before its
    child, and degrees, offsets and limits are in range. *)
Section WellFormed.
Context {V : Type}.

Definition parentsFirst {N} (last : N → option addr) (h : list N) : Prop :=
  ∀ a n q, h !! a = Some n → last n = Some q → (q < a)%nat.

Definition wellFormed (st : SliceStreamer.store V) : Prop :=
  parentsFirst SliceStreamer.lastStreamer (SliceStreamer.slices st)
  ∧ parentsFirst MapStreamer.lastStreamer (SliceStreamer.maps st)
  ∧ Forall (λ s, 1 ≤ SliceStreamer.parallel s ∧ 0 ≤ SliceStreamer.offset s
                 ∧ 0 ≤ SliceStreamer.limit s)
           (SliceStreamer.slices st)
  ∧ Forall (λ s, 1 ≤ MapStreamer.parallel s) (SliceStreamer.maps st).
End WellFormed.

(** Two calls end alike: both return, and the same value, or both panic. *)
Definition sameResult {V T} (m m' : outcome V T) : Prop :=
  match m, m' with
  | Ok r, Ok r' => r = r'
  | Panic _, Panic _ => True
  | _, _ => False
  end.

(** After the call, every stream that existed before evaluates as it did
    before: to the same sequence, or to a panic. *)
Definition keepsEvaluations {V : Type} (sched : nat → list nat)
    (sort_Slice : list V → (V → V → outcome V bool) → outcome V (list V))
    (st : SliceStreamer.store V)
    (o : outcome V (SliceStreamer.store V * addr)) : Prop :=
  ∀ st' a p,
    o = Ok (st', a) → (p < length (SliceStreamer.slices st))%nat →
    sameResult (SliceStreamer.scan sched sort_Slice st p)
               (SliceStreamer.scan sched sort_Slice st' p).

(** ** Fixtures for the worked instances *)

Module Fixture.
Import SliceStreamer.

(** Goroutines finishing in the order they were started, and in the
    opposite order. *)
Definition inOrder (k : nat) : list nat := seq 0 k.
Definition reversed (k : nat) : list nat := rev (seq 0 k).

(** A stand-in for [sort.Slice]: insertion sort driven by [less]. *)
Fixpoint insert (less : Z → Z → outcome Z bool) (x : Z) (l : list Z)
    : outcome Z (list Z) :=
  match l with
  | [] => Ok [x]
  | y :: l' =>
    b ⇐ less x y ;;
    if b then Ok (x :: y :: l') else (r ⇐ insert less x l' ;; Ok (y :: r))
  end.

Fixpoint insertionSort (l : list Z) (less : Z → Z → outcome Z bool)
    : outcome Z (list Z) :=
  match l with
  | [] => Ok []
  | x :: l' => r ⇐ insertionSort l' less ;; insert less x r
  end.

Definition NumCPU : Z := 4.

(** Three ways the stores into [resultCollection] can go: one after the
    other, two at once and noticed, and the store of goroutine [i] lost. *)
Definition serial (k : nat) : mapWrites := Stored (λ _, true).
Definition noticed (k : nat) : mapWrites := ConcurrentWrites.
Definition losing (i : nat) (k : nat) : mapWrites :=
  Stored (λ j, negb (j =? i)%nat).

Definition empty : store Z := {| slices := []; maps := [] |}.

(** The store a call left behind, and the stream it returned. *)
Definition after (o : outcome Z (store Z * addr)) : store Z :=
  match o with Ok (st, _) => st | Panic _ => empty end.
Definition returned (o : outcome Z (store Z * addr)) : addr :=
  match o with Ok (_, a) => a | Panic _ => O end.

Definition atLeast (n : Z) (x : Z) : outcome Z bool := Ok (n <=? x).
Definition double (x : Z) : outcome Z Z := Ok (2 * x).
Definition twice (x : Z) : outcome Z (list Z) := Ok [x; x].
Definition add (x y : Z) : outcome Z Z := Ok (x + y).

(** [OfSlice([]int{1, ..., 7})], at address 0. *)
Definition source : store Z := fst (OfSlice empty [1; 2; 3; 4; 5; 6; 7]).

(** [.Filter(atLeast 3)] at address 1, then [.Map(double)] at address 2. *)
Definition pipeline : store Z :=
  after (Map (after (Filter source 0%nat [atLeast 3])) 1%nat double).

(** The same pipeline after [.Parallel(3)] on the filter stage and
    [.Parallel(2)] on the map stage. *)
Definition tuned : store Z :=
  after (Parallel NumCPU (after (Parallel NumCPU pipeline 1%nat 3)) 2%nat 2).

Definition filterStage : SliceStreamer Z :=
  {| lastStreamer := Some 0%nat;
     dataGetter := None;
     parallel := 1;
     filterFunc := Some [atLeast 3];
     mapFunc := Some double;
     flatMapFunc := Some twice;
     sortFunc := None;
     offset := 0;
     limit := 0 |}.

(** The map stage of [tuned], at address 2. *)
Definition mapStage : SliceStreamer Z :=
  {| lastStreamer := Some 1%nat;
     dataGetter := None;
     parallel := 2;
     filterFunc := None;
     mapFunc := Some double;
     flatMapFunc := None;
     sortFunc := None;
     offset := 0;
     limit := 0 |}.



(** A map-sourced store: [OfMap] of four pairs at address 0, a filter on
    even keys at address 1 with degree 3, and at address 2 a node that
    carries both a filter on values and a mapper. *)
Definition pairs : list (MapStreamer.pair Z) :=
  [MapStreamer.Pair 1 10; MapStreamer.Pair 2 20;
   MapStreamer.Pair 3 30; MapStreamer.Pair 4 40].

Definition evenKey (k v : Z) : outcome Z bool := Ok (k mod 2 =? 0).
Definition bigValue (k v : Z) : outcome Z bool := Ok (30 <=? v).

Definition mapRoot : MapStreamer.MapStreamer Z :=
  {| MapStreamer.lastStreamer := None;
     MapStreamer.parallel := 1;
     MapStreamer.filterFunc := None;
     MapStreamer.mapFunc := None;
     MapStreamer.flatMapFunc := None;
     MapStreamer.pairData := pairs |}.

Definition evenKeys : MapStreamer.MapStreamer Z :=
  {| MapStreamer.lastStreamer := Some 0%nat;
     MapStreamer.parallel := 3;
     MapStreamer.filterFunc := Some [evenKey];
     MapStreamer.mapFunc := None;
     MapStreamer.flatMapFunc := None;
     MapStreamer.pairData := [] |}.

Definition bigValuesMapped : MapStreamer.MapStreamer Z :=
  {| MapStreamer.lastStreamer := Some 1%nat;
     MapStreamer.parallel := 2;
     MapStreamer.filterFunc := Some [bigValue];
     MapStreamer.mapFunc := Some (λ k v, Ok (k + v));
     MapStreamer.flatMapFunc := None;
     MapStreamer.pairData := [] |}.

Definition mapSourced : store Z :=
  {| slices := []; maps := [mapRoot; evenKeys; bigValuesMapped] |}.
End Fixture.

(** ** Notions used to state the further properties *)

Section PipelineSpec.
Context {V : Type} `{Countable V}.

(** Operations that never panic. *)
Definition purePredicates (ps : list (V → bool)) : list (V → outcome V bool) :=
  map (λ p x, Ok (p x)) ps.

Definition pureMapper (g : V → V) : V → outcome V V := λ x, Ok (g x).

Definition pureFlatMapper (g : V → list V) : V → outcome V (list V) :=
  λ x, Ok (g x).

Definition purePairMapper (g : V → V → V) : V → V → outcome V V :=
  λ k v, Ok (g k v).

Definition pureOps {S : Type} (ops : list (V → S → S))
    : list (V → S → S * outcome V unit) :=
  map (λ op x w, (op x w, Ok ())) ops.

(** The answer of a predicate on an element, false when it panics. *)
Definition answers (f : V → outcome V bool) (x : V) : bool :=
  match f x with
  | Ok b => b
  | Panic _ => false
  end.

(** The sequence the stages of a stream produce, before the window is
    taken. *)
Definition unwindowed (sched : nat → list nat)
    (sort_Slice : list V → (V → V → outcome V bool) → outcome V (list V))
    (st : SliceStreamer.store V) (streamer : addr) : outcome V (list V) :=
  l ⇐ SliceStreamer.streamerList st streamer ;;
  match last l with
  | None => Panic (Runtime IndexOutOfRange)
  | Some root =>
    data ⇐ SliceStreamer.getData sched st (SliceStreamer.dataGetter root) ;;
    SliceStreamer.replay sched sort_Slice st (rev l) data
  end.

(** A node with another offset and limit. *)
Definition withWindow (o l : Z) (s : SliceStreamer.SliceStreamer V)
    : SliceStreamer.SliceStreamer V :=
  {| SliceStreamer.lastStreamer := SliceStreamer.lastStreamer s;
     SliceStreamer.dataGetter := SliceStreamer.dataGetter s;
     SliceStreamer.parallel := SliceStreamer.parallel s;
     SliceStreamer.filterFunc := SliceStreamer.filterFunc s;
     SliceStreamer.mapFunc := SliceStreamer.mapFunc s;
     SliceStreamer.flatMapFunc := SliceStreamer.flatMapFunc s;
     SliceStreamer.sortFunc := SliceStreamer.sortFunc s;
     SliceStreamer.offset := o;
     SliceStreamer.limit := l |}.

(** No operation of the node panics, and [sort.Slice] returns when it is
    driven by the comparison of the node. *)
Definition totalStage
    (sort_Slice : list V → (V → V → outcome V bool) → outcome V (list V))
    (s : SliceStreamer.SliceStreamer V) : Prop :=
  (∀ fs f x, SliceStreamer.filterFunc s = Some fs → f ∈ fs → ∃ b, f x = Ok b)
  ∧ (∀ f x, SliceStreamer.mapFunc s = Some f → ∃ y, f x = Ok y)
  ∧ (∀ f x, SliceStreamer.flatMapFunc s = Some f → ∃ ys, f x = Ok ys)
  ∧ (∀ f d, SliceStreamer.sortFunc s = Some f → ∃ d', sort_Slice d f = Ok d').

(** A node without parent reads its data from a slice. *)
Definition overSlice (s : SliceStreamer.SliceStreamer V) : Prop :=
  SliceStreamer.lastStreamer s = None →
  ∃ data, SliceStreamer.dataGetter s = Some (SliceStreamer.sliceGetter data).

(** No node of a chain of [MapStreamer] nodes carries a mapper. *)
Definition filtersOnly (l : list (MapStreamer.MapStreamer V)) : Prop :=
  Forall (λ n, MapStreamer.mapFunc n = None ∧ MapStreamer.flatMapFunc n = None) l.
End PipelineSpec.

(** * Properties *)

(** ** Outcomes *)

Section OutcomeFacts.
Context {V : Type}.

Lemma bind_Ok_inv {T U} (m : outcome V T) (k : T → outcome V U) u :
  bind m k = Ok u → ∃ t, m = Ok t ∧ k t = Ok u.
Proof. destruct m as [t|p]; simpl; [eauto | discriminate]. Qed.

Lemma bind_Panic_inv {T U} (m : outcome V T) (k : T → outcome V U) p :
  bind m k = Panic p → m = Panic p ∨ ∃ t, m = Ok t ∧ k t = Panic p.
Proof. destruct m as [t|q]; simpl; [eauto | intros [= ->]; eauto]. Qed.

Lemma panics_Panic {T} (p : panicValue V) : panics (Panic p : outcome V T).
Proof. by exists p. Qed.

Lemma not_panics_Ok {T} (t : T) : ¬ panics (Ok t : outcome V T).
Proof. by intros [p ?]. Qed.

Lemma Ok_or_panics {T} (m : outcome V T) : (∃ t, m = Ok t) ∨ panics m.
Proof. destruct m as [t|p]; [left | right]; eauto using panics_Panic. Qed.
End OutcomeFacts.

(** ** Batches: contiguous, in order, and covering the data *)

Section BatchFacts.
Context {A : Type}.
Implicit Types data : list A.

Lemma bounds_inner len k i :
  0 ≤ i < k - 1 →
  bounds len k i = (i * (len / k), i * (len / k) + len / k).
Proof.
  intros Hi. unfold bounds.
  destruct (Z.eqb_spec i (k - 1)) as [->|_]; [lia | done].
Qed.

Lemma bounds_last len k :
  0 < k → 0 ≤ len → bounds len k (k - 1) = ((k - 1) * (len / k), len).
Proof.
  intros Hk Hlen. unfold bounds. rewrite Z.eqb_refl. simpl.
  pose proof (Z.mul_div_le len k Hk) as Hle.
  destruct (Z.ltb_spec ((k - 1) * (len / k) + len / k) len) as [_|Hge]; [done |].
  f_equal. lia.
Qed.

Lemma slice_inner data (j : nat) (b : Z) :
  0 ≤ b →
  slice data (Z.of_nat j * b) (Z.of_nat j * b + b) =
  take (Z.to_nat b) (drop (j * Z.to_nat b) data).
Proof.
  intros Hb. unfold slice.
  replace (Z.to_nat (Z.of_nat j * b)) with (j * Z.to_nat b)%nat by lia.
  f_equal. lia.
Qed.

Lemma slice_to_end data (lo : Z) :
  0 ≤ lo →
  slice data lo (Z.of_nat (length data)) = drop (Z.to_nat lo) data.
Proof.
  intros Hlo. unfold slice. apply take_ge. rewrite length_drop. lia.
Qed.

Lemma concat_inner_batches data (b : Z) (j : nat) :
  0 ≤ b →
  concat (map (λ i : nat, slice data (Z.of_nat i * b) (Z.of_nat i * b + b)) (seq 0 j))
  = take (j * Z.to_nat b) data.
Proof.
  intros Hb. induction j as [|j IH]; [done |].
  rewrite seq_S, map_app, concat_app, IH. simpl. rewrite app_nil_r.
  rewrite slice_inner by done. rewrite take_take_drop. f_equal. lia.
Qed.

Lemma batches_split data k :
  1 ≤ k →
  batches data k =
  map (λ i : nat, slice data (Z.of_nat i * (Z.of_nat (length data) / k))
                     (Z.of_nat i * (Z.of_nat (length data) / k)
                      + Z.of_nat (length data) / k))
      (seq 0 (Z.to_nat (k - 1)))
  ++ [drop (Z.to_nat (k - 1) * Z.to_nat (Z.of_nat (length data) / k)) data].
Proof.
  intros Hk. unfold batches.
  replace (Z.to_nat k) with (S (Z.to_nat (k - 1))) by lia.
  rewrite seq_S, map_app. simpl. f_equal.
  - apply map_ext_in. intros i Hi%in_seq.
    rewrite bounds_inner by lia. done.
  - replace (Z.of_nat (Z.to_nat (k - 1))) with (k - 1) by lia.
    rewrite bounds_last by lia.
    assert (0 ≤ Z.of_nat (length data) / k) by (apply Z.div_pos; lia).
    rewrite slice_to_end by (apply Z.mul_nonneg_nonneg; lia).
    by rewrite Z2Nat.inj_mul by lia.
Qed.

(** Concatenating the batches in ascending index order gives the data
    back. *)
Lemma batches_concat data k : 1 ≤ k → concat (batches data k) = data.
Proof.
  intros Hk. rewrite batches_split by done.
  assert (0 ≤ Z.of_nat (length data) / k) by (apply Z.div_pos; lia).
  rewrite concat_app, concat_inner_batches by done.
  simpl. rewrite app_nil_r. apply take_drop.
Qed.

Lemma length_batches data k : length (batches data k) = Z.to_nat k.
Proof. unfold batches. by rewrite length_map, length_seq. Qed.

Lemma batches_one data : batches data 1 = [data].
Proof.
  rewrite batches_split by done. simpl. by rewrite drop_0.
Qed.
End BatchFacts.

(** ** The join *)

Section JoinFacts.
Context {V : Type}.
Variable sched : nat → list nat.

Lemma panicError_from {T} (outs : list (outcome V T)) order err :
  fold_left
    (λ err i, match outs !! i with
              | Some (Panic r) => Some (Errorf r)
              | _ => err
              end)
    order err
  = match lastRecorded outs order with
    | Some r => Some (Errorf r)
    | None => err
    end.
Proof.
  unfold lastRecorded, recordings.
  revert err. induction order as [|i order IH]; intros err; [done |].
  cbn [fold_left omap list_omap]. rewrite IH. unfold recovered at 2.
  change (list_omap _ _ ?f ?l) with (omap f l).
  destruct (outs !! i) as [[t|r]|] eqn:Hi; try done.
  rewrite last_cons. by destruct (last (omap (recovered outs) order)).
Qed.

(** The error raised after the join is the one recorded last. *)
Lemma panicError_lastRecorded {T} (outs : list (outcome V T)) order :
  panicError outs order = Errorf <$> lastRecorded outs order.
Proof.
  unfold panicError. rewrite panicError_from.
  by destruct (lastRecorded outs order).
Qed.

Lemma recordings_nil {T} (outs : list (outcome V T)) order :
  Forall (λ o, ∃ t, o = Ok t) outs → recordings outs order = [].
Proof.
  intros Hall. unfold recordings.
  induction order as [|i order IH]; [done |]. simpl.
  unfold recovered at 1.
  destruct (outs !! i) as [[t|r]|] eqn:Hi; try done.
  rewrite Forall_lookup in Hall. by destruct (Hall _ _ Hi).
Qed.

Lemma recordings_cons {T} (outs : list (outcome V T)) order i r :
  i ∈ order → outs !! i = Some (Panic r) → recordings outs order ≠ [].
Proof.
  intros Hin Hi Hnil. unfold recordings in Hnil.
  induction order as [|j order IH]; [by apply elem_of_nil in Hin |].
  simpl in Hnil. apply elem_of_cons in Hin as [->|Hin].
  - unfold recovered in Hnil at 1. by rewrite Hi in Hnil.
  - destruct (recovered outs j); [done | by apply IH].
Qed.

Lemma outcomes_cases {A T} (w : A → outcome V T) (bs : list A) :
  (∃ rs, Forall2 (λ b r, w b = Ok r) bs rs) ∨ Exists (λ b, panics (w b)) bs.
Proof.
  induction bs as [|b bs [[rs IH]|IH]].
  - left. by exists [].
  - destruct (w b) as [r|p] eqn:Hb.
    + left. exists (r :: rs). by constructor.
    + right. apply Exists_cons_hd. rewrite Hb. apply panics_Panic.
  - right. by apply Exists_cons_tl.
Qed.

Lemma outcomes_exclusive {A T} (w : A → outcome V T) (bs : list A) rs :
  Forall2 (λ b r, w b = Ok r) bs rs → ¬ Exists (λ b, panics (w b)) bs.
Proof.
  induction 1 as [|b r bs rs Hb _ IH]; intros Hex.
  - by apply Exists_nil in Hex.
  - apply Exists_cons in Hex as [[p Hp]|Hex]; [congruence | by apply IH].
Qed.

Lemma map_all_Ok {A T} (w : A → outcome V T) (bs : list A) rs :
  Forall2 (λ b r, w b = Ok r) bs rs → map w bs = map Ok rs.
Proof. induction 1; simpl; congruence. Qed.

Lemma forkJoin_Ok {A T} k (data : list A) (w : list A → outcome V T) rs :
  1 ≤ k →
  Forall2 (λ b r, w b = Ok r) (batches data k) rs →
  forkJoin sched k data w = Ok (map Some rs).
Proof.
  intros Hk Hall. unfold forkJoin.
  destruct (Z.ltb_spec k 0); [lia |]. destruct (Z.eqb_spec k 0); [lia |].
  simpl. rewrite panicError_lastRecorded. unfold lastRecorded.
  rewrite (map_all_Ok _ _ _ Hall).
  rewrite recordings_nil
    by (clear; induction rs; simpl; constructor; eauto).
  simpl. f_equal. rewrite map_map. done.
Qed.

Lemma forkJoin_Panic {A T} k (data : list A) (w : list A → outcome V T) :
  schedule sched → 1 ≤ k →
  Exists (λ b, panics (w b)) (batches data k) →
  ∃ r, lastRecorded (map w (batches data k)) (sched (Z.to_nat k)) = Some r
       ∧ forkJoin sched k data w = Panic (Errorf r).
Proof.
  intros Hsched Hk Hex. unfold forkJoin.
  destruct (Z.ltb_spec k 0); [lia |]. destruct (Z.eqb_spec k 0); [lia |].
  simpl. rewrite panicError_lastRecorded.
  apply Exists_exists in Hex as (b & Hb & p & Hp).
  apply list_elem_of_lookup in Hb as [i Hi].
  assert (recordings (map w (batches data k)) (sched (Z.to_nat k)) ≠ []) as Hne.
  { apply (recordings_cons _ _ i p).
    - rewrite (Hsched (Z.to_nat k)). apply elem_of_seq.
      apply lookup_lt_Some in Hi. rewrite length_batches in Hi. lia.
    - by rewrite list_lookup_fmap, Hi; simpl; rewrite Hp. }
  apply last_is_Some in Hne as [r Hr]. exists r. unfold lastRecorded.
  by rewrite Hr.
Qed.

Lemma appendAll_Some {A} (rs : list (list A)) :
  appendAll (map Some rs) = concat rs.
Proof.
  unfold appendAll.
  enough (∀ acc, fold_left (λ result r, result ++ default [] r) (map Some rs) acc
                 = acc ++ concat rs) as Hgen by apply (Hgen []).
  induction rs as [|r rs IH]; intros acc; simpl.
  - by rewrite app_nil_r.
  - by rewrite IH, app_assoc.
Qed.
End JoinFacts.

(** ** Elementwise work: a join computes what one pass over the data does *)

Section TraverseFacts.
Context {V A B : Type}.
Variable sched : nat → list nat.
Implicit Types op : A → outcome V (list B).

Lemma bind_Ok_r {T} (m : outcome V T) : bind m Ok = m.
Proof. by destruct m. Qed.

Lemma traverse_app op l1 l2 :
  traverse op (l1 ++ l2) =
  (r1 ⇐ traverse op l1 ;; r2 ⇐ traverse op l2 ;; Ok (r1 ++ r2)).
Proof.
  induction l1 as [|x l1 IH]; simpl.
  - by rewrite bind_Ok_r.
  - destruct (op x) as [ys|p]; simpl; [| done]. rewrite IH.
    destruct (traverse op l1) as [r1|p]; simpl; [| done].
    destruct (traverse op l2) as [r2|p]; simpl; [| done].
    by rewrite app_assoc.
Qed.

Lemma traverse_concat_Ok op bs rs :
  Forall2 (λ b r, traverse op b = Ok r) bs rs →
  traverse op (concat bs) = Ok (concat rs).
Proof.
  induction 1 as [|b r bs rs Hb _ IH]; [done |].
  simpl. by rewrite traverse_app, Hb, IH.
Qed.

Lemma traverse_concat_Panic op bs :
  Exists (λ b, panics (traverse op b)) bs → panics (traverse op (concat bs)).
Proof.
  induction 1 as [b bs [p Hp]|b bs _ [p Hp]]; simpl; rewrite traverse_app.
  - rewrite Hp. apply panics_Panic.
  - rewrite Hp. destruct (traverse op b); apply panics_Panic.
Qed.

Lemma forkJoin_ext {T} k (data : list A) (w w' : list A → outcome V T) :
  (∀ b, w b = w' b) → forkJoin sched k data w = forkJoin sched k data w'.
Proof.
  intros Hext. unfold forkJoin.
  by rewrite (map_ext _ _ Hext (batches data k)).
Qed.

(** With every element succeeding, any degree gives the result of the
    single pass, whatever the schedule. *)
Lemma elementwise_Ok op k data r :
  1 ≤ k →
  traverse op data = Ok r →
  (results ⇐ forkJoin sched k data (traverse op) ;; Ok (appendAll results))
  = Ok r.
Proof.
  intros Hk Hr.
  destruct (outcomes_cases (traverse op) (batches data k)) as [[rs Hrs]|Hex].
  - rewrite (forkJoin_Ok sched k data _ rs Hk Hrs). simpl.
    rewrite appendAll_Some. f_equal.
    apply traverse_concat_Ok in Hrs.
    rewrite batches_concat in Hrs by done. congruence.
  - apply traverse_concat_Panic in Hex as [p Hp].
    rewrite batches_concat in Hp by done. congruence.
Qed.

(** With some element panicking, every degree fails. *)
Lemma elementwise_Panic op k data :
  schedule sched → 1 ≤ k →
  panics (traverse op data) →
  panics (results ⇐ forkJoin sched k data (traverse op) ;; Ok (appendAll results)).
Proof.
  intros Hsched Hk [p Hp].
  destruct (outcomes_cases (traverse op) (batches data k)) as [[rs Hrs]|Hex].
  - apply traverse_concat_Ok in Hrs.
    rewrite batches_concat in Hrs by done. congruence.
  - destruct (forkJoin_Panic sched k data _ Hsched Hk Hex) as (r & _ & ->).
    apply panics_Panic.
Qed.

(** The converse directions. *)
Lemma elementwise_Ok_inv op k data r :
  schedule sched → 1 ≤ k →
  (results ⇐ forkJoin sched k data (traverse op) ;; Ok (appendAll results))
  = Ok r →
  traverse op data = Ok r.
Proof.
  intros Hsched Hk Hr.
  destruct (traverse op data) as [r'|p] eqn:Hd.
  - rewrite (elementwise_Ok op k data r' Hk Hd) in Hr. congruence.
  - destruct (elementwise_Panic op k data Hsched Hk) as [q Hq];
      [rewrite Hd; apply panics_Panic | congruence].
Qed.
End TraverseFacts.

(** ** The elementwise stages of [SliceStreamer] *)

Section SliceStages.
Context {V : Type} `{Countable V}.
Variable sched : nat → list nat.
Implicit Types s : SliceStreamer.SliceStreamer V.
Implicit Types data : list V.

Lemma filterWorker_traverse fs batch (res : list V) :
  SliceStreamer.filterWorker fs batch res =
  (r ⇐ traverse (filterOp fs) batch ;; Ok (res ++ r)).
Proof.
  revert res. induction batch as [|x batch IH]; intros res; simpl.
  - by rewrite app_nil_r.
  - unfold filterOp at 1.
    destruct (SliceStreamer.isFilter fs x) as [b|p]; simpl; [| done].
    rewrite IH. destruct (traverse (filterOp fs) batch); simpl; [| done].
    destruct b; simpl; by rewrite <- ?app_assoc.
Qed.

Lemma mapWorker_traverse f batch (res : list V) :
  SliceStreamer.mapWorker f batch res =
  (r ⇐ traverse (mapOp f) batch ;; Ok (res ++ r)).
Proof.
  revert res. induction batch as [|x batch IH]; intros res; simpl.
  - by rewrite app_nil_r.
  - unfold mapOp at 1. destruct (f x) as [y|p]; simpl; [| done].
    rewrite IH. destruct (traverse (mapOp f) batch); simpl; [| done].
    by rewrite <- app_assoc.
Qed.

Lemma flatMapWorker_traverse f batch (res : list V) :
  SliceStreamer.flatMapWorker f batch res =
  (r ⇐ traverse f batch ;; Ok (res ++ r)).
Proof.
  revert res. induction batch as [|x batch IH]; intros res; simpl.
  - by rewrite app_nil_r.
  - destruct (f x) as [ys|p]; simpl; [| done].
    rewrite IH. destruct (traverse f batch); simpl; [| done].
    by rewrite <- app_assoc.
Qed.

Lemma worker_from_nil {B} (w : list V → list B → outcome V (list B))
    (op : V → outcome V (list B)) :
  (∀ batch res, w batch res = (r ⇐ traverse op batch ;; Ok (res ++ r))) →
  ∀ batch, w batch [] = traverse op batch.
Proof. intros Hw batch. rewrite Hw. simpl. apply bind_Ok_r. Qed.

Lemma traverse_filterOp_nil data : traverse (filterOp []) data = Ok data.
Proof. induction data as [|x data IH]; simpl; [done | by rewrite IH]. Qed.

(** [filter], [_map] and [flatMap] as a join over the single pass. *)
Lemma filter_join s data fs :
  SliceStreamer.filterFunc s = Some fs → fs ≠ [] →
  SliceStreamer.filter sched s data =
  (results ⇐ forkJoin sched (SliceStreamer.parallel s) data
               (traverse (filterOp fs)) ;;
   Ok (appendAll results)).
Proof.
  intros Hfs Hne. unfold SliceStreamer.filter. rewrite Hfs.
  destruct fs as [|f fs]; [done |].
  f_equal. apply forkJoin_ext, worker_from_nil, filterWorker_traverse.
Qed.

Lemma map_join s data f :
  SliceStreamer.mapFunc s = Some f →
  SliceStreamer._map sched s data =
  (results ⇐ forkJoin sched (SliceStreamer.parallel s) data
               (traverse (mapOp f)) ;;
   Ok (appendAll results)).
Proof.
  intros Hf. unfold SliceStreamer._map. rewrite Hf.
  f_equal. apply forkJoin_ext, worker_from_nil, mapWorker_traverse.
Qed.

Lemma flatMap_join st s data f :
  SliceStreamer.flatMapFunc s = Some f →
  SliceStreamer.flatMap sched st s data =
  (results ⇐ forkJoin sched (SliceStreamer.parallel s) data (traverse f) ;;
   Ok (appendAll results)).
Proof.
  intros Hf. unfold SliceStreamer.flatMap. rewrite Hf.
  f_equal. apply forkJoin_ext, worker_from_nil, flatMapWorker_traverse.
Qed.
End SliceStages.

(** ** The elementwise stages of [MapStreamer] *)

Section PairStages.
Context {V : Type}.
Variable sched : nat → list nat.
Implicit Types s : MapStreamer.MapStreamer V.
Implicit Types data : list (MapStreamer.pair V).

Lemma pairFilterWorker_traverse fs batch (res : list (MapStreamer.pair V)) :
  MapStreamer.filterWorker fs batch res =
  (r ⇐ traverse (pairFilterOp fs) batch ;; Ok (res ++ r)).
Proof.
  revert res. induction batch as [|x batch IH]; intros res; simpl.
  - by rewrite app_nil_r.
  - unfold pairFilterOp at 1.
    destruct (MapStreamer.isFilter fs x) as [b|p]; simpl; [| done].
    rewrite IH. destruct (traverse (pairFilterOp fs) batch); simpl; [| done].
    destruct b; simpl; by rewrite <- ?app_assoc.
Qed.

Lemma pairMapWorker_traverse f batch (res : list V) :
  MapStreamer.mapWorker f batch res =
  (r ⇐ traverse (pairMapOp f) batch ;; Ok (res ++ r)).
Proof.
  revert res. induction batch as [|x batch IH]; intros res; simpl.
  - by rewrite app_nil_r.
  - unfold pairMapOp at 1.
    destruct (f (MapStreamer.key x) (MapStreamer.value x)) as [y|p]; simpl; [| done].
    rewrite IH. destruct (traverse (pairMapOp f) batch); simpl; [| done].
    by rewrite <- app_assoc.
Qed.

Lemma pairFlatMapWorker_traverse f batch (res : list V) :
  MapStreamer.flatMapWorker f batch res =
  (r ⇐ traverse (pairFlatMapOp f) batch ;; Ok (res ++ r)).
Proof.
  revert res. induction batch as [|x batch IH]; intros res; simpl.
  - by rewrite app_nil_r.
  - unfold pairFlatMapOp at 1.
    destruct (f (MapStreamer.key x) (MapStreamer.value x)) as [ys|p]; simpl; [| done].
    rewrite IH. destruct (traverse (pairFlatMapOp f) batch); simpl; [| done].
    by rewrite <- app_assoc.
Qed.

Lemma pair_worker_from_nil {B}
    (w : list (MapStreamer.pair V) → list B → outcome V (list B))
    (op : MapStreamer.pair V → outcome V (list B)) :
  (∀ batch res, w batch res = (r ⇐ traverse op batch ;; Ok (res ++ r))) →
  ∀ batch, w batch [] = traverse op batch.
Proof. intros Hw batch. rewrite Hw. simpl. apply bind_Ok_r. Qed.

Lemma traverse_pairFilterOp_nil data :
  traverse (pairFilterOp []) data = Ok data.
Proof. induction data as [|x data IH]; simpl; [done | by rewrite IH]. Qed.

Lemma pairFilter_join s data fs :
  MapStreamer.filterFunc s = Some fs → fs ≠ [] →
  MapStreamer.filter sched s data =
  (results ⇐ forkJoin sched (MapStreamer.parallel s) data
               (traverse (pairFilterOp fs)) ;;
   Ok (appendAll results)).
Proof.
  intros Hfs Hne. unfold MapStreamer.filter. rewrite Hfs.
  destruct fs as [|f fs]; [done |].
  f_equal. apply forkJoin_ext, pair_worker_from_nil, pairFilterWorker_traverse.
Qed.

Lemma pairMap_join s data f :
  MapStreamer.mapFunc s = Some f →
  MapStreamer._map sched s data =
  (results ⇐ forkJoin sched (MapStreamer.parallel s) data
               (traverse (pairMapOp f)) ;;
   Ok (appendAll results)).
Proof.
  intros Hf. unfold MapStreamer._map. rewrite Hf.
  f_equal. apply forkJoin_ext, pair_worker_from_nil, pairMapWorker_traverse.
Qed.

Lemma pairFlatMap_join s data f :
  MapStreamer.flatMapFunc s = Some f →
  MapStreamer.flatMap sched s data =
  (results ⇐ forkJoin sched (MapStreamer.parallel s) data
               (traverse (pairFlatMapOp f)) ;;
   Ok (appendAll results)).
Proof.
  intros Hf. unfold MapStreamer.flatMap. rewrite Hf.
  f_equal. apply forkJoin_ext, pair_worker_from_nil, pairFlatMapWorker_traverse.
Qed.

(** A filter stage computes the single pass; with no predicate it hands the
    data through. *)
Lemma pairFilter_Ok s data fs r :
  1 ≤ MapStreamer.parallel s →
  MapStreamer.filterFunc s = Some fs →
  traverse (pairFilterOp fs) data = Ok r →
  MapStreamer.filter sched s data = Ok r.
Proof.
  intros Hk Hfs Hr. destruct fs as [|f fs].
  - rewrite traverse_pairFilterOp_nil in Hr. unfold MapStreamer.filter.
    by rewrite Hfs.
  - rewrite (pairFilter_join s data (f :: fs)) by done.
    by apply elementwise_Ok.
Qed.

Lemma pairFilter_Ok_inv s data fs r :
  schedule sched → 1 ≤ MapStreamer.parallel s →
  MapStreamer.filterFunc s = Some fs →
  MapStreamer.filter sched s data = Ok r →
  traverse (pairFilterOp fs) data = Ok r.
Proof.
  intros Hsched Hk Hfs Hr. destruct fs as [|f fs].
  - rewrite traverse_pairFilterOp_nil. unfold MapStreamer.filter in Hr.
    by rewrite Hfs in Hr.
  - rewrite (pairFilter_join s data (f :: fs)) in Hr by done.
    by apply elementwise_Ok_inv in Hr.
Qed.

Lemma pairSameUpToParallel_sym s s' :
  pairSameUpToParallel s s' → pairSameUpToParallel s' s.
Proof.
  intros (Hk & Hk' & ->). repeat split; simpl in *; try done.
  by destruct s.
Qed.

Lemma pairFilter_indep s s' data r :
  schedule sched → pairSameUpToParallel s s' →
  MapStreamer.filter sched s data = Ok r →
  MapStreamer.filter sched s' data = Ok r.
Proof.
  intros Hsched (Hk & Hk' & Hs') Hr.
  destruct (MapStreamer.filterFunc s) as [fs|] eqn:Hfs.
  - apply (pairFilter_Ok s' data fs); [done | by rewrite Hs' |].
    by apply (pairFilter_Ok_inv s).
  - unfold MapStreamer.filter in *. rewrite Hs'. simpl.
    by rewrite Hfs in *.
Qed.

Lemma pairMap_indep s s' data r :
  schedule sched → pairSameUpToParallel s s' →
  MapStreamer._map sched s data = Ok r →
  MapStreamer._map sched s' data = Ok r.
Proof.
  intros Hsched (Hk & Hk' & Hs') Hr.
  destruct (MapStreamer.mapFunc s) as [f|] eqn:Hf.
  - rewrite (pairMap_join s data f) in Hr by done.
    rewrite (pairMap_join s' data f) by (by rewrite Hs').
    by apply elementwise_Ok, (elementwise_Ok_inv sched _ (MapStreamer.parallel s)).
  - unfold MapStreamer._map in *. rewrite Hs'. simpl. by rewrite Hf in *.
Qed.

Lemma pairFlatMap_indep s s' data r :
  schedule sched → pairSameUpToParallel s s' →
  MapStreamer.flatMap sched s data = Ok r →
  MapStreamer.flatMap sched s' data = Ok r.
Proof.
  intros Hsched (Hk & Hk' & Hs') Hr.
  destruct (MapStreamer.flatMapFunc s) as [f|] eqn:Hf.
  - rewrite (pairFlatMap_join s data f) in Hr by done.
    rewrite (pairFlatMap_join s' data f) by (by rewrite Hs').
    by apply elementwise_Ok, (elementwise_Ok_inv sched _ (MapStreamer.parallel s)).
  - unfold MapStreamer.flatMap in *. rewrite Hs'. simpl. by rewrite Hf in *.
Qed.
End PairStages.

(** ** Independence of the configured degrees of parallelism *)

Section ParallelismFacts.
Context {V : Type} `{Countable V}.
Variable sched : nat → list nat.
Variable sort_Slice : list V → (V → V → outcome V bool) → outcome V (list V).
Implicit Types s : SliceStreamer.SliceStreamer V.
Implicit Types data : list V.

Lemma filter_Ok s data fs r :
  1 ≤ SliceStreamer.parallel s →
  SliceStreamer.filterFunc s = Some fs →
  traverse (filterOp fs) data = Ok r →
  SliceStreamer.filter sched s data = Ok r.
Proof.
  intros Hk Hfs Hr. destruct fs as [|f fs].
  - rewrite traverse_filterOp_nil in Hr. unfold SliceStreamer.filter.
    by rewrite Hfs.
  - rewrite (filter_join sched s data (f :: fs)) by done.
    by apply elementwise_Ok.
Qed.

Lemma filter_Ok_inv s data fs r :
  schedule sched → 1 ≤ SliceStreamer.parallel s →
  SliceStreamer.filterFunc s = Some fs →
  SliceStreamer.filter sched s data = Ok r →
  traverse (filterOp fs) data = Ok r.
Proof.
  intros Hsched Hk Hfs Hr. destruct fs as [|f fs].
  - rewrite traverse_filterOp_nil. unfold SliceStreamer.filter in Hr.
    by rewrite Hfs in Hr.
  - rewrite (filter_join sched s data (f :: fs)) in Hr by done.
    by apply elementwise_Ok_inv in Hr.
Qed.

Lemma sameUpToParallel_sym s s' :
  sameUpToParallel s s' → sameUpToParallel s' s.
Proof.
  intros (Hk & Hk' & ->). repeat split; simpl in *; try done.
  by destruct s.
Qed.

Lemma filter_indep s s' data r :
  schedule sched → sameUpToParallel s s' →
  SliceStreamer.filter sched s data = Ok r →
  SliceStreamer.filter sched s' data = Ok r.
Proof.
  intros Hsched (Hk & Hk' & Hs') Hr.
  destruct (SliceStreamer.filterFunc s) as [fs|] eqn:Hfs.
  - apply (filter_Ok s' data fs); [done | by rewrite Hs' |].
    by apply (filter_Ok_inv s).
  - unfold SliceStreamer.filter in *. rewrite Hs'. simpl.
    by rewrite Hfs in *.
Qed.

Lemma map_indep s s' data r :
  schedule sched → sameUpToParallel s s' →
  SliceStreamer._map sched s data = Ok r →
  SliceStreamer._map sched s' data = Ok r.
Proof.
  intros Hsched (Hk & Hk' & Hs') Hr.
  destruct (SliceStreamer.mapFunc s) as [f|] eqn:Hf.
  - rewrite (map_join sched s data f) in Hr by done.
    rewrite (map_join sched s' data f) by (by rewrite Hs').
    by apply elementwise_Ok, (elementwise_Ok_inv sched _ (SliceStreamer.parallel s)).
  - unfold SliceStreamer._map in *. rewrite Hs'. simpl. by rewrite Hf in *.
Qed.

Lemma flatMap_indep st st' s s' data f r :
  schedule sched → sameUpToParallel s s' →
  SliceStreamer.flatMapFunc s = Some f →
  SliceStreamer.flatMap sched st s data = Ok r →
  SliceStreamer.flatMap sched st' s' data = Ok r.
Proof.
  intros Hsched (Hk & Hk' & Hs') Hf Hr.
  rewrite (flatMap_join sched st s data f) in Hr by done.
  rewrite (flatMap_join sched st' s' data f) by (by rewrite Hs').
  by apply elementwise_Ok, (elementwise_Ok_inv sched _ (SliceStreamer.parallel s)).
Qed.

(** Walking the chain of related heaps visits related nodes. *)
Lemma chain_related {N} (R : N → N → Prop) (last : N → option addr)
    (h h' : list N) fuel p l :
  (∀ n n', R n n' → last n = last n') →
  Forall2 R h h' →
  chain (V:=V) last h fuel p = Ok l →
  ∃ l', chain (V:=V) last h' fuel p = Ok l' ∧ Forall2 R l l'.
Proof.
  intros Hlast Hh. revert p l.
  induction fuel as [|fuel IH]; intros [a|] l Hl; simpl in *;
    try discriminate; try (injection Hl as <-; eauto).
  destruct (h !! a) as [n|] eqn:Hn; [| discriminate].
  destruct (Forall2_lookup_l _ _ _ _ _ Hh Hn) as (n' & -> & Hnn').
  apply bind_Ok_inv in Hl as (t & Ht & [= <-]).
  destruct (IH _ _ Ht) as (t' & Ht' & Htt').
  rewrite <- (Hlast _ _ Hnn'), Ht'. simpl. eauto.
Qed.

Lemma Forall2_rev {A B} (R : A → B → Prop) l k :
  Forall2 R l k → Forall2 R (rev l) (rev k).
Proof.
  induction 1; simpl; [done |]. apply Forall2_app; [done | by constructor].
Qed.

Lemma pairReplay_indep (l l' : list (MapStreamer.MapStreamer V)) pairs r :
  schedule sched → Forall2 pairSameUpToParallel l l' →
  MapStreamer.replay sched l pairs = Ok r →
  MapStreamer.replay sched l' pairs = Ok r.
Proof.
  intros Hsched Hl. revert pairs.
  induction Hl as [|s s' l l' Hs _ IH]; intros pairs Hr; [done |].
  pose proof Hs as (_ & _ & Hs'). simpl in *.
  apply bind_Ok_inv in Hr as (d1 & Hd1 & Hr).
  assert (MapStreamer.filterFunc s' = MapStreamer.filterFunc s) as ->
    by (by rewrite Hs').
  assert (MapStreamer.flatMapFunc s' = MapStreamer.flatMapFunc s) as ->
    by (by rewrite Hs').
  assert (MapStreamer.mapFunc s' = MapStreamer.mapFunc s) as ->
    by (by rewrite Hs').
  assert (match MapStreamer.filterFunc s with
          | Some _ => MapStreamer.filter sched s' pairs
          | None => Ok pairs
          end = Ok d1) as ->.
  { destruct (MapStreamer.filterFunc s); [| done].
    by apply (pairFilter_indep sched s). }
  simpl. destruct (MapStreamer.flatMapFunc s).
  { by apply (pairFlatMap_indep sched s). }
  destruct (MapStreamer.mapFunc s).
  { by apply (pairMap_indep sched s). }
  by apply IH.
Qed.

Lemma pairScan_indep (h h' : list (MapStreamer.MapStreamer V)) p r :
  schedule sched → Forall2 pairSameUpToParallel h h' →
  MapStreamer.scan sched h p = Ok r → MapStreamer.scan sched h' p = Ok r.
Proof.
  intros Hsched Hh Hr. unfold MapStreamer.scan, MapStreamer.streamerList in *.
  apply bind_Ok_inv in Hr as (l & Hl & Hr).
  eapply chain_related in Hl as (l' & Hl' & Hll'); [| | exact Hh];
    [| by intros n n' (_ & _ & ->)].
  rewrite <- (Forall2_length _ _ _ Hh), Hl'. simpl.
  pose proof (Forall2_last _ _ _ Hll') as Hlast.
  destruct Hlast as [root root' Hroot|]; [| done].
  pose proof Hroot as (_ & _ & Hroot').
  assert (MapStreamer.pairData root' = MapStreamer.pairData root) as ->
    by (by rewrite Hroot').
  eapply pairReplay_indep; [done | | done]. by apply Forall2_rev.
Qed.
End ParallelismFacts.

Section ScanParallelism.
Context {V : Type} `{Countable V}.
Variable sched : nat → list nat.
Variable sort_Slice : list V → (V → V → outcome V bool) → outcome V (list V).
Implicit Types s : SliceStreamer.SliceStreamer V.
Implicit Types st : SliceStreamer.store V.
Implicit Types data : list V.

Lemma getData_indep st st' getter r :
  schedule sched → storeSameUpToParallel st st' →
  SliceStreamer.getData sched st getter = Ok r →
  SliceStreamer.getData sched st' getter = Ok r.
Proof.
  intros Hsched [_ Hmaps] Hr. destruct getter as [[d|p]|]; simpl in *; try done.
  by apply (pairScan_indep sched (SliceStreamer.maps st)).
Qed.

Lemma stage_indep st st' s s' data r :
  schedule sched → sameUpToParallel s s' →
  SliceStreamer.stage sched sort_Slice st s data = Ok r →
  SliceStreamer.stage sched sort_Slice st' s' data = Ok r.
Proof.
  intros Hsched Hs Hr. pose proof Hs as (_ & _ & Hs').
  unfold SliceStreamer.stage in *.
  apply bind_Ok_inv in Hr as (d1 & Hd1 & Hr).
  apply bind_Ok_inv in Hr as (d2 & Hd2 & Hr).
  apply bind_Ok_inv in Hr as (d3 & Hd3 & Hr).
  assert (SliceStreamer.filterFunc s' = SliceStreamer.filterFunc s) as ->
    by (by rewrite Hs').
  assert (SliceStreamer.flatMapFunc s' = SliceStreamer.flatMapFunc s) as ->
    by (by rewrite Hs').
  assert (SliceStreamer.mapFunc s' = SliceStreamer.mapFunc s) as ->
    by (by rewrite Hs').
  assert (SliceStreamer.sortFunc s' = SliceStreamer.sortFunc s) as ->
    by (by rewrite Hs').
  assert (match SliceStreamer.filterFunc s with
          | Some _ => SliceStreamer.filter sched s' data
          | None => Ok data
          end = Ok d1) as ->.
  { destruct (SliceStreamer.filterFunc s); [| done].
    by apply (filter_indep sched s). }
  simpl.
  assert (match SliceStreamer.flatMapFunc s with
          | Some _ => SliceStreamer.flatMap sched st' s' d1
          | None => Ok d1
          end = Ok d2) as ->.
  { destruct (SliceStreamer.flatMapFunc s) as [f|] eqn:Hf; [| done].
    by apply (flatMap_indep sched st st' s s' d1 f). }
  simpl.
  assert (match SliceStreamer.mapFunc s with
          | Some _ => SliceStreamer._map sched s' d2
          | None => Ok d2
          end = Ok d3) as ->.
  { destruct (SliceStreamer.mapFunc s); [| done].
    by apply (map_indep sched s). }
  done.
Qed.

Lemma replay_indep st st' (l l' : list (SliceStreamer.SliceStreamer V)) data r :
  schedule sched → Forall2 sameUpToParallel l l' →
  SliceStreamer.replay sched sort_Slice st l data = Ok r →
  SliceStreamer.replay sched sort_Slice st' l' data = Ok r.
Proof.
  intros Hsched Hl. revert data.
  induction Hl as [|s s' l l' Hs _ IH]; intros data Hr; [done |].
  simpl in *. apply bind_Ok_inv in Hr as (d & Hd & Hr).
  rewrite (stage_indep st st' s s' data d Hsched Hs Hd). simpl. by apply IH.
Qed.

Lemma window_indep s s' data :
  sameUpToParallel s s' →
  SliceStreamer.window s' data = SliceStreamer.window s data.
Proof. intros (_ & _ & ->). done. Qed.

(** A terminal evaluation does not depend on the degrees of parallelism
    configured anywhere in the store. *)
Lemma scan_indep st st' p r :
  schedule sched → storeSameUpToParallel st st' →
  SliceStreamer.scan sched sort_Slice st p = Ok r →
  SliceStreamer.scan sched sort_Slice st' p = Ok r.
Proof.
  intros Hsched Hst Hr. pose proof Hst as [Hslices _].
  unfold SliceStreamer.scan, SliceStreamer.streamerList in *.
  apply bind_Ok_inv in Hr as (l & Hl & Hr).
  eapply chain_related in Hl as (l' & Hl' & Hll'); [| | exact Hslices];
    [| by intros n n' (_ & _ & ->)].
  rewrite <- (Forall2_length _ _ _ Hslices), Hl'. simpl.
  pose proof (Forall2_last _ _ _ Hll') as Hlast.
  destruct Hll' as [|leaf leaf' l l' Hleaf Hll']; [done |].
  destruct Hlast as [root root' Hroot|]; [| done].
  pose proof Hroot as (_ & _ & Hroot').
  assert (SliceStreamer.dataGetter root' = SliceStreamer.dataGetter root) as ->
    by (by rewrite Hroot').
  apply bind_Ok_inv in Hr as (d & Hd & Hr).
  apply bind_Ok_inv in Hr as (d' & Hd' & Hr).
  rewrite (getData_indep st st' _ d Hsched Hst Hd). simpl.
  change (rev l' ++ [leaf']) with (rev (leaf' :: l')).
  rewrite (replay_indep st st' (rev (leaf :: l)) (rev (leaf' :: l')) d d');
    [| done | apply Forall2_rev; by constructor | done].
  simpl. by rewrite (window_indep leaf leaf').
Qed.

Lemma storeSameUpToParallel_sym st st' :
  storeSameUpToParallel st st' → storeSameUpToParallel st' st.
Proof.
  intros [Hs Hm]. split.
  - apply Forall2_flip. eapply Forall2_impl; [exact Hs |].
    intros s s'. apply sameUpToParallel_sym.
  - apply Forall2_flip. eapply Forall2_impl; [exact Hm |].
    intros s s'. apply pairSameUpToParallel_sym.
Qed.

End ScanParallelism.

Section SameResult.
Context {V T : Type}.
Implicit Types m : outcome V T.

Lemma sameResult_intro m m' :
  (∀ r, m = Ok r → m' = Ok r) → (∀ r, m' = Ok r → m = Ok r) →
  sameResult m m'.
Proof.
  intros H1 H2. destruct m as [r|p], m' as [r'|p']; simpl; try done.
  - specialize (H1 r eq_refl). congruence.
  - specialize (H1 r eq_refl). congruence.
  - specialize (H2 r' eq_refl). congruence.
Qed.

End SameResult.



(** ** The window of [scan] *)

Section WindowFacts.
Context {V : Type}.
Implicit Types leaf : SliceStreamer.SliceStreamer V.
Implicit Types newData : list V.

(** An offset inside the data: the window starts there. *)
Lemma window_inside leaf newData :
  0 ≤ SliceStreamer.offset leaf < Z.of_nat (length newData) →
  0 ≤ SliceStreamer.limit leaf →
  SliceStreamer.window leaf newData =
  Ok (let rest := drop (Z.to_nat (SliceStreamer.offset leaf)) newData in
      if SliceStreamer.limit leaf =? 0 then rest
      else take (Z.to_nat (SliceStreamer.limit leaf)) rest).
Proof.
  intros Ho Hl. unfold SliceStreamer.window, SliceStreamer.reslice, slice.
  set (n := Z.of_nat (length newData)) in *.
  set (o := SliceStreamer.offset leaf) in *.
  set (l := SliceStreamer.limit leaf) in *.
  destruct (Z.ltb_spec o n); [| lia].
  destruct (Z.ltb_spec 0 l), (Z.ltb_spec l (n - o)), (Z.eqb_spec l 0);
    simpl; try lia.
  all: destruct (Z.leb_spec 0 o); [| lia]; simpl.
  - destruct (Z.leb_spec o (o + l)), (Z.leb_spec (o + l) n); try lia. simpl.
    do 2 f_equal. lia.
  - destruct (Z.leb_spec o (o + (n - o))), (Z.leb_spec (o + (n - o)) n);
      try lia. simpl. f_equal.
    rewrite !take_ge; [done | | ]; rewrite length_drop; lia.
  - destruct (Z.leb_spec o (o + (n - o))), (Z.leb_spec (o + (n - o)) n);
      try lia. simpl. f_equal. apply take_ge. rewrite length_drop. lia.
Qed.

(** An offset at or beyond the end of the data is replaced by 0: the
    window starts at the first element. *)
Lemma window_beyond leaf newData :
  Z.of_nat (length newData) ≤ SliceStreamer.offset leaf →
  0 ≤ SliceStreamer.limit leaf →
  SliceStreamer.window leaf newData =
  Ok (if SliceStreamer.limit leaf =? 0 then newData
      else take (Z.to_nat (SliceStreamer.limit leaf)) newData).
Proof.
  intros Ho Hl. unfold SliceStreamer.window, SliceStreamer.reslice, slice.
  set (n := Z.of_nat (length newData)) in *.
  set (o := SliceStreamer.offset leaf) in *.
  set (l := SliceStreamer.limit leaf) in *.
  destruct (Z.ltb_spec o n); [lia |].
  destruct (Z.ltb_spec 0 l), (Z.ltb_spec l (n - 0)), (Z.eqb_spec l 0);
    simpl; try lia.
  all: repeat match goal with
              | |- context [Z.leb ?a ?b] => destruct (Z.leb_spec a b); try lia
              end.
  all: simpl; f_equal; change (Z.to_nat 0) with 0%nat; rewrite drop_0.
  all: rewrite ?take_ge by lia; try done.
  f_equal. lia.
Qed.
End WindowFacts.

Section ScanWindow.
Context {V : Type} `{Countable V}.
Variable sched : nat → list nat.
Variable sort_Slice : list V → (V → V → outcome V bool) → outcome V (list V).

(** [scan] is the window of the leaf over the sequence the stages of the
    chain produce, root first; of the window, only the leaf is read. *)
Lemma scan_window (st : SliceStreamer.store V) streamer leaf l root data newData :
  SliceStreamer.streamerList st streamer = Ok (leaf :: l) →
  last (leaf :: l) = Some root →
  SliceStreamer.getData sched st (SliceStreamer.dataGetter root) = Ok data →
  SliceStreamer.replay sched sort_Slice st (rev (leaf :: l)) data = Ok newData →
  SliceStreamer.scan sched sort_Slice st streamer
  = SliceStreamer.window leaf newData.
Proof.
  intros Hl Hroot Hdata Hreplay. unfold SliceStreamer.scan.
  rewrite Hl. cbn [bind]. rewrite Hroot, Hdata. cbn [bind].
  by rewrite Hreplay.
Qed.

Lemma replay_app (st : SliceStreamer.store V) l1 l2 data :
  SliceStreamer.replay sched sort_Slice st (l1 ++ l2) data
  = (d ⇐ SliceStreamer.replay sched sort_Slice st l1 data ;;
     SliceStreamer.replay sched sort_Slice st l2 d).
Proof.
  revert data. induction l1 as [|s l1 IH]; intros data; [done |]. simpl.
  destruct (SliceStreamer.stage sched sort_Slice st s data); simpl;
    [apply IH | done].
Qed.

End ScanWindow.

(** C1. [OfSlice([1..7]).Offset(9)]: the offset 9 is not below the length 7,
    so [scan] falls back to offset 0 and returns all seven elements, where a
    window starting at [min(9, 7)] is empty. *)
Theorem C1_offset_beyond_length_returns_all
    (sched : nat → list nat)
    (sort_Slice : list Z → (Z → Z → outcome Z bool) → outcome Z (list Z)) :
  SliceStreamer.Offset Fixture.source 0%nat 9
  = Ok (Fixture.after (SliceStreamer.Offset Fixture.source 0%nat 9), 1%nat)
  ∧ SliceStreamer.scan sched sort_Slice
      (Fixture.after (SliceStreamer.Offset Fixture.source 0%nat 9)) 1%nat
    = Ok [1; 2; 3; 4; 5; 6; 7].
Proof. split; reflexivity. Qed.

(** ** Picking one element *)

Section IndexFacts.
Context {V : Type}.
Implicit Types scanResult : list V.

Lemma indexAt_found index scanResult val x :
  0 ≤ index → scanResult !! Z.to_nat index = Some x →
  SliceStreamer.indexAt index scanResult val = (x, Ok true).
Proof.
  intros Hi Hx. unfold SliceStreamer.indexAt, SliceStreamer.at_.
  apply lookup_lt_Some in Hx as Hlt.
  destruct (Z.leb_spec (Z.of_nat (length scanResult)) index); [lia |].
  destruct (Z.ltb_spec index 0); [lia |]. by rewrite Hx.
Qed.

Lemma indexAt_beyond index scanResult val :
  Z.of_nat (length scanResult) ≤ index →
  SliceStreamer.indexAt index scanResult val = (val, Ok false).
Proof.
  intros Hi. unfold SliceStreamer.indexAt.
  by destruct (Z.leb_spec (Z.of_nat (length scanResult)) index); [| lia].
Qed.

(** A negative index passes the length test and reaches the index
    expression. *)
Lemma indexAt_negative index scanResult val :
  index < 0 →
  SliceStreamer.indexAt index scanResult val
  = (val, Panic (Runtime IndexOutOfRange)).
Proof.
  intros Hi. unfold SliceStreamer.indexAt, SliceStreamer.at_.
  destruct (Z.leb_spec (Z.of_nat (length scanResult)) index); [lia |].
  by destruct (Z.ltb_spec index 0); [| lia].
Qed.
End IndexFacts.

Section PickFacts.
Context {V : Type} `{Countable V}.
Variable sched : nat → list nat.
Variable sort_Slice : list V → (V → V → outcome V bool) → outcome V (list V).
Implicit Types st : SliceStreamer.store V.

Lemma First_spec st streamer result scanResult :
  SliceStreamer.scan sched sort_Slice st streamer = Ok scanResult →
  SliceStreamer.First sched sort_Slice st streamer result =
  match scanResult with
  | [] => (result, Ok false)
  | x :: _ => (x, Ok true)
  end.
Proof.
  intros Hscan. unfold SliceStreamer.First. rewrite Hscan.
  destruct scanResult as [|x l]; [by apply indexAt_beyond |].
  by apply indexAt_found.
Qed.

Lemma IndexAt_spec st streamer index result scanResult :
  SliceStreamer.scan sched sort_Slice st streamer = Ok scanResult →
  0 ≤ index →
  SliceStreamer.IndexAt sched sort_Slice st streamer index result =
  match scanResult !! Z.to_nat index with
  | Some x => (x, Ok true)
  | None => (result, Ok false)
  end.
Proof.
  intros Hscan Hi. unfold SliceStreamer.IndexAt. rewrite Hscan.
  destruct (scanResult !! Z.to_nat index) as [x|] eqn:Hx.
  - by apply indexAt_found.
  - apply lookup_ge_None in Hx. apply indexAt_beyond. lia.
Qed.

Lemma Last_spec st streamer result scanResult :
  SliceStreamer.scan sched sort_Slice st streamer = Ok scanResult →
  SliceStreamer.Last sched sort_Slice st streamer result =
  match last scanResult with
  | Some x => (x, Ok true)
  | None => (result, Panic (Runtime IndexOutOfRange))
  end.
Proof.
  intros Hscan. unfold SliceStreamer.Last. rewrite Hscan.
  destruct (last scanResult) as [x|] eqn:Hx.
  - rewrite last_lookup in Hx. apply lookup_lt_Some in Hx as Hlt.
    apply indexAt_found; [lia |].
    by replace (Z.to_nat (Z.of_nat (length scanResult) - 1))
      with (pred (length scanResult)) by lia.
  - apply last_None in Hx as ->. by apply indexAt_negative.
Qed.
End PickFacts.

(** C5. [Last] on a pipeline that evaluates to the empty sequence, here
    [OfSlice([]int{})]: the index is [-1], which passes the test
    [len(scanResult) <= index]; the call panics with an index out of range
    and returns no indicator, where [First] on the same pipeline returns
    false. *)
Theorem C5_Last_on_empty_panics
    (sched : nat → list nat)
    (sort_Slice : list Z → (Z → Z → outcome Z bool) → outcome Z (list Z))
    (result : Z) :
  SliceStreamer.scan sched sort_Slice
    (fst (SliceStreamer.OfSlice Fixture.empty [])) 0%nat = Ok []
  ∧ SliceStreamer.Last sched sort_Slice
      (fst (SliceStreamer.OfSlice Fixture.empty [])) 0%nat result
    = (result, Panic (Runtime IndexOutOfRange))
  ∧ SliceStreamer.First sched sort_Slice
      (fst (SliceStreamer.OfSlice Fixture.empty [])) 0%nat result
    = (result, Ok false).
Proof. repeat split; reflexivity. Qed.

(** ** [toMap]: the last element of each key wins *)

(** ** The stores into [resultCollection] *)

Section RaceFacts.
Context {V : Type}.
Variable race : nat → mapWrites.

Lemma collected_cons {T} (kept : nat → bool) (m : option T) ms :
  SliceStreamer.collected kept (m :: ms)
  = (if kept 0%nat then m else None) :: SliceStreamer.collected (kept ∘ S) ms.
Proof. done. Qed.

Lemma kept_cons {A} (kept : nat → bool) (b : list A) bs :
  imap (λ i b, if kept i then b else []) (b :: bs)
  = (if kept 0%nat then b else [])
      :: imap (λ i b, if (kept ∘ S) i then b else []) bs.
Proof. done. Qed.

Lemma stores_undetected k :
  undetected race k → ∃ kept, SliceStreamer.stores race k = Some kept.
Proof.
  unfold SliceStreamer.stores. intros [Hone|(kept & Hkept)].
  - destruct (Z.leb_spec k 1); [by eauto | lia].
  - destruct (Z.leb_spec k 1); [by eauto |]. rewrite Hkept. by eauto.
Qed.

Lemma stores_landed k :
  landed race k →
  ∃ kept, SliceStreamer.stores race k = Some kept
          ∧ ∀ i, (i < Z.to_nat k)%nat → kept i = true.
Proof.
  unfold SliceStreamer.stores. intros [Hone|(kept & Hkept & Hall)].
  - destruct (Z.leb_spec k 1); [by eauto | lia].
  - destruct (Z.leb_spec k 1); [by eauto |]. rewrite Hkept. by eauto.
Qed.

Lemma stores_Stored k kept :
  2 ≤ k → race (Z.to_nat k) = Stored kept →
  SliceStreamer.stores race k = Some kept.
Proof.
  intros Hk Hkept. unfold SliceStreamer.stores.
  destruct (Z.leb_spec k 1); [lia |]. by rewrite Hkept.
Qed.

Lemma stores_noticed k :
  2 ≤ k → race (Z.to_nat k) = ConcurrentWrites →
  SliceStreamer.stores race k = None.
Proof.
  intros Hk Hrace. unfold SliceStreamer.stores.
  destruct (Z.leb_spec k 1); [lia |]. by rewrite Hrace.
Qed.

Lemma kept_all {A} (kept : nat → bool) (bs : list (list A)) :
  (∀ i, (i < length bs)%nat → kept i = true) →
  imap (λ i b, if kept i then b else []) bs = bs.
Proof.
  revert kept. induction bs as [|b bs IH]; intros kept Hall; [done |].
  rewrite kept_cons, (Hall 0%nat) by (simpl; lia). f_equal.
  apply IH. intros i Hi. apply (Hall (S i)). simpl. lia.
Qed.

Lemma kept_sublist {A} (kept : nat → bool) (bs : list (list A)) :
  concat (imap (λ i b, if kept i then b else []) bs) `sublist_of` concat bs.
Proof.
  revert kept. induction bs as [|b bs IH]; intros kept; [done |].
  rewrite kept_cons. cbn [concat]. apply sublist_app; [| apply IH].
  destruct (kept 0%nat); [done | apply sublist_nil_l].
Qed.

Lemma keptData_all kept (data : list V) k :
  1 ≤ k → (∀ i, (i < Z.to_nat k)%nat → kept i = true) →
  keptData kept data k = data.
Proof.
  intros Hk Hall. unfold keptData.
  rewrite kept_all by (rewrite length_batches; exact Hall).
  by apply batches_concat.
Qed.

Lemma keptData_sublist kept (data : list V) k :
  1 ≤ k → keptData kept data k `sublist_of` data.
Proof.
  intros Hk. unfold keptData.
  rewrite <- (batches_concat data k Hk) at 2. apply kept_sublist.
Qed.
End RaceFacts.

Section ToMapFacts.
Context {V : Type} `{Countable V}.
Variable sched : nat → list nat.
Variable race : nat → mapWrites.
Variable key : V → V.
Implicit Types data batch : list V.
Implicit Types val : gmap V V.

Lemma lastWith_app k l1 l2 :
  lastWith key k (l1 ++ l2) =
  match lastWith key k l2 with
  | Some x => Some x
  | None => lastWith key k l1
  end.
Proof.
  unfold lastWith, group. rewrite filter_app, last_app.
  by destruct (last (filter _ l2)).
Qed.

Lemma lastWith_cons_snoc k l x :
  lastWith key k (l ++ [x]) = if decide (key x = k) then Some x else lastWith key k l.
Proof.
  rewrite lastWith_app. unfold lastWith at 1, group.
  rewrite filter_cons, filter_nil. by destruct (decide (key x = k)).
Qed.

(** The element at the highest index among those with its key is the
    last one with that key. *)
Lemma lastWith_highest data i x :
  data !! i = Some x →
  (∀ j y, (i < j)%nat → data !! j = Some y → key y ≠ key x) →
  lastWith key (key x) data = Some x.
Proof.
  revert i x. induction data as [|z l IH] using rev_ind; intros i x Hi Hlater;
    [done |].
  rewrite lastWith_cons_snoc.
  destruct (decide (i = length l)) as [->|Hne].
  - rewrite lookup_app_r, Nat.sub_diag in Hi by lia. injection Hi as ->.
    by rewrite decide_True.
  - assert (i < length l)%nat as Hlt.
    { apply lookup_lt_Some in Hi. rewrite length_app in Hi. simpl in Hi. lia. }
    rewrite lookup_app_l in Hi by done.
    rewrite decide_False.
    + apply (IH i); [done |]. intros j y Hj Hy.
      apply (Hlater j); [done |]. rewrite lookup_app_l; [done |].
      by apply lookup_lt_Some in Hy.
    + apply (Hlater (length l)); [done |].
      by rewrite lookup_app_r, Nat.sub_diag by lia.
Qed.

Lemma lastWith_None k data :
  (∀ x, x ∈ data → key x ≠ k) → lastWith key k data = None.
Proof.
  intros Hno. unfold lastWith, group. apply last_None.
  induction data as [|x l IH]; [done |].
  rewrite filter_cons, decide_False by (apply Hno; left).
  apply IH. intros y Hy. apply Hno. by right.
Qed.

Lemma toMapWorker_lookup batch (m : gmap V V) :
  ∃ m', SliceStreamer.toMapWorker (pureKeyer key) batch m = Ok m'
        ∧ ∀ k, m' !! k = match lastWith key k batch with
                         | Some x => Some x
                         | None => m !! k
                         end.
Proof.
  revert m. induction batch as [|x batch IH]; intros m; simpl.
  - by exists m.
  - destruct (IH (<[key x := x]> m)) as (m' & -> & Hm'). exists m'.
    split; [done |]. intros k. rewrite Hm'.
    change (x :: batch) with ([x] ++ batch). rewrite lastWith_app.
    destruct (lastWith key k batch); [done |].
    unfold lastWith, group. rewrite filter_cons, filter_nil.
    destruct (decide (key x = k)) as [<-|Hne]; simpl.
    + by rewrite lookup_insert_eq.
    + by rewrite lookup_insert_ne.
Qed.

Lemma mergeEntries_lookup (goroutineMap val : gmap V V) k :
  SliceStreamer.mergeEntries goroutineMap val !! k =
  match goroutineMap !! k with
  | Some v => Some v
  | None => val !! k
  end.
Proof.
  unfold SliceStreamer.mergeEntries. revert k.
  apply (map_fold_weak_ind
           (λ r m, ∀ k, r !! k = match m !! k with
                                 | Some v => Some v
                                 | None => val !! k
                                 end)).
  - intros k. by rewrite lookup_empty.
  - intros i x m r Hi IH k. destruct (decide (i = k)) as [->|Hne].
    + by rewrite !lookup_insert_eq.
    + by rewrite !lookup_insert_ne, IH by done.
Qed.

(** Merging the maps of the goroutines in ascending index order, the map
    of a goroutine whose store is missing counting as empty. *)
Lemma toMap_merge (bs : list (list V)) (ms : list (gmap V V)) kept val k :
  Forall2 (λ b m, SliceStreamer.toMapWorker (pureKeyer key) b ∅ = Ok m) bs ms →
  fold_left (λ val goroutineMap,
               SliceStreamer.mergeEntries (default ∅ goroutineMap) val)
            (SliceStreamer.collected kept (map Some ms)) val !! k
  = match lastWith key k (concat (imap (λ i b, if kept i then b else []) bs)) with
    | Some x => Some x
    | None => val !! k
    end.
Proof.
  intros Hall. revert kept val.
  induction Hall as [|b m bs ms Hb _ IH]; intros kept val; [done |].
  cbn [map]. rewrite collected_cons, kept_cons. cbn [fold_left concat].
  rewrite IH, lastWith_app.
  destruct (lastWith key k (concat (imap _ bs))); [done |].
  rewrite mergeEntries_lookup. destruct (kept 0%nat); simpl.
  - destruct (toMapWorker_lookup b ∅) as (m' & Hm' & Hlook).
    assert (m' = m) as -> by congruence.
    rewrite Hlook, lookup_empty. by destruct (lastWith key k b).
  - by rewrite lookup_empty.
Qed.

(** [toMap] when the run time lets the stores into [resultCollection]
    pass: the destination gets the elements of the batches whose store is
    in the map. *)
Lemma toMap_kept s data val kept :
  1 ≤ SliceStreamer.parallel s →
  SliceStreamer.stores race (SliceStreamer.parallel s) = Some kept →
  ∃ val', SliceStreamer.toMap sched race s (pureKeyer key) data val = (val', Ok ())
          ∧ ∀ k, val' !! k
                 = match lastWith key k
                           (keptData kept data (SliceStreamer.parallel s)) with
                   | Some x => Some x
                   | None => val !! k
                   end.
Proof.
  intros Hk Hstores. unfold SliceStreamer.toMap. rewrite Hstores.
  destruct (outcomes_cases
              (λ batch, SliceStreamer.toMapWorker (pureKeyer key) batch ∅)
              (batches data (SliceStreamer.parallel s))) as [[ms Hms]|Hex].
  - rewrite (forkJoin_Ok sched _ data _ ms Hk Hms).
    eexists. split; [done |]. intros k.
    by rewrite (toMap_merge _ ms kept val k Hms).
  - apply Exists_exists in Hex as (b & _ & p & Hp).
    destruct (toMapWorker_lookup b ∅) as (m' & Hm' & _). congruence.
Qed.

Lemma toMap_lookup s data val :
  1 ≤ SliceStreamer.parallel s →
  landed race (SliceStreamer.parallel s) →
  ∃ val', SliceStreamer.toMap sched race s (pureKeyer key) data val = (val', Ok ())
          ∧ ∀ k, val' !! k = match lastWith key k data with
                              | Some x => Some x
                              | None => val !! k
                              end.
Proof.
  intros Hk (kept & Hstores & Hall)%stores_landed.
  destruct (toMap_kept s data val kept Hk Hstores) as (val' & Hrun & Hlook).
  exists val'. split; [done |]. intros k.
  by rewrite Hlook, keptData_all.
Qed.
End ToMapFacts.

(** C7. [toMap] with a key extractor that never panics. When the store of
    every goroutine is in [resultCollection], as it is with one goroutine,
    each key is left with the element of the evaluated sequence that has the
    highest index among the elements with that key, and keys no element has
    keep what the destination held. With two or more goroutines the stores
    are concurrent writes to one map: when the run time notices them the
    call ends in its fatal error and the destination is as it was; when
    stores are lost the call returns and the elements of the batches whose
    store is missing are not in the destination. *)
Theorem C7_toMap_with_racing_stores {V : Type} `{Countable V}
    (sched : nat → list nat) (race : nat → mapWrites)
    (s : SliceStreamer.SliceStreamer V)
    (key : V → V) (scanResult : list V) (val : gmap V V) :
  1 ≤ SliceStreamer.parallel s →
  (landed race (SliceStreamer.parallel s) →
   ∃ val',
     SliceStreamer.toMap sched race s (pureKeyer key) scanResult val
     = (val', Ok ())
     ∧ (∀ i x, scanResult !! i = Some x →
               (∀ j y, (i < j)%nat → scanResult !! j = Some y → key y ≠ key x) →
               val' !! key x = Some x)
     ∧ (∀ x, x ∈ scanResult →
             ∃ i y, scanResult !! i = Some y ∧ key y = key x
                    ∧ (∀ j z, (i < j)%nat → scanResult !! j = Some z → key z ≠ key x)
                    ∧ val' !! key x = Some y)
     ∧ (∀ k, (∀ x, x ∈ scanResult → key x ≠ k) → val' !! k = val !! k))
  ∧ (2 ≤ SliceStreamer.parallel s →
     race (Z.to_nat (SliceStreamer.parallel s)) = ConcurrentWrites →
     SliceStreamer.toMap sched race s (pureKeyer key) scanResult val
     = (val, Panic (Runtime ConcurrentMapWrites)))
  ∧ (2 ≤ SliceStreamer.parallel s →
     ∀ kept,
       race (Z.to_nat (SliceStreamer.parallel s)) = Stored kept →
       ∃ val',
         SliceStreamer.toMap sched race s (pureKeyer key) scanResult val
         = (val', Ok ())
         ∧ ∀ k, val' !! k
                = match lastWith key k
                          (keptData kept scanResult (SliceStreamer.parallel s)) with
                  | Some x => Some x
                  | None => val !! k
                  end).
Proof.
  intros Hk. split; [| split].
  - intros Hlanded.
    destruct (toMap_lookup sched race key s scanResult val Hk Hlanded)
      as (val' & Hrun & Hlook).
    {
  exists val'. split; [done |]. split; [| split].
      - intros i x Hi Hlater. by rewrite Hlook, (lastWith_highest key scanResult i x).
      - intros x Hx. rewrite Hlook.
        destruct (lastWith key (key x) scanResult) as [y|] eqn:Hy.
        + unfold lastWith, group in Hy. apply last_Some in Hy as [g Hg].
          assert (y ∈ filter (λ z, key z = key x) scanResult) as Hin
            by (rewrite Hg; apply elem_of_app; right; by left).
          apply list_elem_of_filter in Hin as [Hkey Hin].
          (* the position of the last element of the group *)
          assert (∃ l1 l2, scanResult = l1 ++ y :: l2
                           ∧ filter (λ z, key z = key x) l2 = []) as (l1 & l2 & -> & Hl2).
          { clear Hin Hx Hlook Hrun. revert g Hg.
            induction scanResult as [|z l IH] using rev_ind; intros g Hg.
            - by destruct g.
            - rewrite filter_app, filter_cons, filter_nil in Hg.
              destruct (decide (key z = key x)) as [Hz|Hz].
              + apply app_inj_tail in Hg as [_ ->]. by exists l, [].
              + rewrite app_nil_r in Hg. destruct (IH g Hg) as (l1 & l2 & -> & Hl2).
                exists l1, (l2 ++ [z]). split; [by rewrite <- app_assoc |].
                by rewrite filter_app, Hl2, filter_cons, decide_False. }
          exists (length l1), y. split; [| split; [done | split; [| done]]].
          * by rewrite lookup_app_r, Nat.sub_diag by lia.
          * intros j z Hj Hz Hkz.
            rewrite lookup_app_r in Hz by lia.
            destruct (j - length l1)%nat as [|j'] eqn:Hj'; [lia |]. simpl in Hz.
            apply list_elem_of_lookup_2 in Hz.
            assert (z ∈ filter (λ z, key z = key x) l2) as Hzin
              by (by apply list_elem_of_filter).
            rewrite Hl2 in Hzin. by apply elem_of_nil in Hzin.
        + unfold lastWith, group in Hy. apply last_None in Hy.
          assert (x ∈ filter (λ z, key z = key x) scanResult) as Hin
            by (by apply list_elem_of_filter).
          rewrite Hy in Hin. by apply elem_of_nil in Hin.
      - intros k Hno. by rewrite Hlook, lastWith_None.
    }
  - intros H2 Hrace. unfold SliceStreamer.toMap.
    by rewrite (stores_noticed race _ H2 Hrace).
  - intros H2 kept Hrace.
    by apply toMap_kept, stores_Stored.
Qed.

(** [OfSlice([1..7])...Parallel(2).ToMap(identity, &m)] when the store of
    the second goroutine is lost: the call returns, and the elements 4 to 7
    of the second batch are missing from [m]. *)
Lemma C7_toMap_with_racing_stores_witness :
  ∃ val',
    SliceStreamer.toMap Fixture.inOrder (Fixture.losing 1)
      (withParallel 2 Fixture.filterStage)
      (pureKeyer (λ x, x)) [1; 2; 3; 4; 5; 6; 7] ∅ = (val', Ok ())
    ∧ val' !! 3 = Some 3
    ∧ val' !! 7 = None.
Proof.
  destruct (C7_toMap_with_racing_stores Fixture.inOrder (Fixture.losing 1)
              (withParallel 2 Fixture.filterStage) (λ x, x)
              [1; 2; 3; 4; 5; 6; 7] ∅ ltac:(simpl; lia))
    as (_ & _ & Hlost).
  destruct (Hlost ltac:(simpl; lia) _ eq_refl) as (val' & Hrun & Hlook).
  exists val'. split; [done |]. by rewrite !Hlook.
Defined.

(** ** [groupBy]: every element in the group of its key, in order *)

Section GroupByFacts.
Context {V : Type} `{Countable V}.
Variable sched : nat → list nat.
Variable race : nat → mapWrites.
Variable key : V → V.
Implicit Types data batch : list V.
Implicit Types val : gmap V (list V).

Lemma group_cons k x l :
  group key k (x :: l) = if decide (key x = k) then x :: group key k l else group key k l.
Proof. unfold group. by rewrite filter_cons. Qed.

Lemma group_app k l1 l2 : group key k (l1 ++ l2) = group key k l1 ++ group key k l2.
Proof. apply filter_app. Qed.

Lemma extend_app (o : option (list V)) g1 g2 :
  extend (extend o g1) g2 = extend o (g1 ++ g2).
Proof.
  destruct g1 as [|x g1]; [done |]. destruct g2 as [|y g2]; simpl.
  - by rewrite app_nil_r.
  - by rewrite <- app_assoc.
Qed.

Lemma groupByWorker_lookup batch (m : gmap V (list V)) :
  ∃ m', SliceStreamer.groupByWorker (pureKeyer key) batch m = Ok m'
        ∧ ∀ k, m' !! k = extend (m !! k) (group key k batch).
Proof.
  revert m. induction batch as [|x batch IH]; intros m; simpl.
  - by exists m.
  - destruct (IH (<[key x := default [] (m !! key x) ++ [x]]> m))
      as (m' & -> & Hm'). exists m'.
    split; [done |]. intros k. rewrite Hm', group_cons.
    destruct (decide (key x = k)) as [<-|Hne].
    + rewrite lookup_insert_eq.
      change (x :: group key (key x) batch) with ([x] ++ group key (key x) batch).
      by rewrite <- extend_app.
    + by rewrite lookup_insert_ne.
Qed.

Lemma mergeGroups_lookup (goroutineMap val : gmap V (list V)) k :
  SliceStreamer.mergeGroups goroutineMap val !! k =
  match goroutineMap !! k with
  | Some v => Some (default [] (val !! k) ++ v)
  | None => val !! k
  end.
Proof.
  unfold SliceStreamer.mergeGroups. revert k.
  apply (map_fold_weak_ind
           (λ r m, ∀ k, r !! k = match m !! k with
                                 | Some v => Some (default [] (val !! k) ++ v)
                                 | None => val !! k
                                 end)).
  - intros k. by rewrite lookup_empty.
  - intros i x m r Hi IH k. destruct (decide (i = k)) as [->|Hne].
    + by rewrite !lookup_insert_eq, IH, Hi.
    + by rewrite !lookup_insert_ne, IH by done.
Qed.

Lemma groupBy_merge (bs : list (list V)) (ms : list (gmap V (list V)))
    kept val k :
  Forall2 (λ b m, SliceStreamer.groupByWorker (pureKeyer key) b ∅ = Ok m) bs ms →
  fold_left (λ val goroutineMap,
               SliceStreamer.mergeGroups (default ∅ goroutineMap) val)
            (SliceStreamer.collected kept (map Some ms)) val !! k
  = extend (val !! k)
      (group key k (concat (imap (λ i b, if kept i then b else []) bs))).
Proof.
  intros Hall. revert kept val.
  induction Hall as [|b m bs ms Hb _ IH]; intros kept val; [done |].
  cbn [map]. rewrite collected_cons, kept_cons. cbn [fold_left concat].
  rewrite IH, group_app, <- extend_app. f_equal.
  rewrite mergeGroups_lookup. destruct (kept 0%nat); simpl.
  - destruct (groupByWorker_lookup b ∅) as (m' & Hm' & Hlook).
    assert (m' = m) as -> by congruence.
    rewrite Hlook, lookup_empty. by destruct (group key k b).
  - by rewrite lookup_empty.
Qed.

(** [groupBy] when the run time lets the stores into [resultCollection]
    pass: the destination gets the elements of the batches whose store is
    in the map. *)
Lemma groupBy_kept s data val kept :
  1 ≤ SliceStreamer.parallel s →
  SliceStreamer.stores race (SliceStreamer.parallel s) = Some kept →
  ∃ val', SliceStreamer.groupBy sched race s (pureKeyer key) data val
          = (val', Ok ())
          ∧ ∀ k, val' !! k
                 = extend (val !! k)
                     (group key k (keptData kept data (SliceStreamer.parallel s))).
Proof.
  intros Hk Hstores. unfold SliceStreamer.groupBy. rewrite Hstores.
  destruct (outcomes_cases
              (λ batch, SliceStreamer.groupByWorker (pureKeyer key) batch ∅)
              (batches data (SliceStreamer.parallel s))) as [[ms Hms]|Hex].
  - rewrite (forkJoin_Ok sched _ data _ ms Hk Hms).
    eexists. split; [done |]. intros k.
    by rewrite (groupBy_merge _ ms kept val k Hms).
  - apply Exists_exists in Hex as (b & _ & p & Hp).
    destruct (groupByWorker_lookup b ∅) as (m' & Hm' & _). congruence.
Qed.

Lemma groupBy_lookup s data val :
  1 ≤ SliceStreamer.parallel s →
  landed race (SliceStreamer.parallel s) →
  ∃ val', SliceStreamer.groupBy sched race s (pureKeyer key) data val
          = (val', Ok ())
          ∧ ∀ k, val' !! k = extend (val !! k) (group key k data).
Proof.
  intros Hk (kept & Hstores & Hall)%stores_landed.
  destruct (groupBy_kept s data val kept Hk Hstores) as (val' & Hrun & Hlook).
  exists val'. split; [done |]. intros k.
  by rewrite Hlook, keptData_all.
Qed.

(** Appending one element to the list of its key adds exactly that
    element to the members. *)
Lemma members_insert_snoc (m : gmap V (list V)) k x :
  members (<[k := default [] (m !! k) ++ [x]]> m) ≡ₚ x :: members m.
Proof.
  unfold members. destruct (m !! k) as [old|] eqn:Hk; simpl.
  - rewrite <- (insert_delete_eq m).
    rewrite map_to_list_insert by apply lookup_delete_eq.
    rewrite <- (map_to_list_delete m k old Hk). simpl.
    rewrite <- app_assoc. simpl. symmetry. apply Permutation_middle.
  - by rewrite map_to_list_insert.
Qed.

Lemma groupByWorker_members batch (m : gmap V (list V)) :
  ∃ m', SliceStreamer.groupByWorker (pureKeyer key) batch m = Ok m'
        ∧ members m' ≡ₚ members m ++ batch.
Proof.
  revert m. induction batch as [|x batch IH]; intros m; simpl.
  - exists m. by rewrite app_nil_r.
  - destruct (IH (<[key x := default [] (m !! key x) ++ [x]]> m))
      as (m' & -> & Hm'). exists m'. split; [done |].
    rewrite Hm', members_insert_snoc. apply Permutation_middle.
Qed.

(** The groups hold the elements the destination held, and the data. *)
Lemma groupBy_members data val val' :
  (∀ k, val' !! k = extend (val !! k) (group key k data)) →
  members val' ≡ₚ members val ++ data.
Proof.
  intros Hlook.
  destruct (groupByWorker_members data val) as (m & Hm & Hperm).
  destruct (groupByWorker_lookup data val) as (m' & Hm' & Hlook').
  assert (m' = m) as -> by congruence.
  assert (val' = m) as ->; [| done].
  apply map_eq. intros k. by rewrite Hlook, Hlook'.
Qed.
End GroupByFacts.

(** C8. [groupBy] with a key extractor that never panics, into a
    destination without entries. When the store of every goroutine is in
    [resultCollection], as it is with one goroutine, each key holds exactly
    the elements of the evaluated sequence with that key, in their original
    order; every element is in the group of its key and in no other, and all
    groups together hold the elements of the sequence, each as often as it
    occurs there. With two or more goroutines the stores are concurrent
    writes to one map: when the run time notices them the call ends in its
    fatal error; when stores are lost the call returns and the groups hold
    the elements of the batches whose store is there, and no others. *)
Theorem C8_groupBy_with_racing_stores {V : Type} `{Countable V}
    (sched : nat → list nat) (race : nat → mapWrites)
    (s : SliceStreamer.SliceStreamer V)
    (key : V → V) (scanResult : list V) :
  1 ≤ SliceStreamer.parallel s →
  (landed race (SliceStreamer.parallel s) →
   ∃ val',
     SliceStreamer.groupBy sched race s (pureKeyer key) scanResult ∅
     = (val', Ok ())
     ∧ (∀ k, val' !! k = match group key k scanResult with
                         | [] => None
                         | g => Some g
                         end)
     ∧ (∀ x, x ∈ scanResult →
             ∃ g, val' !! key x = Some g ∧ x ∈ g
                  ∧ ∀ k g', val' !! k = Some g' → x ∈ g' → k = key x)
     ∧ (∀ k g, val' !! k = Some g → g `sublist_of` scanResult)
     ∧ members val' ≡ₚ scanResult)
  ∧ (2 ≤ SliceStreamer.parallel s →
     race (Z.to_nat (SliceStreamer.parallel s)) = ConcurrentWrites →
     SliceStreamer.groupBy sched race s (pureKeyer key) scanResult ∅
     = (∅, Panic (Runtime ConcurrentMapWrites)))
  ∧ (2 ≤ SliceStreamer.parallel s →
     ∀ kept,
       race (Z.to_nat (SliceStreamer.parallel s)) = Stored kept →
       ∃ val',
         SliceStreamer.groupBy sched race s (pureKeyer key) scanResult ∅
         = (val', Ok ())
         ∧ members val'
           ≡ₚ keptData kept scanResult (SliceStreamer.parallel s)).
Proof.
  intros Hk. split; [| split].
  - intros Hlanded.
    destruct (groupBy_lookup sched race key s scanResult ∅ Hk Hlanded)
      as (val' & Hrun & Hlook).
    {
  assert (∀ k, val' !! k = match group key k scanResult with
                             | [] => None
                             | g => Some g
                             end) as Hgroups.
    { intros k. rewrite Hlook, lookup_empty. by destruct (group key k scanResult). }
    exists val'. split; [done |]. split; [done |]. split; [| split].
    - intros x Hx.
      assert (x ∈ group key (key x) scanResult) as Hin
        by (by apply list_elem_of_filter).
      exists (group key (key x) scanResult). split; [| split; [done |]].
      + rewrite Hgroups. destruct (group key (key x) scanResult); [| done].
        by apply elem_of_nil in Hin.
      + intros k g' Hg' Hxg'. rewrite Hgroups in Hg'.
        assert (g' = group key k scanResult) as ->
          by (destruct (group key k scanResult); congruence).
        by apply list_elem_of_filter in Hxg' as [-> _].
    - intros k g Hg. rewrite Hgroups in Hg.
      assert (g = group key k scanResult) as ->
        by (destruct (group key k scanResult); congruence).
      apply sublist_filter.
    - rewrite (groupBy_members key scanResult ∅ val' Hlook).
      unfold members. by rewrite map_to_list_empty.
    }
  - intros H2 Hrace. unfold SliceStreamer.groupBy.
    by rewrite (stores_noticed race _ H2 Hrace).
  - intros H2 kept Hrace.
    destruct (groupBy_kept sched race key s scanResult ∅ kept Hk
                (stores_Stored race _ kept H2 Hrace)) as (val' & Hrun & Hlook).
    exists val'. split; [done |].
    rewrite (groupBy_members key _ ∅ val' Hlook).
    unfold members. by rewrite map_to_list_empty.
Qed.

(** [OfSlice([1..7])...Parallel(2).GroupBy(x % 3, &m)] when the store of
    the first goroutine is lost: the call returns, and the groups hold the
    elements 4 to 7 of the second batch only. *)
Lemma C8_groupBy_with_racing_stores_witness :
  ∃ val',
    SliceStreamer.groupBy Fixture.inOrder (Fixture.losing 0)
      (withParallel 2 Fixture.filterStage)
      (pureKeyer (λ x, x mod 3)) [1; 2; 3; 4; 5; 6; 7] ∅ = (val', Ok ())
    ∧ members val' ≡ₚ [4; 5; 6; 7].
Proof.
  destruct (C8_groupBy_with_racing_stores Fixture.inOrder (Fixture.losing 0)
              (withParallel 2 Fixture.filterStage) (λ x, x mod 3)
              [1; 2; 3; 4; 5; 6; 7] ltac:(simpl; lia))
    as (_ & _ & Hlost).
  destruct (Hlost ltac:(simpl; lia) _ eq_refl) as (val' & Hrun & Hmembers).
  exists val'. by split.
Defined.

(** ** [Reduce] *)

Section ReduceFacts.
Context {V : Type}.

Lemma accumulate_pure (g : V → V → V) (data : list V) (baseVal : V) :
  SliceStreamer.accumulate (λ a b, Ok (g a b)) data baseVal
  = Ok (fold_left g data baseVal).
Proof.
  revert baseVal. induction data as [|x data IH]; intros baseVal; [done |].
  simpl. apply IH.
Qed.
End ReduceFacts.

(** C6. On an evaluated sequence, [Reduce] leaves the result storage as it
    was when the sequence is empty; stores the element itself when there is
    exactly one, whatever the accumulator (so also one that panics whenever
    it is called); and for two or more elements stores the left-to-right
    fold that starts from the seed found in the result storage. *)
Theorem C6_Reduce_policy {V : Type} `{Countable V}
    (sched : nat → list nat)
    (sort_Slice : list V → (V → V → outcome V bool) → outcome V (list V))
    (st : SliceStreamer.store V) (streamer : addr)
    (seed : V) (data : list V) (g : V → V → V) :
  SliceStreamer.scan sched sort_Slice st streamer = Ok data →
  (data = [] →
   ∀ accumulator,
     SliceStreamer.Reduce sched sort_Slice st streamer accumulator seed
     = (seed, Ok ()))
  ∧ (∀ x, data = [x] →
     ∀ accumulator,
       SliceStreamer.Reduce sched sort_Slice st streamer accumulator seed
       = (x, Ok ()))
  ∧ ((2 ≤ length data)%nat →
     SliceStreamer.Reduce sched sort_Slice st streamer (λ a b, Ok (g a b)) seed
     = (fold_left g data seed, Ok ())).
Proof.
  intros Hscan. unfold SliceStreamer.Reduce, SliceStreamer.reduce.
  rewrite Hscan. repeat split.
  - by intros ->.
  - by intros x ->.
  - intros Hlen. destruct data as [|x [|y data]]; simpl in Hlen; try lia.
    by rewrite accumulate_pure.
Qed.

Lemma C6_Reduce_policy_witness :
  SliceStreamer.Reduce Fixture.inOrder Fixture.insertionSort Fixture.source 0%nat
    (λ a b, Ok (a + b)) 100
  = (128, Ok ()).
Proof.
  apply (C6_Reduce_policy Fixture.inOrder Fixture.insertionSort Fixture.source
           0%nat 100 [1; 2; 3; 4; 5; 6; 7] Z.add eq_refl).
  simpl. lia.
Defined.

(** ** The destination maps of [GroupBy] and [ToMap] *)

(** C10. [GroupBy] and [ToMap] write into the destination map they are
    given and never clear it. Whatever comes of the stores of the goroutines
    into [resultCollection]: when the call returns, an entry of the
    destination is still there, [GroupBy] has put the elements it grouped
    under a key behind the list the destination held for it, and [ToMap] has
    replaced an entry only if the evaluated sequence has an element with
    that key; the elements added come from the evaluated sequence, and they
    are all of it when no store was lost. When the run time ends the call
    over the stores, the destination is as it was. A nil destination behaves
    as a fresh empty map. *)
Theorem C10_destination_is_kept {V : Type} `{Countable V}
    (sched : nat → list nat) (race : nat → mapWrites)
    (sort_Slice : list V → (V → V → outcome V bool) → outcome V (list V))
    (st : SliceStreamer.store V) (streamer : addr)
    (s : SliceStreamer.SliceStreamer V) (key : V → V) (data : list V)
    (groups : gmap V (list V)) (entries : gmap V V) :
  SliceStreamer.scan sched sort_Slice st streamer = Ok data →
  SliceStreamer.slices st !! streamer = Some s →
  1 ≤ SliceStreamer.parallel s →
  (undetected race (SliceStreamer.parallel s) →
   ∃ added val',
     SliceStreamer.GroupBy sched race sort_Slice st streamer
       (Some (pureKeyer key)) (Some groups) = (Some val', Ok ())
     ∧ added `sublist_of` data
     ∧ (landed race (SliceStreamer.parallel s) → added = data)
     ∧ (∀ k, val' !! k = extend (groups !! k) (group key k added))
     ∧ (∀ k old, groups !! k = Some old →
                 val' !! k = Some (old ++ group key k added)))
  ∧ (undetected race (SliceStreamer.parallel s) →
     ∃ added val',
       SliceStreamer.ToMap sched race sort_Slice st streamer
         (Some (pureKeyer key)) (Some entries) = (Some val', Ok ())
       ∧ added `sublist_of` data
       ∧ (landed race (SliceStreamer.parallel s) → added = data)
       ∧ (∀ k, val' !! k = match lastWith key k added with
                           | Some x => Some x
                           | None => entries !! k
                           end)
       ∧ (∀ k old, entries !! k = Some old → is_Some (val' !! k))
       ∧ (∀ k, (∀ x, x ∈ data → key x ≠ k) → val' !! k = entries !! k))
  ∧ (2 ≤ SliceStreamer.parallel s →
     race (Z.to_nat (SliceStreamer.parallel s)) = ConcurrentWrites →
     SliceStreamer.GroupBy sched race sort_Slice st streamer
       (Some (pureKeyer key)) (Some groups)
     = (Some groups, Panic (Runtime ConcurrentMapWrites))
     ∧ SliceStreamer.ToMap sched race sort_Slice st streamer
         (Some (pureKeyer key)) (Some entries)
       = (Some entries, Panic (Runtime ConcurrentMapWrites)))
  ∧ SliceStreamer.GroupBy sched race sort_Slice st streamer
      (Some (pureKeyer key)) None
    = SliceStreamer.GroupBy sched race sort_Slice st streamer
        (Some (pureKeyer key)) (Some ∅)
  ∧ SliceStreamer.ToMap sched race sort_Slice st streamer
      (Some (pureKeyer key)) None
    = SliceStreamer.ToMap sched race sort_Slice st streamer
        (Some (pureKeyer key)) (Some ∅).
Proof.
  intros Hscan Hs Hk.
  assert (∀ kept,
            landed race (SliceStreamer.parallel s) →
            SliceStreamer.stores race (SliceStreamer.parallel s) = Some kept →
            keptData kept data (SliceStreamer.parallel s) = data) as Hall.
  { intros kept (kept' & Hkept' & Htrue)%stores_landed Hkept.
    assert (kept = kept') as -> by congruence. by apply keptData_all. }
  split; [| split; [| split; [| split; [done | done]]]].
  - intros (kept & Hstores)%stores_undetected.
    destruct (groupBy_kept sched race key s data groups kept Hk Hstores)
      as (val' & Hrun & Hlook).
    exists (keptData kept data (SliceStreamer.parallel s)), val'.
    unfold SliceStreamer.GroupBy. rewrite Hscan, Hs. simpl. rewrite Hrun.
    split; [done |]. split; [by apply keptData_sublist |].
    split; [intros Hlanded; by apply Hall |]. split; [done |].
    intros k old Hold. rewrite Hlook, Hold.
    destruct (group key k _); simpl; [by rewrite app_nil_r | done].
  - intros (kept & Hstores)%stores_undetected.
    destruct (toMap_kept sched race key s data entries kept Hk Hstores)
      as (val' & Hrun & Hlook).
    exists (keptData kept data (SliceStreamer.parallel s)), val'.
    unfold SliceStreamer.ToMap. rewrite Hscan, Hs. simpl. rewrite Hrun.
    split; [done |]. split; [by apply keptData_sublist |].
    split; [intros Hlanded; by apply Hall |]. split; [done |]. split.
    + intros k old Hold. rewrite Hlook, Hold.
      by destruct (lastWith key k _).
    + intros k Hno. rewrite Hlook, lastWith_None; [done |].
      intros x Hx. apply Hno.
      by apply (elem_of_sublist _ _ x Hx), keptData_sublist.
  - intros H2 Hrace.
    unfold SliceStreamer.GroupBy, SliceStreamer.ToMap,
      SliceStreamer.groupBy, SliceStreamer.toMap.
    by rewrite Hscan, Hs, (stores_noticed race _ H2 Hrace).
Qed.

(** A destination with entries, two goroutines, and the store of the second
    one lost: the entry under 5 stays, and what was grouped under 2 comes
    behind the 100 that was there. *)
Lemma C10_destination_is_kept_witness :
  ∃ val',
    SliceStreamer.GroupBy Fixture.reversed (Fixture.losing 1)
      Fixture.insertionSort Fixture.tuned
      2%nat (Some (pureKeyer (λ x, x mod 4))) (Some {[2 := [100]; 5 := [7]]})
    = (Some val', Ok ())
    ∧ val' !! 2 = Some [100; 6]
    ∧ val' !! 5 = Some [7].
Proof.
  assert (SliceStreamer.scan Fixture.reversed Fixture.insertionSort Fixture.tuned
            2%nat = Ok [6; 8; 10; 12; 14]) as Hscan by reflexivity.
  destruct (C10_destination_is_kept Fixture.reversed (Fixture.losing 1)
              Fixture.insertionSort Fixture.tuned 2%nat
              Fixture.mapStage
              (λ x, x mod 4) [6; 8; 10; 12; 14]
              {[2 := [100]; 5 := [7]]} ∅ Hscan eq_refl ltac:(simpl; lia))
    as (HGroupBy & _).
  destruct HGroupBy as (added & val' & Hrun & _ & _ & _ & Hold).
  { right. by eexists. }
  exists val'. split; [done |].
  unfold SliceStreamer.GroupBy in Hrun. rewrite Hscan in Hrun.
  simpl in Hrun. injection Hrun as <-.
  split; reflexivity.
Defined.

(** ** Builders *)

Section BuilderFacts.
Context {V : Type}.
Implicit Types st : SliceStreamer.store V.

Lemma alloc_buildsChild st streamer child :
  SliceStreamer.lastStreamer child = Some streamer →
  buildsChild st streamer (Ok (SliceStreamer.alloc st child)).
Proof.
  intros Hparent. unfold SliceStreamer.alloc.
  eexists _, _, child. split; [done |]. simpl. repeat split.
  - by apply lookup_ge_None.
  - by rewrite lookup_app_r, Nat.sub_diag.
  - done.
  - intros b n Hb. by rewrite lookup_app_l by (by apply lookup_lt_Some in Hb).
Qed.

Lemma Parallel_retunesReceiver NumCPU st streamer s k :
  SliceStreamer.slices st !! streamer = Some s →
  retunesReceiver NumCPU st streamer k
    (SliceStreamer.Parallel NumCPU st streamer k).
Proof.
  intros Hs. unfold SliceStreamer.Parallel. rewrite Hs.
  assert ((if (if k <=? 0 then 1 else k) >? NumCPU * 2
           then NumCPU * 2 else if k <=? 0 then 1 else k) = clamp NumCPU k) as ->.
  { unfold clamp. destruct (Z.leb_spec k 0).
    - destruct (Z.gtb_spec 1 (NumCPU * 2)); lia.
    - destruct (Z.gtb_spec k (NumCPU * 2)); lia. }
  eexists _, s. split; [done |]. simpl. repeat split.
  - done.
  - apply list_lookup_insert_eq. by apply lookup_lt_Some in Hs.
  - apply length_insert.
  - intros b Hb. by apply list_lookup_insert_ne.
Qed.
End BuilderFacts.

(** ** Panics inside goroutines *)

Section FaultFacts.
Context {V : Type} `{Countable V}.
Variable sched : nat → list nat.
Variable race : nat → mapWrites.
Variable sort_Slice : list V → (V → V → outcome V bool) → outcome V (list V).




End FaultFacts.




(** ** Streams without stages *)

Section PlainRoot.
Context {V : Type} `{Countable V}.
Variable sched : nat → list nat.
Variable sort_Slice : list V → (V → V → outcome V bool) → outcome V (list V).
Implicit Types st : SliceStreamer.store V.

Lemma chain_root {N} (last : N → option addr) (h : list N) a n :
  h !! a = Some n → last n = None →
  chain (V:=V) last h (length h) (Some a) = Ok [n].
Proof.
  intros Hn Hlast. apply lookup_lt_Some in Hn as Hlt.
  destruct (length h) as [|fuel]; [lia |]. simpl. rewrite Hn, Hlast.
  by destruct fuel.
Qed.

Lemma window_none (n : SliceStreamer.SliceStreamer V) data :
  SliceStreamer.offset n = 0 → SliceStreamer.limit n = 0 →
  SliceStreamer.window n data = Ok data.
Proof.
  intros Ho Hl.
  destruct (Z.ltb_spec 0 (Z.of_nat (length data))).
  - rewrite window_inside by lia. by rewrite Ho, Hl.
  - rewrite window_beyond by lia. by rewrite Hl.
Qed.

(** A root without operations evaluates to the window over what its data
    getter returns. *)
Lemma scan_plain_root st a n :
  SliceStreamer.slices st !! a = Some n →
  SliceStreamer.lastStreamer n = None →
  SliceStreamer.filterFunc n = None → SliceStreamer.flatMapFunc n = None →
  SliceStreamer.mapFunc n = None → SliceStreamer.sortFunc n = None →
  SliceStreamer.scan sched sort_Slice st a
  = (data ⇐ SliceStreamer.getData sched st (SliceStreamer.dataGetter n) ;;
     SliceStreamer.window n data).
Proof.
  intros Hn Hlast Hf Hfm Hm Hs. unfold SliceStreamer.scan, SliceStreamer.streamerList.
  rewrite (chain_root _ _ a n Hn Hlast). cbn [bind last].
  destruct (SliceStreamer.getData sched st (SliceStreamer.dataGetter n));
    [| done].
  simpl. unfold SliceStreamer.stage. by rewrite Hf, Hfm, Hm, Hs.
Qed.

Lemma snoc_all (result : list V) :
  fold_left (λ val x, val ++ [x]) result [] = result.
Proof.
  enough (∀ acc, fold_left (λ val x, val ++ [x]) result acc = acc ++ result)
    as Hgen by apply (Hgen []).
  induction result as [|x result IH]; intros acc; simpl.
  - by rewrite app_nil_r.
  - by rewrite IH, <- app_assoc.
Qed.
End PlainRoot.

(** ** [KeysToStream] and [ValuesToStream] *)

Section ProjectionFacts.
Context {V : Type} `{Countable V}.
Variable sched : nat → list nat.
Implicit Types s : MapStreamer.MapStreamer V.
Implicit Types data : list (MapStreamer.pair V).
Implicit Types x : MapStreamer.pair V.
Implicit Types fs : list (V → V → outcome V bool).
Implicit Types f : V → V → outcome V bool.
Implicit Types k v : V.

Lemma isFilter_total fs x :
  (∀ f k v, f ∈ fs → ∃ b, f k v = Ok b) →
  MapStreamer.isFilter fs x = Ok (forallb (λ f, holds f x) fs).
Proof.
  induction fs as [|f fs IH]; intros Htotal; [done |]. simpl.
  destruct (Htotal f (MapStreamer.key x) (MapStreamer.value x)) as [b Hb];
    [left |].
  unfold holds at 1. rewrite Hb. simpl. destruct b; [| done].
  apply IH. intros g k v Hg. apply Htotal. by right.
Qed.

Lemma traverse_pairFilterOp_total fs data :
  (∀ f k v, f ∈ fs → ∃ b, f k v = Ok b) →
  traverse (pairFilterOp fs) data
  = Ok (filter (λ x, forallb (λ f, holds f x) fs = true) data).
Proof.
  intros Htotal. induction data as [|x data IH]; [done |]. simpl.
  unfold pairFilterOp at 1. rewrite isFilter_total by done. simpl.
  rewrite IH. simpl. rewrite filter_cons.
  by destruct (forallb (λ f, holds f x) fs).
Qed.

Lemma filter_all (P : MapStreamer.pair V → Prop) `{∀ x, Decision (P x)} data :
  (∀ x, P x) → filter P data = data.
Proof.
  intros HP. induction data as [|x data IH]; [done |].
  by rewrite filter_cons, decide_True, IH.
Qed.

Lemma replayFilters_total (l : list (MapStreamer.MapStreamer V)) data :
  Forall (λ s, 1 ≤ MapStreamer.parallel s) l → totalFilters l →
  MapStreamer.replayFilters sched l data = Ok (survivors l data).
Proof.
  intros Hk. revert data.
  induction Hk as [|s l Hs _ IH]; intros data Htotal; [done |]. simpl.
  assert (match MapStreamer.filterFunc s with
          | Some _ => MapStreamer.filter sched s data
          | None => Ok data
          end = Ok (filter (λ x, passes s x = true) data)) as ->.
  { unfold passes. destruct (MapStreamer.filterFunc s) as [fs|] eqn:Hfs; simpl.
    - apply (pairFilter_Ok sched s data fs); [done | done |].
      apply traverse_pairFilterOp_total. intros f k v Hf.
      apply (Htotal s fs f k v); [left | done | done].
    - by rewrite filter_all. }
  simpl. apply IH. intros s' fs f k v Hs' Hfs Hf.
  apply (Htotal s' fs f k v); [by right | done | done].
Qed.

Lemma project_fmap {B} (f : MapStreamer.pair V → B) data :
  fold_left (λ acc p, acc ++ [f p]) data [] = f <$> data.
Proof.
  enough (∀ acc, fold_left (λ acc p, acc ++ [f p]) data acc = acc ++ (f <$> data))
    as Hgen by apply (Hgen []).
  induction data as [|x data IH]; intros acc; simpl.
  - by rewrite app_nil_r.
  - by rewrite IH, <- app_assoc.
Qed.

(** Walking the chain in a heap whose nodes went through a function that
    keeps the parent links. *)
Lemma chain_fmap {N} (f : N → N) (last : N → option addr) (h : list N)
    fuel p :
  (∀ n, last (f n) = last n) →
  chain (V:=V) last (f <$> h) fuel p
  = (l ⇐ chain (V:=V) last h fuel p ;; Ok (f <$> l)).
Proof.
  intros Hlast. revert p. induction fuel as [|fuel IH]; intros [a|]; simpl;
    try done.
  rewrite list_lookup_fmap. destruct (h !! a) as [n|]; simpl; [| done].
  rewrite Hlast, IH. by destruct (chain last h fuel (last n)).
Qed.

Lemma filter_eraseMappers s data :
  MapStreamer.filter sched (eraseMappers s) data = MapStreamer.filter sched s data.
Proof. done. Qed.

Lemma replayFilters_eraseMappers (l : list (MapStreamer.MapStreamer V)) data :
  MapStreamer.replayFilters sched (eraseMappers <$> l) data
  = MapStreamer.replayFilters sched l data.
Proof.
  revert data. induction l as [|s l IH]; intros data; [done |]. simpl.
  rewrite filter_eraseMappers.
  destruct (match MapStreamer.filterFunc s with
            | Some _ => MapStreamer.filter sched s data
            | None => Ok data
            end); simpl; [apply IH | done].
Qed.

(** The mappers of the chain take no part in the partial evaluation. *)
Lemma filtered_eraseMappers (h : list (MapStreamer.MapStreamer V)) streamer :
  MapStreamer.filtered sched (eraseMappers <$> h) streamer
  = MapStreamer.filtered sched h streamer.
Proof.
  unfold MapStreamer.filtered, MapStreamer.streamerList.
  rewrite length_fmap, chain_fmap by done.
  destruct (chain MapStreamer.lastStreamer h (length h) (Some streamer))
    as [l|p]; simpl; [| done].
  rewrite fmap_last. destruct (last l) as [root|]; simpl; [| done].
  change (rev (eraseMappers <$> l)) with (rev (map eraseMappers l)).
  rewrite <- map_rev. apply replayFilters_eraseMappers.
Qed.
End ProjectionFacts.

(** C9. On a chain of [MapStreamer] nodes whose predicates do not panic,
    [KeysToStream] and [ValuesToStream] keep the pairs of the root that pass
    the filters of the chain, root first, and return a new stream at the
    next free address: a root over the slice of the keys, respectively the
    values, of those pairs, without operations and without window, with the
    degree of the receiver. That stream evaluates to exactly those keys,
    respectively values. The mappers the nodes of the chain may carry take
    no part: the pairs kept are the same once every mapper is removed from
    the heap. *)
Theorem C9_projections_apply_filters_only {V : Type} `{Countable V}
    (sched : nat → list nat)
    (sort_Slice : list V → (V → V → outcome V bool) → outcome V (list V))
    (st : SliceStreamer.store V) (streamer : addr)
    (l : list (MapStreamer.MapStreamer V))
    (root s : MapStreamer.MapStreamer V) :
  MapStreamer.streamerList (SliceStreamer.maps st) streamer = Ok l →
  last l = Some root →
  SliceStreamer.maps st !! streamer = Some s →
  Forall (λ n, 1 ≤ MapStreamer.parallel n) l →
  totalFilters l →
  let kept := survivors (rev l) (MapStreamer.pairData root) in
  let keys := rootOver (MapStreamer.key <$> kept) (MapStreamer.parallel s) in
  let values := rootOver (MapStreamer.value <$> kept) (MapStreamer.parallel s) in
  MapStream.KeysToStream sched st streamer
  = Ok (withStream st keys, length (SliceStreamer.slices st))
  ∧ MapStream.ValuesToStream sched st streamer
    = Ok (withStream st values, length (SliceStreamer.slices st))
  ∧ SliceStreamer.scan sched sort_Slice (withStream st keys)
      (length (SliceStreamer.slices st))
    = Ok (MapStreamer.key <$> kept)
  ∧ SliceStreamer.scan sched sort_Slice (withStream st values)
      (length (SliceStreamer.slices st))
    = Ok (MapStreamer.value <$> kept)
  ∧ MapStreamer.filtered sched (eraseMappers <$> SliceStreamer.maps st) streamer
    = MapStreamer.filtered sched (SliceStreamer.maps st) streamer.
Proof.
  intros Hl Hroot Hs Hk Htotal kept keys values.
  assert (MapStreamer.filtered sched (SliceStreamer.maps st) streamer
          = Ok kept) as Hkept.
  { unfold MapStreamer.filtered. rewrite Hl. simpl. rewrite Hroot.
    apply replayFilters_total.
    - apply Forall_forall. intros n Hn. rewrite Forall_forall in Hk.
      apply Hk. by apply list_elem_of_In, in_rev, list_elem_of_In.
    - intros n fs f k v Hn. apply Htotal.
      by apply list_elem_of_In, in_rev, list_elem_of_In. }
  assert (∀ data,
            SliceStreamer.scan sched sort_Slice
              (withStream st (rootOver data (MapStreamer.parallel s)))
              (length (SliceStreamer.slices st)) = Ok data) as Hscan.
  { intros data.
    rewrite (scan_plain_root sched sort_Slice _ _
               (rootOver data (MapStreamer.parallel s)))
      by (try done; simpl; by rewrite lookup_app_r, Nat.sub_diag).
    simpl. by apply window_none. }
  split; [| split; [| split; [| split]]].
  - unfold MapStream.KeysToStream. rewrite Hkept, Hs. simpl.
    by rewrite project_fmap.
  - unfold MapStream.ValuesToStream. rewrite Hkept, Hs. simpl.
    by rewrite project_fmap.
  - apply Hscan.
  - apply Hscan.
  - apply filtered_eraseMappers.
Qed.

(** In the fixture only the pair with key 4 and value 40 passes both
    filters; the node at address 2 also carries a mapper, which is not
    applied. *)
Lemma C9_projections_apply_filters_only_witness :
  MapStream.KeysToStream Fixture.reversed Fixture.mapSourced 2%nat
  = Ok (withStream Fixture.mapSourced (rootOver [4] 2), 0%nat)
  ∧ MapStream.ValuesToStream Fixture.reversed Fixture.mapSourced 2%nat
    = Ok (withStream Fixture.mapSourced (rootOver [40] 2), 0%nat)
  ∧ SliceStreamer.scan Fixture.reversed Fixture.insertionSort
      (withStream Fixture.mapSourced (rootOver [4] 2)) 0%nat
    = Ok [4]
  ∧ SliceStreamer.scan Fixture.reversed Fixture.insertionSort
      (withStream Fixture.mapSourced (rootOver [40] 2)) 0%nat
    = Ok [40].
Proof.
  destruct (C9_projections_apply_filters_only Fixture.reversed
              Fixture.insertionSort Fixture.mapSourced 2%nat
              [Fixture.bigValuesMapped; Fixture.evenKeys; Fixture.mapRoot]
              Fixture.mapRoot Fixture.bigValuesMapped
              eq_refl eq_refl eq_refl)
    as (Hkeys & Hvalues & HscanK & HscanV & _).
  - repeat constructor; simpl; lia.
  - intros n fs f k v Hn Hfs Hf.
    repeat (apply elem_of_cons in Hn as [->|Hn]); try by apply elem_of_nil in Hn.
    + injection Hfs as <-. apply list_elem_of_singleton in Hf as ->. by eexists.
    + injection Hfs as <-. apply list_elem_of_singleton in Hf as ->. by eexists.
    + discriminate Hfs.
  - by repeat split.
Defined.

(** ** Stores made by the builders: the chain walk ends, and earlier streams
    evaluate as before *)

Section WellFormedFacts.
Context {V : Type} `{Countable V}.
Variable sched : nat → list nat.
Variable sort_Slice : list V → (V → V → outcome V bool) → outcome V (list V).
Implicit Types st : SliceStreamer.store V.

(** Below the fuel and inside the heap, the walk returns the chain, which
    starts with the node walked from. *)
Lemma chain_total {N} (last : N → option addr) (h : list N) fuel a :
  parentsFirst last h → (a < fuel)%nat → (a < length h)%nat →
  ∃ n l, h !! a = Some n ∧ chain (V:=V) last h fuel (Some a) = Ok (n :: l).
Proof.
  intros Hwf. revert a. induction fuel as [|fuel IH]; intros a Hfuel Ha; [lia |].
  destruct (lookup_lt_is_Some_2 h a Ha) as [n Hn]. simpl. rewrite Hn.
  destruct (last n) as [q|] eqn:Hq.
  - pose proof (Hwf a n q Hn Hq) as Hlt.
    destruct (IH q ltac:(lia) ltac:(lia)) as (n' & l & _ & ->). simpl. eauto.
  - destruct fuel; simpl; eauto.
Qed.

(** The walk does not look beyond the node it starts from. *)
Lemma chain_frame {N} (last : N → option addr) (h h' : list N) fuel fuel' a :
  parentsFirst last h → (a < fuel)%nat → (a < fuel')%nat → (a < length h)%nat →
  chain (V:=V) last (h ++ h') fuel' (Some a) = chain (V:=V) last h fuel (Some a).
Proof.
  intros Hwf. revert fuel' a.
  induction fuel as [|fuel IH]; intros fuel' a Hfuel Hfuel' Ha; [lia |].
  destruct fuel' as [|fuel']; [lia |]. simpl.
  rewrite lookup_app_l by done.
  destruct (h !! a) as [n|] eqn:Hn; [| done].
  destruct (last n) as [q|] eqn:Hq.
  - pose proof (Hwf a n q Hn Hq) as Hlt. by rewrite (IH fuel' q) by lia.
  - by destruct fuel, fuel'.
Qed.

Lemma streamerList_total st streamer :
  wellFormed st → (streamer < length (SliceStreamer.slices st))%nat →
  ∃ leaf l, SliceStreamer.slices st !! streamer = Some leaf
            ∧ SliceStreamer.streamerList st streamer = Ok (leaf :: l).
Proof. intros (Hwf & _) Hlt. by apply chain_total. Qed.

Lemma getData_frame st st' getter :
  SliceStreamer.maps st' = SliceStreamer.maps st →
  SliceStreamer.getData sched st' getter = SliceStreamer.getData sched st getter.
Proof. intros Hmaps. unfold SliceStreamer.getData. by rewrite Hmaps. Qed.

Lemma stage_frame st st' s data :
  SliceStreamer.maps st' = SliceStreamer.maps st →
  SliceStreamer.stage sched sort_Slice st' s data
  = SliceStreamer.stage sched sort_Slice st s data.
Proof.
  intros Hmaps. unfold SliceStreamer.stage, SliceStreamer.flatMap.
  by rewrite (getData_frame st st').
Qed.

Lemma replay_frame st st' (l : list (SliceStreamer.SliceStreamer V)) data :
  SliceStreamer.maps st' = SliceStreamer.maps st →
  SliceStreamer.replay sched sort_Slice st' l data
  = SliceStreamer.replay sched sort_Slice st l data.
Proof.
  intros Hmaps. revert data. induction l as [|s l IH]; intros data; [done |].
  simpl. rewrite (stage_frame st st') by done.
  destruct (SliceStreamer.stage sched sort_Slice st s data); simpl;
    [apply IH | done].
Qed.

(** Allocating a node leaves the evaluation of every earlier stream as it
    was. *)
Lemma scan_alloc_frame st child streamer :
  wellFormed st → (streamer < length (SliceStreamer.slices st))%nat →
  SliceStreamer.scan sched sort_Slice (fst (SliceStreamer.alloc st child)) streamer
  = SliceStreamer.scan sched sort_Slice st streamer.
Proof.
  intros Hwf Hlt. pose proof Hwf as (Hparents & _).
  unfold SliceStreamer.scan, SliceStreamer.streamerList. simpl.
  rewrite (chain_frame _ _ _ (length (SliceStreamer.slices st))) by
    (try done; rewrite ?length_app; simpl; lia).
  destruct (chain _ _ _ _) as [l|p]; simpl; [| done].
  destruct l as [|leaf l]; [done |].
  destruct (last (leaf :: l)) as [root|]; [| done].
  rewrite (getData_frame st) by done.
  destruct (SliceStreamer.getData sched st (SliceStreamer.dataGetter root));
    simpl; [| done].
  by rewrite (replay_frame st) by done.
Qed.

(** [Parallel] leaves the result of every evaluation as it was. *)
Lemma scan_Parallel_frame NumCPU st streamer k st' a p :
  schedule sched → wellFormed st → 1 ≤ NumCPU →
  SliceStreamer.Parallel NumCPU st streamer k = Ok (st', a) →
  sameResult (SliceStreamer.scan sched sort_Slice st p)
             (SliceStreamer.scan sched sort_Slice st' p).
Proof.
  intros Hsched (_ & _ & Hslices & Hmaps) Hcpu HParallel.
  unfold SliceStreamer.Parallel in HParallel.
  destruct (SliceStreamer.slices st !! streamer) as [s|] eqn:Hs; [| done].
  injection HParallel as <- <-.
  assert (storeSameUpToParallel st
            {| SliceStreamer.slices :=
                 <[streamer := withParallel
                                 (if (if k <=? 0 then 1 else k) >? NumCPU * 2
                                  then NumCPU * 2 else if k <=? 0 then 1 else k) s]>
                   (SliceStreamer.slices st);
               SliceStreamer.maps := SliceStreamer.maps st |}) as Hsame.
  { split; simpl.
    - apply Forall2_same_length_lookup_2; [by rewrite length_insert |].
      intros i x y Hx Hy. rewrite Forall_lookup in Hslices.
      destruct (Hslices i x Hx) as (Hkx & _).
      destruct (decide (i = streamer)) as [->|Hne].
      + rewrite list_lookup_insert_eq in Hy by (by apply lookup_lt_Some in Hs).
        injection Hy as <-. assert (x = s) as -> by congruence.
        split; [done |]. split; [| done]. simpl.
        destruct (Z.leb_spec k 0), (Z.gtb_spec 1 (NumCPU * 2)),
          (Z.gtb_spec k (NumCPU * 2)); lia.
      + rewrite list_lookup_insert_ne in Hy by done.
        assert (y = x) as -> by congruence.
        split; [done |]. split; [done |]. by destruct x.
    - apply Forall_Forall2_diag. eapply Forall_impl; [exact Hmaps |].
      intros x Hx. split; [done |]. split; [done |]. by destruct x. }
  apply sameResult_intro; intros r; apply scan_indep; try done.
  by apply storeSameUpToParallel_sym.
Qed.
End WellFormedFacts.

Section BuildersKeepWellFormed.
Context {V : Type}.
Implicit Types st : SliceStreamer.store V.

Lemma wellFormed_empty :
  wellFormed ({| SliceStreamer.slices := []; SliceStreamer.maps := [] |}
              : SliceStreamer.store V).
Proof. by repeat split. Qed.

Lemma parentsFirst_snoc {N} (last : N → option addr) (h : list N) (n : N) :
  parentsFirst last h →
  (∀ q, last n = Some q → (q < length h)%nat) →
  parentsFirst last (h ++ [n]).
Proof.
  intros Hwf Hn a n' q Ha Hq.
  destruct (decide (a < length h)%nat) as [Hlt|Hge].
  - rewrite lookup_app_l in Ha by done. by apply (Hwf a n' q).
  - rewrite lookup_app_r in Ha by lia.
    destruct (a - length h)%nat as [|i] eqn:Hi; simpl in Ha; [| done].
    injection Ha as <-. specialize (Hn q Hq). lia.
Qed.

Lemma wellFormed_alloc st child :
  wellFormed st →
  (∀ q, SliceStreamer.lastStreamer child = Some q →
        (q < length (SliceStreamer.slices st))%nat) →
  1 ≤ SliceStreamer.parallel child →
  0 ≤ SliceStreamer.offset child → 0 ≤ SliceStreamer.limit child →
  wellFormed (fst (SliceStreamer.alloc st child)).
Proof.
  intros (Hs & Hm & Hrs & Hrm) Hparent Hk Ho Hl. repeat split; simpl; try done.
  - by apply parentsFirst_snoc.
  - apply Forall_app. split; [done |]. by repeat constructor.
Qed.

Lemma wellFormed_OfSlice st data :
  wellFormed st → wellFormed (fst (SliceStreamer.OfSlice st data)).
Proof. intros Hwf. by apply wellFormed_alloc. Qed.

Lemma wellFormed_Parallel NumCPU st streamer k st' a :
  wellFormed st → 1 ≤ NumCPU →
  SliceStreamer.Parallel NumCPU st streamer k = Ok (st', a) →
  wellFormed st'.
Proof.
  intros (Hs & Hm & Hrs & Hrm) Hcpu Hcall. unfold SliceStreamer.Parallel in Hcall.
  destruct (SliceStreamer.slices st !! streamer) as [s|] eqn:Hnode; [| done].
  apply lookup_lt_Some in Hnode as Hlt.
  rewrite Forall_lookup in Hrs. destruct (Hrs _ _ Hnode) as (Hk & Ho & Hl).
  injection Hcall as <- <-. repeat split; simpl; try done.
  - intros b x q Hb Hq. destruct (decide (b = streamer)) as [->|Hne].
    + rewrite list_lookup_insert_eq in Hb by done. injection Hb as <-.
      by apply (Hs streamer s q).
    + rewrite list_lookup_insert_ne in Hb by done. by apply (Hs b x q).
  - apply Forall_lookup. intros b x Hb.
    destruct (decide (b = streamer)) as [->|Hne].
    + rewrite list_lookup_insert_eq in Hb by done. injection Hb as <-. simpl.
      repeat split; try done.
      destruct (Z.leb_spec k 0), (Z.gtb_spec 1 (NumCPU * 2)),
        (Z.gtb_spec k (NumCPU * 2)); lia.
    + rewrite list_lookup_insert_ne in Hb by done. by apply (Hrs b x).
Qed.

(** A builder that allocates hands its own ranges, or the ones of the
    receiver, to the child. *)
Ltac child_wellFormed Hcall st :=
  match type of Hcall with
  | context [SliceStreamer.slices st !! ?streamer] =>
    let s := fresh "s" in
    let Hnode := fresh "Hnode" in
    destruct (SliceStreamer.slices st !! streamer) as [s|] eqn:Hnode;
    [| discriminate Hcall];
    match goal with
    | Hrs : Forall _ (SliceStreamer.slices st) |- _ =>
      rewrite Forall_lookup in Hrs;
      destruct (Hrs _ _ Hnode) as (? & ? & ?)
    end;
    apply lookup_lt_Some in Hnode;
    injection Hcall as <- <-;
    apply (wellFormed_alloc st); simpl;
    [done | by intros ? [= <-] | done | lia | lia]
  end.

Lemma wellFormed_Filter st streamer filters st' a :
  wellFormed st →
  SliceStreamer.Filter st streamer filters = Ok (st', a) → wellFormed st'.
Proof.
  intros Hwf Hcall. pose proof Hwf as (_ & _ & Hrs & _).
  unfold SliceStreamer.Filter in Hcall. child_wellFormed Hcall st.
Qed.

Lemma wellFormed_Map st streamer mapper st' a :
  wellFormed st →
  SliceStreamer.Map st streamer mapper = Ok (st', a) → wellFormed st'.
Proof.
  intros Hwf Hcall. pose proof Hwf as (_ & _ & Hrs & _).
  unfold SliceStreamer.Map in Hcall. child_wellFormed Hcall st.
Qed.

Lemma wellFormed_FlatMap st streamer flatMapper st' a :
  wellFormed st →
  SliceStreamer.FlatMap st streamer flatMapper = Ok (st', a) → wellFormed st'.
Proof.
  intros Hwf Hcall. pose proof Hwf as (_ & _ & Hrs & _).
  unfold SliceStreamer.FlatMap in Hcall. child_wellFormed Hcall st.
Qed.

Lemma wellFormed_Sorted st streamer sorter st' a :
  wellFormed st →
  SliceStreamer.Sorted st streamer sorter = Ok (st', a) → wellFormed st'.
Proof.
  intros Hwf Hcall. pose proof Hwf as (_ & _ & Hrs & _).
  unfold SliceStreamer.Sorted in Hcall. child_wellFormed Hcall st.
Qed.

Lemma wellFormed_Offset st streamer n st' a :
  wellFormed st →
  SliceStreamer.Offset st streamer n = Ok (st', a) → wellFormed st'.
Proof.
  intros Hwf Hcall. pose proof Hwf as (_ & _ & Hrs & _).
  unfold SliceStreamer.Offset in Hcall.
  destruct (Z.leb_spec n 0); [done |]. child_wellFormed Hcall st.
Qed.

Lemma wellFormed_Limit st streamer n st' a :
  wellFormed st →
  SliceStreamer.Limit st streamer n = Ok (st', a) → wellFormed st'.
Proof.
  intros Hwf Hcall. pose proof Hwf as (_ & _ & Hrs & _).
  unfold SliceStreamer.Limit in Hcall.
  destruct (Z.leb_spec n 0); [done |]. child_wellFormed Hcall st.
Qed.
End BuildersKeepWellFormed.

Section Reuse.
Context {V : Type} `{Countable V}.
Variable sched : nat → list nat.
Variable sort_Slice : list V → (V → V → outcome V bool) → outcome V (list V).
Implicit Types st : SliceStreamer.store V.

Lemma sameResult_refl {T} (m : outcome V T) : sameResult m m.
Proof. by destruct m. Qed.

Lemma alloc_keepsEvaluations st child :
  wellFormed st →
  keepsEvaluations sched sort_Slice st (Ok (SliceStreamer.alloc st child)).
Proof.
  intros Hwf st' a p [= <- <-] Hp.
  change ({| SliceStreamer.slices := SliceStreamer.slices st ++ [child];
             SliceStreamer.maps := SliceStreamer.maps st |})
    with (fst (SliceStreamer.alloc st child)).
  rewrite scan_alloc_frame by done. apply sameResult_refl.
Qed.

Lemma Parallel_keepsEvaluations NumCPU st streamer k :
  schedule sched → wellFormed st → 1 ≤ NumCPU →
  keepsEvaluations sched sort_Slice st
    (SliceStreamer.Parallel NumCPU st streamer k).
Proof.
  intros Hsched Hwf Hcpu st' a p Hcall _.
  by apply (scan_Parallel_frame sched sort_Slice NumCPU st streamer k st' a).
Qed.
End Reuse.

(** C3 (as the code has it). [Filter], [Map], [FlatMap], [Sorted], [Offset]
    and [Limit] (the last two for a positive argument) return a new node
    with the receiver as parent and change no existing node. [Parallel]
    does not: it stores the clamped degree in the receiver and returns the
    receiver; the other fields of the receiver and all other nodes stay as
    they were. After any of the seven calls, the streams that existed before
    evaluate as they did before. *)
Theorem C3_builders {V : Type} `{Countable V}
    (sched : nat → list nat)
    (sort_Slice : list V → (V → V → outcome V bool) → outcome V (list V))
    (NumCPU : Z)
    (st : SliceStreamer.store V) (streamer : addr)
    (s : SliceStreamer.SliceStreamer V)
    (filters : list (V → outcome V bool)) (mapper : V → outcome V V)
    (flatMapper : V → outcome V (list V)) (sorter : V → V → outcome V bool)
    (n k : Z) :
  schedule sched → 1 ≤ NumCPU → wellFormed st →
  SliceStreamer.slices st !! streamer = Some s →
  0 < n →
  (buildsChild st streamer (SliceStreamer.Filter st streamer filters)
   ∧ buildsChild st streamer (SliceStreamer.Map st streamer mapper)
   ∧ buildsChild st streamer (SliceStreamer.FlatMap st streamer flatMapper)
   ∧ buildsChild st streamer (SliceStreamer.Sorted st streamer sorter)
   ∧ buildsChild st streamer (SliceStreamer.Offset st streamer n)
   ∧ buildsChild st streamer (SliceStreamer.Limit st streamer n)
   ∧ retunesReceiver NumCPU st streamer k
       (SliceStreamer.Parallel NumCPU st streamer k))
  ∧ (keepsEvaluations sched sort_Slice st (SliceStreamer.Filter st streamer filters)
     ∧ keepsEvaluations sched sort_Slice st (SliceStreamer.Map st streamer mapper)
     ∧ keepsEvaluations sched sort_Slice st
         (SliceStreamer.FlatMap st streamer flatMapper)
     ∧ keepsEvaluations sched sort_Slice st (SliceStreamer.Sorted st streamer sorter)
     ∧ keepsEvaluations sched sort_Slice st (SliceStreamer.Offset st streamer n)
     ∧ keepsEvaluations sched sort_Slice st (SliceStreamer.Limit st streamer n)
     ∧ keepsEvaluations sched sort_Slice st
         (SliceStreamer.Parallel NumCPU st streamer k)).
Proof.
  intros Hsched Hcpu Hwf Hs Hn. split.
  - unfold SliceStreamer.Filter, SliceStreamer.Map, SliceStreamer.FlatMap,
      SliceStreamer.Sorted, SliceStreamer.Offset, SliceStreamer.Limit.
    rewrite Hs. destruct (Z.leb_spec n 0); [lia |].
    repeat split; try by apply alloc_buildsChild.
    by apply (Parallel_retunesReceiver NumCPU st streamer s).
  - unfold SliceStreamer.Filter, SliceStreamer.Map, SliceStreamer.FlatMap,
      SliceStreamer.Sorted, SliceStreamer.Offset, SliceStreamer.Limit.
    rewrite Hs. destruct (Z.leb_spec n 0); [lia |].
    split; [by apply alloc_keepsEvaluations |].
    split; [by apply alloc_keepsEvaluations |].
    split; [by apply alloc_keepsEvaluations |].
    split; [by apply alloc_keepsEvaluations |].
    split; [by apply alloc_keepsEvaluations |].
    split; [by apply alloc_keepsEvaluations |].
    by apply Parallel_keepsEvaluations.
Qed.

Lemma C3_builders_witness :
  buildsChild Fixture.source 0%nat
    (SliceStreamer.Limit Fixture.source 0%nat 2)
  ∧ retunesReceiver Fixture.NumCPU Fixture.source 0%nat 100
      (SliceStreamer.Parallel Fixture.NumCPU Fixture.source 0%nat 100)
  ∧ keepsEvaluations Fixture.reversed Fixture.insertionSort Fixture.source
      (SliceStreamer.Parallel Fixture.NumCPU Fixture.source 0%nat 100).
Proof.
  assert (schedule Fixture.reversed) as Hsched
    by (intros k; unfold Fixture.reversed; symmetry; apply Permutation_rev).
  assert (wellFormed Fixture.source) as Hwf
    by apply wellFormed_OfSlice, wellFormed_empty.
  destruct (C3_builders Fixture.reversed Fixture.insertionSort
              Fixture.NumCPU Fixture.source 0%nat
              (withParallel 1 (MapStream.projected [1; 2; 3; 4; 5; 6; 7] 1))
              [] Fixture.double Fixture.twice (λ x y, Ok (x <? y)) 2 100
              Hsched ltac:(unfold Fixture.NumCPU; lia) Hwf eq_refl ltac:(lia))
    as ((_ & _ & _ & _ & _ & HLimit & HParallel)
        & (_ & _ & _ & _ & _ & _ & Hkeeps)).
  by repeat split.
Defined.

(** [Parallel] on the source of the fixture: the stream returned is the
    receiver, no node was added, and the degree of the receiver went from 1
    to 4. *)
Lemma C3_Parallel_writes_receiver :
  ¬ buildsChild Fixture.source 0%nat
      (SliceStreamer.Parallel Fixture.NumCPU Fixture.source 0%nat 4)
  ∧ Fixture.returned (SliceStreamer.Parallel Fixture.NumCPU Fixture.source 0%nat 4)
    = 0%nat
  ∧ SliceStreamer.parallel <$> SliceStreamer.slices Fixture.source !! 0%nat
    = Some 1
  ∧ SliceStreamer.parallel <$>
      SliceStreamer.slices
        (Fixture.after (SliceStreamer.Parallel Fixture.NumCPU Fixture.source 0%nat 4))
      !! 0%nat
    = Some 4.
Proof.
  split; [| by repeat split].
  intros (st' & a & child & Heq & Hnew & _).
  injection Heq as _ <-. discriminate Hnew.
Qed.

(** * Further properties of the engine *)

(** ** Elementwise stages with operations that do not panic *)

Section PureStages.
Context {V : Type} `{Countable V}.
Variable sched : nat → list nat.
Implicit Types s : SliceStreamer.SliceStreamer V.
Implicit Types data : list V.

Lemma isFilter_pure (ps : list (V → bool)) (x : V) :
  SliceStreamer.isFilter (purePredicates ps) x = Ok (forallb (λ p, p x) ps).
Proof.
  induction ps as [|p ps IH]; [done |]. simpl.
  destruct (p x); [apply IH | done].
Qed.

Lemma traverse_filterOp_bool (fs : list (V → outcome V bool)) (q : V → bool) data :
  (∀ x, x ∈ data → SliceStreamer.isFilter fs x = Ok (q x)) →
  traverse (filterOp fs) data = Ok (filter (λ x, q x = true) data).
Proof.
  induction data as [|x data IH]; intros Hq; [done |]. simpl.
  unfold filterOp at 1. rewrite (Hq x) by left. simpl.
  rewrite IH by (intros y Hy; apply Hq; by right). simpl.
  rewrite filter_cons. by destruct (q x).
Qed.

Lemma traverse_mapOp_pure (g : V → V) data :
  traverse (mapOp (pureMapper g)) data = Ok (g <$> data).
Proof. induction data as [|x data IH]; [done |]. simpl. by rewrite IH. Qed.

Lemma traverse_pureFlatMapper (g : V → list V) data :
  traverse (pureFlatMapper g) data = Ok (concat (g <$> data)).
Proof. induction data as [|x data IH]; [done |]. simpl. by rewrite IH. Qed.

Lemma filter_bool s fs (q : V → bool) data :
  1 ≤ SliceStreamer.parallel s →
  SliceStreamer.filterFunc s = Some fs →
  (∀ x, x ∈ data → SliceStreamer.isFilter fs x = Ok (q x)) →
  SliceStreamer.filter sched s data = Ok (filter (λ x, q x = true) data).
Proof.
  intros Hk Hfs Hq. apply (filter_Ok sched s data fs); [done | done |].
  by apply traverse_filterOp_bool.
Qed.

Lemma map_pure s g data :
  1 ≤ SliceStreamer.parallel s →
  SliceStreamer.mapFunc s = Some (pureMapper g) →
  SliceStreamer._map sched s data = Ok (g <$> data).
Proof.
  intros Hk Hf. rewrite (map_join sched s data _ Hf).
  apply elementwise_Ok; [done | apply traverse_mapOp_pure].
Qed.

Lemma flatMap_pure st s g data :
  1 ≤ SliceStreamer.parallel s →
  SliceStreamer.flatMapFunc s = Some (pureFlatMapper g) →
  SliceStreamer.flatMap sched st s data = Ok (concat (g <$> data)).
Proof.
  intros Hk Hf. rewrite (flatMap_join sched st s data _ Hf).
  apply elementwise_Ok; [done | apply traverse_pureFlatMapper].
Qed.
End PureStages.

(** X1. A filter stage whose predicates do not panic returns exactly the
    elements for which every predicate answers true, in their original
    order, for every valid degree of parallelism and every schedule. *)
Theorem X1_filter_keeps_elements_passing_all {V : Type} `{Countable V}
    (sched : nat → list nat) (s : SliceStreamer.SliceStreamer V)
    (ps : list (V → bool)) (data : list V) :
  1 ≤ SliceStreamer.parallel s →
  SliceStreamer.filterFunc s = Some (purePredicates ps) →
  SliceStreamer.filter sched s data
  = Ok (filter (λ x, forallb (λ p, p x) ps = true) data).
Proof.
  intros Hk Hfs. apply (filter_bool sched s (purePredicates ps)); [done | done |].
  intros x _. apply isFilter_pure.
Qed.

Lemma X1_filter_keeps_elements_passing_all_witness :
  SliceStreamer.filter Fixture.reversed
    {| SliceStreamer.lastStreamer := Some 0%nat;
       SliceStreamer.dataGetter := None;
       SliceStreamer.parallel := 3;
       SliceStreamer.filterFunc :=
         Some (purePredicates [Z.leb 3; λ x, negb (x =? 5)]);
       SliceStreamer.mapFunc := None;
       SliceStreamer.flatMapFunc := None;
       SliceStreamer.sortFunc := None;
       SliceStreamer.offset := 0;
       SliceStreamer.limit := 0 |}
    [1; 2; 3; 4; 5; 6; 7] = Ok [3; 4; 6; 7].
Proof.
  apply (X1_filter_keeps_elements_passing_all Fixture.reversed _
           [Z.leb 3; λ x, negb (x =? 5)] [1; 2; 3; 4; 5; 6; 7]).
  - simpl. lia.
  - reflexivity.
Defined.

(** X2. A map stage whose mapper does not panic returns one element per
    input element, the image of the element at the same position, for every
    valid degree of parallelism and every schedule. *)
Theorem X2_map_keeps_order_and_count {V : Type} `{Countable V}
    (sched : nat → list nat) (s : SliceStreamer.SliceStreamer V)
    (g : V → V) (data : list V) :
  1 ≤ SliceStreamer.parallel s →
  SliceStreamer.mapFunc s = Some (pureMapper g) →
  ∃ result,
    SliceStreamer._map sched s data = Ok result
    ∧ length result = length data
    ∧ ∀ i, result !! i = g <$> data !! i.
Proof.
  intros Hk Hf. exists (g <$> data). split; [by apply map_pure |].
  split; [apply length_fmap |]. intros i. apply list_lookup_fmap.
Qed.

Lemma X2_map_keeps_order_and_count_witness :
  ∃ result,
    SliceStreamer._map Fixture.reversed (withParallel 3 Fixture.mapStage)
      [1; 2; 3; 4; 5; 6; 7] = Ok result
    ∧ result !! 4%nat = Some 10.
Proof.
  destruct (X2_map_keeps_order_and_count Fixture.reversed
              (withParallel 3 Fixture.mapStage) (λ x, 2 * x)
              [1; 2; 3; 4; 5; 6; 7] ltac:(simpl; lia) eq_refl)
    as (result & Hrun & _ & Hat).
  exists result. split; [done |]. by rewrite Hat.
Defined.

(** X3. A flat-map stage whose mapper does not panic returns the
    concatenation, in input order, of the slices the mapper returns, for
    every valid degree of parallelism and every schedule. *)
Theorem X3_flatMap_concatenates_in_order {V : Type} `{Countable V}
    (sched : nat → list nat) (st : SliceStreamer.store V)
    (s : SliceStreamer.SliceStreamer V) (g : V → list V) (data : list V) :
  1 ≤ SliceStreamer.parallel s →
  SliceStreamer.flatMapFunc s = Some (pureFlatMapper g) →
  SliceStreamer.flatMap sched st s data = Ok (concat (g <$> data)).
Proof. intros Hk Hf. by apply flatMap_pure. Qed.

Lemma X3_flatMap_concatenates_in_order_witness :
  SliceStreamer.flatMap Fixture.reversed Fixture.source
    (withParallel 2 Fixture.filterStage) [1; 2; 3]
  = Ok [1; 1; 2; 2; 3; 3].
Proof.
  apply (X3_flatMap_concatenates_in_order Fixture.reversed Fixture.source
           (withParallel 2 Fixture.filterStage) (λ x, [x; x]) [1; 2; 3]).
  - simpl. lia.
  - reflexivity.
Defined.

(** X4. The predicates of a filter stage are asked in order and only until
    one answers false: a second predicate that panics on some elements does
    no harm as long as the first predicate rejects those elements. *)
Theorem X4_filter_stops_at_first_false {V : Type} `{Countable V}
    (sched : nat → list nat) (s : SliceStreamer.SliceStreamer V)
    (guard : V → bool) (risky : V → outcome V bool) (data : list V) :
  1 ≤ SliceStreamer.parallel s →
  SliceStreamer.filterFunc s = Some [λ x, Ok (guard x); risky] →
  (∀ x, x ∈ data → guard x = true → ∃ b, risky x = Ok b) →
  SliceStreamer.filter sched s data
  = Ok (filter (λ x, guard x && answers risky x = true) data).
Proof.
  intros Hk Hfs Hrisky.
  apply (filter_bool sched s [λ x, Ok (guard x); risky]); [done | done |].
  intros x Hx. simpl. unfold answers.
  destruct (guard x) eqn:Hg; [| done].
  destruct (Hrisky x Hx Hg) as [b ->]. by destruct b.
Qed.

Lemma X4_filter_stops_at_first_false_witness :
  SliceStreamer.filter Fixture.reversed
    {| SliceStreamer.lastStreamer := Some 0%nat;
       SliceStreamer.dataGetter := None;
       SliceStreamer.parallel := 2;
       SliceStreamer.filterFunc :=
         Some [λ x, Ok (x <? 3);
               λ x, if x <? 3 then Ok (x =? 2) else Panic (Raised x)];
       SliceStreamer.mapFunc := None;
       SliceStreamer.flatMapFunc := None;
       SliceStreamer.sortFunc := None;
       SliceStreamer.offset := 0;
       SliceStreamer.limit := 0 |}
    [1; 2; 3; 4; 5] = Ok [2].
Proof.
  apply (X4_filter_stops_at_first_false Fixture.reversed _ (λ x, x <? 3)
           (λ x, if x <? 3 then Ok (x =? 2) else Panic (Raised x))
           [1; 2; 3; 4; 5]).
  - simpl. lia.
  - reflexivity.
  - intros x _ Hx. rewrite Hx. by eexists.
Defined.

(** ** How the data is spread over the goroutines *)

Section BatchSizes.
Context {A : Type}.
Implicit Types data : list A.

Lemma batches_lookup_inner data k (i : nat) :
  1 ≤ k → (i < Z.to_nat (k - 1))%nat →
  batches data k !! i
  = Some (take (Z.to_nat (Z.of_nat (length data) / k))
               (drop (i * Z.to_nat (Z.of_nat (length data) / k)) data)).
Proof.
  intros Hk Hi. rewrite batches_split by done.
  rewrite lookup_app_l by (by rewrite length_map, length_seq).
  change (map ?f ?l) with (f <$> l). rewrite list_lookup_fmap.
  rewrite lookup_seq_lt by done. simpl.
  rewrite slice_inner by (apply Z.div_pos; lia). done.
Qed.

Lemma batches_lookup_last data k :
  1 ≤ k →
  batches data k !! Z.to_nat (k - 1)
  = Some (drop (Z.to_nat (k - 1) * Z.to_nat (Z.of_nat (length data) / k)) data).
Proof.
  intros Hk. rewrite batches_split by done.
  rewrite lookup_app_r by (by rewrite length_map, length_seq).
  by rewrite length_map, length_seq, Nat.sub_diag.
Qed.
End BatchSizes.

(** X5. Of the [k] batches of a join over [n] elements, every batch but the
    last has [n / k] elements and the last has the [n - (k - 1) * (n / k)]
    that remain; with more goroutines than elements, the last goroutine
    gets all of the data and the others get nothing. *)
Theorem X5_batch_sizes {A : Type} (data : list A) (k : Z) (i : nat)
    (batch : list A) :
  1 ≤ k →
  batches data k !! i = Some batch →
  Z.of_nat (length batch)
  = (if decide (Z.of_nat i = k - 1)
     then Z.of_nat (length data) - (k - 1) * (Z.of_nat (length data) / k)
     else Z.of_nat (length data) / k)
  ∧ (Z.of_nat (length data) < k →
     batch = if decide (Z.of_nat i = k - 1) then data else []).
Proof.
  intros Hk Hi.
  assert (i < Z.to_nat k)%nat as Hlt
    by (apply lookup_lt_Some in Hi; by rewrite length_batches in Hi).
  pose proof (Z.div_pos (Z.of_nat (length data)) k ltac:(lia) ltac:(lia)) as Hb.
  pose proof (Z.mul_div_le (Z.of_nat (length data)) k ltac:(lia)) as Hle.
  destruct (decide (Z.of_nat i = k - 1)) as [Hlast|Hinner].
  - replace i with (Z.to_nat (k - 1)) in Hi by lia.
    rewrite batches_lookup_last in Hi by done. injection Hi as <-.
    split.
    + rewrite length_drop. nia.
    + intros Hfew. rewrite Z.div_small by lia. simpl.
      by rewrite Nat.mul_0_r, drop_0.
  - rewrite batches_lookup_inner in Hi by lia. injection Hi as <-.
    split.
    + rewrite length_take, length_drop. nia.
    + intros Hfew. rewrite Z.div_small by lia. done.
Qed.

Lemma X5_batch_sizes_witness :
  Z.of_nat (length [5; 6; 7]) = 7 - (3 - 1) * (7 / 3)
  ∧ (7 < 3 → [5; 6; 7] = [1; 2; 3; 4; 5; 6; 7]).
Proof.
  exact (X5_batch_sizes [1; 2; 3; 4; 5; 6; 7] 3 2%nat [5; 6; 7]
           ltac:(lia) eq_refl).
Defined.

(** ** The window, for offsets and limits the builders can store *)

(** X6. For a leaf whose offset and limit are not negative, taking the
    window never panics: it returns the elements from the offset on, or
    from the first element on when the offset is not below the length, and
    of those at most [limit] when the limit is positive, all of them when it
    is 0. *)
Theorem X6_window_is_a_segment {V : Type}
    (leaf : SliceStreamer.SliceStreamer V) (newData : list V) :
  0 ≤ SliceStreamer.offset leaf → 0 ≤ SliceStreamer.limit leaf →
  ∃ r,
    SliceStreamer.window leaf newData = Ok r
    ∧ r = (let skipped :=
             if SliceStreamer.offset leaf <? Z.of_nat (length newData)
             then Z.to_nat (SliceStreamer.offset leaf) else 0%nat in
           let rest := drop skipped newData in
           if SliceStreamer.limit leaf =? 0 then rest
           else take (Z.to_nat (SliceStreamer.limit leaf)) rest)
    ∧ (length r ≤ length newData)%nat
    ∧ (0 < SliceStreamer.limit leaf →
       Z.of_nat (length r) ≤ SliceStreamer.limit leaf).
Proof.
  intros Ho Hl.
  exists (let skipped :=
            if SliceStreamer.offset leaf <? Z.of_nat (length newData)
            then Z.to_nat (SliceStreamer.offset leaf) else 0%nat in
          let rest := drop skipped newData in
          if SliceStreamer.limit leaf =? 0 then rest
          else take (Z.to_nat (SliceStreamer.limit leaf)) rest).
  split; [| split; [reflexivity |]].
  - destruct (Z.ltb_spec (SliceStreamer.offset leaf) (Z.of_nat (length newData))).
    + by apply window_inside.
    + simpl. rewrite drop_0. by apply window_beyond.
  - simpl. destruct (SliceStreamer.limit leaf =? 0) eqn:Hz.
    + rewrite length_drop. split; [lia |]. apply Z.eqb_eq in Hz. lia.
    + rewrite length_take, length_drop. split; lia.
Qed.

Lemma X6_window_is_a_segment_witness :
  ∃ r,
    SliceStreamer.window (withWindow 2 3 Fixture.mapStage) [1; 2; 3; 4; 5; 6; 7]
    = Ok r
    ∧ r = [3; 4; 5].
Proof.
  destruct (X6_window_is_a_segment (withWindow 2 3 Fixture.mapStage)
              [1; 2; 3; 4; 5; 6; 7] ltac:(simpl; lia) ltac:(simpl; lia))
    as (r & Hrun & Hr & _).
  exists r. by split.
Defined.

(** X7. Round trip through the engine: whatever the store holds and
    whatever the destination slice held before, [OfSlice(data)] followed by
    [Scan] writes exactly [data] into the destination, [Count] returns its
    length, and [First] returns its first element if there is one. *)
Theorem X7_OfSlice_Scan_round_trip {V : Type} `{Countable V}
    (sched : nat → list nat)
    (sort_Slice : list V → (V → V → outcome V bool) → outcome V (list V))
    (st : SliceStreamer.store V) (data prior : list V) (result : V) :
  SliceStreamer.Scan sched sort_Slice
    (fst (SliceStreamer.OfSlice st data)) (snd (SliceStreamer.OfSlice st data))
    prior
  = (data, Ok ())
  ∧ SliceStreamer.Count sched sort_Slice
      (fst (SliceStreamer.OfSlice st data)) (snd (SliceStreamer.OfSlice st data))
    = Ok (Z.of_nat (length data))
  ∧ SliceStreamer.First sched sort_Slice
      (fst (SliceStreamer.OfSlice st data)) (snd (SliceStreamer.OfSlice st data))
      result
    = match data with
      | [] => (result, Ok false)
      | x :: _ => (x, Ok true)
      end.
Proof.
  assert (SliceStreamer.scan sched sort_Slice
            (fst (SliceStreamer.OfSlice st data))
            (snd (SliceStreamer.OfSlice st data)) = Ok data) as Hscan.
  { unfold SliceStreamer.OfSlice, SliceStreamer.alloc. simpl.
    erewrite scan_plain_root; simpl;
      [| by rewrite lookup_app_r, Nat.sub_diag | done..].
    by apply window_none. }
  split; [| split].
  - unfold SliceStreamer.Scan. by rewrite Hscan, snoc_all.
  - unfold SliceStreamer.Count. by rewrite Hscan.
  - by apply First_spec.
Qed.

(** ** Picking one element of an evaluated sequence *)

(** X8. On a pipeline that evaluates to a sequence, [IndexAt(i)] with
    [0 <= i] finds element [i] exactly when [i] is below the length and
    otherwise leaves the destination as it was; [First] is [IndexAt(0)];
    [Last] on a sequence that is not empty finds its last element; and a
    negative index makes [IndexAt] panic with an index out of range. *)
Theorem X8_picking_elements {V : Type} `{Countable V}
    (sched : nat → list nat)
    (sort_Slice : list V → (V → V → outcome V bool) → outcome V (list V))
    (st : SliceStreamer.store V) (streamer : addr)
    (scanResult : list V) (index : Z) (result : V) :
  SliceStreamer.scan sched sort_Slice st streamer = Ok scanResult →
  (0 ≤ index →
   SliceStreamer.IndexAt sched sort_Slice st streamer index result
   = match scanResult !! Z.to_nat index with
     | Some x => (x, Ok true)
     | None => (result, Ok false)
     end)
  ∧ (index < 0 →
     SliceStreamer.IndexAt sched sort_Slice st streamer index result
     = (result, Panic (Runtime IndexOutOfRange)))
  ∧ SliceStreamer.First sched sort_Slice st streamer result
    = SliceStreamer.IndexAt sched sort_Slice st streamer 0 result
  ∧ (∀ x, last scanResult = Some x →
          SliceStreamer.Last sched sort_Slice st streamer result = (x, Ok true)).
Proof.
  intros Hscan. split; [| split; [| split]].
  - intros Hi. by apply IndexAt_spec.
  - intros Hi. unfold SliceStreamer.IndexAt. rewrite Hscan.
    by apply indexAt_negative.
  - done.
  - intros x Hx. by rewrite (Last_spec sched sort_Slice st streamer result scanResult), Hx.
Qed.

Lemma X8_picking_elements_witness :
  SliceStreamer.IndexAt Fixture.reversed Fixture.insertionSort Fixture.tuned
    2%nat 4 0 = (14, Ok true)
  ∧ SliceStreamer.Last Fixture.reversed Fixture.insertionSort Fixture.tuned
      2%nat 0 = (14, Ok true).
Proof.
  destruct (X8_picking_elements Fixture.reversed Fixture.insertionSort
              Fixture.tuned 2%nat [6; 8; 10; 12; 14] 4 0 eq_refl)
    as (Hat & _ & _ & Hlast).
  split; [by apply Hat | by apply Hlast].
Defined.

(** ** How the builders compose *)

Section Composition.
Context {V : Type} `{Countable V}.
Variable sched : nat → list nat.
Variable sort_Slice : list V → (V → V → outcome V bool) → outcome V (list V).
Implicit Types st : SliceStreamer.store V.
Implicit Types s child : SliceStreamer.SliceStreamer V.

Lemma chain_head {N} (last : N → option addr) (h : list N) fuel a l :
  chain (V:=V) last h fuel (Some a) = Ok l →
  ∃ n l', l = n :: l' ∧ h !! a = Some n.
Proof.
  destruct fuel as [|fuel]; [done |]. simpl.
  destruct (h !! a) as [n|]; [| done].
  intros (l' & _ & [= <-])%bind_Ok_inv. eauto.
Qed.

(** [scan] is the window of the leaf over the sequence of its stages. *)
Lemma scan_unwindowed st streamer leaf :
  SliceStreamer.slices st !! streamer = Some leaf →
  SliceStreamer.scan sched sort_Slice st streamer
  = (newData ⇐ unwindowed sched sort_Slice st streamer ;;
     SliceStreamer.window leaf newData).
Proof.
  intros Hleaf. unfold SliceStreamer.scan, unwindowed.
  destruct (SliceStreamer.streamerList st streamer) as [l|p] eqn:Hl; [| done].
  apply chain_head in Hl as (n & l' & -> & Hn).
  assert (n = leaf) as -> by congruence. cbn [bind].
  destruct (last (leaf :: l')); [| done].
  by destruct (SliceStreamer.getData sched st _).
Qed.

Lemma window_ext s s' (data : list V) :
  SliceStreamer.offset s' = SliceStreamer.offset s →
  SliceStreamer.limit s' = SliceStreamer.limit s →
  SliceStreamer.window s' data = SliceStreamer.window s data.
Proof. intros Ho Hl. unfold SliceStreamer.window. by rewrite Ho, Hl. Qed.

(** The stages of a fresh child are the stages of its parent followed by
    its own round of the replay loop. *)
Lemma unwindowed_child st streamer s child :
  wellFormed st →
  SliceStreamer.slices st !! streamer = Some s →
  SliceStreamer.lastStreamer child = Some streamer →
  unwindowed sched sort_Slice (fst (SliceStreamer.alloc st child))
    (length (SliceStreamer.slices st))
  = (d ⇐ unwindowed sched sort_Slice st streamer ;;
     SliceStreamer.stage sched sort_Slice st child d).
Proof.
  intros (Hparents & _) Hs Hparent. apply lookup_lt_Some in Hs as Hlt.
  unfold unwindowed, SliceStreamer.streamerList. simpl.
  rewrite length_app. simpl. rewrite Nat.add_1_r. simpl.
  rewrite lookup_app_r, Nat.sub_diag by lia. simpl. rewrite Hparent.
  rewrite (chain_frame _ _ _ (length (SliceStreamer.slices st))) by done.
  destruct (chain SliceStreamer.lastStreamer (SliceStreamer.slices st)
              (length (SliceStreamer.slices st)) (Some streamer))
    as [l|p] eqn:Hl; [| done].
  apply chain_head in Hl as (n & l' & -> & _). cbn [bind].
  rewrite last_cons. destruct (last (n :: l')) as [root|] eqn:Hroot;
    [| by apply last_None in Hroot].
  rewrite (getData_frame sched st) by done.
  destruct (SliceStreamer.getData sched st (SliceStreamer.dataGetter root));
    [| done].
  cbn [bind]. change (rev (child :: n :: l')) with (rev (n :: l') ++ [child]).
  rewrite replay_app, (replay_frame sched sort_Slice st) by done.
  destruct (SliceStreamer.replay sched sort_Slice st (rev (n :: l')) t);
    [| done].
  simpl. rewrite (stage_frame sched sort_Slice st) by done.
  by destruct (SliceStreamer.stage sched sort_Slice st child t0).
Qed.

(** What a fresh child evaluates to. *)
Lemma scan_child st streamer s child d :
  wellFormed st →
  SliceStreamer.slices st !! streamer = Some s →
  SliceStreamer.lastStreamer child = Some streamer →
  unwindowed sched sort_Slice st streamer = Ok d →
  SliceStreamer.scan sched sort_Slice (fst (SliceStreamer.alloc st child))
    (length (SliceStreamer.slices st))
  = (d' ⇐ SliceStreamer.stage sched sort_Slice st child d ;;
     SliceStreamer.window child d').
Proof.
  intros Hwf Hs Hparent Hd.
  rewrite (scan_unwindowed _ _ child)
    by (simpl; by rewrite lookup_app_r, Nat.sub_diag).
  by rewrite (unwindowed_child st streamer s child), Hd.
Qed.
End Composition.

(** X9. A stage built on a stream evaluates the stages of that stream, then
    its own operation, and only then takes the window, with the offset and
    limit it inherited: for operations that do not panic, [Filter], [Map]
    and [FlatMap] on a stream whose stages produce [d] evaluate to the
    window of the parent over the filtered, mapped or flattened [d], and
    [Sorted] to the window over what [sort.Slice] makes of [d]. An offset or
    limit set before the stage therefore applies after it. *)
Theorem X9_stage_then_inherited_window {V : Type} `{Countable V}
    (sched : nat → list nat)
    (sort_Slice : list V → (V → V → outcome V bool) → outcome V (list V))
    (st : SliceStreamer.store V) (streamer : addr)
    (s : SliceStreamer.SliceStreamer V) (d : list V)
    (ps : list (V → bool)) (g : V → V) (h : V → list V)
    (sorter : V → V → outcome V bool) :
  wellFormed st →
  SliceStreamer.slices st !! streamer = Some s →
  unwindowed sched sort_Slice st streamer = Ok d →
  (∀ st' a,
     SliceStreamer.Filter st streamer (purePredicates ps) = Ok (st', a) →
     SliceStreamer.scan sched sort_Slice st' a
     = SliceStreamer.window s (filter (λ x, forallb (λ p, p x) ps = true) d))
  ∧ (∀ st' a,
       SliceStreamer.Map st streamer (pureMapper g) = Ok (st', a) →
       SliceStreamer.scan sched sort_Slice st' a
       = SliceStreamer.window s (g <$> d))
  ∧ (∀ st' a,
       SliceStreamer.FlatMap st streamer (pureFlatMapper h) = Ok (st', a) →
       SliceStreamer.scan sched sort_Slice st' a
       = SliceStreamer.window s (concat (h <$> d)))
  ∧ (∀ st' a,
       SliceStreamer.Sorted st streamer sorter = Ok (st', a) →
       SliceStreamer.scan sched sort_Slice st' a
       = (d' ⇐ sort_Slice d sorter ;; SliceStreamer.window s d')).
Proof.
  intros Hwf Hs Hd. pose proof Hwf as (_ & _ & Hranges & _).
  rewrite Forall_lookup in Hranges. destruct (Hranges _ _ Hs) as (Hk & _).
  unfold SliceStreamer.Filter, SliceStreamer.Map, SliceStreamer.FlatMap,
    SliceStreamer.Sorted. rewrite Hs.
  split; [| split; [| split]]; intros st' a [= <- <-].
  - match goal with
    | |- SliceStreamer.scan _ _ ?st' _ = _ =>
      change st' with (fst (SliceStreamer.alloc st
        {| SliceStreamer.lastStreamer := Some streamer;
           SliceStreamer.dataGetter := None;
           SliceStreamer.parallel := SliceStreamer.parallel s;
           SliceStreamer.filterFunc := Some (purePredicates ps);
           SliceStreamer.mapFunc := None;
           SliceStreamer.flatMapFunc := None;
           SliceStreamer.sortFunc := None;
           SliceStreamer.offset := SliceStreamer.offset s;
           SliceStreamer.limit := SliceStreamer.limit s |}))
    end.
    rewrite (scan_child sched sort_Slice st streamer s _ d) by done.
    unfold SliceStreamer.stage. simpl.
    rewrite (filter_bool sched _ (purePredicates ps)
               (λ x, forallb (λ p, p x) ps) d)
      by (try done; intros x _; apply isFilter_pure).
    simpl. by apply window_ext.
  - match goal with
    | |- SliceStreamer.scan _ _ ?st' _ = _ =>
      change st' with (fst (SliceStreamer.alloc st
        {| SliceStreamer.lastStreamer := Some streamer;
           SliceStreamer.dataGetter := None;
           SliceStreamer.parallel := SliceStreamer.parallel s;
           SliceStreamer.filterFunc := None;
           SliceStreamer.mapFunc := Some (pureMapper g);
           SliceStreamer.flatMapFunc := None;
           SliceStreamer.sortFunc := None;
           SliceStreamer.offset := SliceStreamer.offset s;
           SliceStreamer.limit := SliceStreamer.limit s |}))
    end.
    rewrite (scan_child sched sort_Slice st streamer s _ d) by done.
    unfold SliceStreamer.stage. simpl.
    rewrite (map_pure sched _ g d) by done.
    simpl. by apply window_ext.
  - match goal with
    | |- SliceStreamer.scan _ _ ?st' _ = _ =>
      change st' with (fst (SliceStreamer.alloc st
        {| SliceStreamer.lastStreamer := Some streamer;
           SliceStreamer.dataGetter := None;
           SliceStreamer.parallel := SliceStreamer.parallel s;
           SliceStreamer.filterFunc := None;
           SliceStreamer.mapFunc := None;
           SliceStreamer.flatMapFunc := Some (pureFlatMapper h);
           SliceStreamer.sortFunc := None;
           SliceStreamer.offset := SliceStreamer.offset s;
           SliceStreamer.limit := SliceStreamer.limit s |}))
    end.
    rewrite (scan_child sched sort_Slice st streamer s _ d) by done.
    unfold SliceStreamer.stage. simpl.
    rewrite (flatMap_pure sched _ _ h d) by done.
    simpl. by apply window_ext.
  - match goal with
    | |- SliceStreamer.scan _ _ ?st' _ = _ =>
      change st' with (fst (SliceStreamer.alloc st
        {| SliceStreamer.lastStreamer := Some streamer;
           SliceStreamer.dataGetter := None;
           SliceStreamer.parallel := SliceStreamer.parallel s;
           SliceStreamer.filterFunc := None;
           SliceStreamer.mapFunc := None;
           SliceStreamer.flatMapFunc := None;
           SliceStreamer.sortFunc := Some sorter;
           SliceStreamer.offset := SliceStreamer.offset s;
           SliceStreamer.limit := SliceStreamer.limit s |}))
    end.
    rewrite (scan_child sched sort_Slice st streamer s _ d) by done.
    unfold SliceStreamer.stage. simpl.
    destruct (sort_Slice d sorter); simpl; [by apply window_ext | done].
Qed.

Lemma X9_stage_then_inherited_window_witness :
  let st := Fixture.after (SliceStreamer.Offset Fixture.source 0%nat 2) in
  let o := SliceStreamer.Filter st 1%nat (purePredicates [Z.leb 3]) in
  SliceStreamer.scan Fixture.inOrder Fixture.insertionSort
    (Fixture.after o) (Fixture.returned o)
  = Ok [5; 6; 7].
Proof.
  intros st o.
  assert (wellFormed st) as Hwf.
  { apply (wellFormed_Offset Fixture.source 0%nat 2 st 1%nat);
      [apply wellFormed_OfSlice, wellFormed_empty | reflexivity]. }
  destruct (X9_stage_then_inherited_window Fixture.inOrder
              Fixture.insertionSort st 1%nat
              (withWindow 2 0 (withParallel 1
                 {| SliceStreamer.lastStreamer := Some 0%nat;
                    SliceStreamer.dataGetter := None;
                    SliceStreamer.parallel := 1;
                    SliceStreamer.filterFunc := None;
                    SliceStreamer.mapFunc := None;
                    SliceStreamer.flatMapFunc := None;
                    SliceStreamer.sortFunc := None;
                    SliceStreamer.offset := 0;
                    SliceStreamer.limit := 0 |}))
              [1; 2; 3; 4; 5; 6; 7] [Z.leb 3] (λ x, x) (λ x, [x])
              (λ x y, Ok (x <? y)) Hwf eq_refl eq_refl) as (HFilter & _).
  rewrite (HFilter (Fixture.after o) (Fixture.returned o) eq_refl).
  reflexivity.
Defined.

(** X10. [Offset(n)] and [Limit(n)] with a positive [n] replace the offset,
    respectively the limit, the stream had: the child evaluates to the
    window with the new bound and the other bound of the parent, taken over
    the sequence the stages of the parent produce, not over the window of
    the parent. Two offsets in a row do not add up. *)
Theorem X10_Offset_and_Limit_replace {V : Type} `{Countable V}
    (sched : nat → list nat)
    (sort_Slice : list V → (V → V → outcome V bool) → outcome V (list V))
    (st : SliceStreamer.store V) (streamer : addr)
    (s : SliceStreamer.SliceStreamer V) (d : list V) (n : Z) :
  wellFormed st →
  SliceStreamer.slices st !! streamer = Some s →
  unwindowed sched sort_Slice st streamer = Ok d →
  0 < n →
  (∀ st' a,
     SliceStreamer.Offset st streamer n = Ok (st', a) →
     SliceStreamer.scan sched sort_Slice st' a
     = SliceStreamer.window (withWindow n (SliceStreamer.limit s) s) d)
  ∧ (∀ st' a,
       SliceStreamer.Limit st streamer n = Ok (st', a) →
       SliceStreamer.scan sched sort_Slice st' a
       = SliceStreamer.window (withWindow (SliceStreamer.offset s) n s) d).
Proof.
  intros Hwf Hs Hd Hn.
  unfold SliceStreamer.Offset, SliceStreamer.Limit. rewrite Hs.
  destruct (Z.leb_spec n 0); [lia |].
  split; intros st' a [= <- <-].
  - match goal with
    | |- SliceStreamer.scan _ _ ?st' _ = _ =>
      change st' with (fst (SliceStreamer.alloc st
        {| SliceStreamer.lastStreamer := Some streamer;
           SliceStreamer.dataGetter := None;
           SliceStreamer.parallel := SliceStreamer.parallel s;
           SliceStreamer.filterFunc := None;
           SliceStreamer.mapFunc := None;
           SliceStreamer.flatMapFunc := None;
           SliceStreamer.sortFunc := None;
           SliceStreamer.offset := n;
           SliceStreamer.limit := SliceStreamer.limit s |}))
    end.
    rewrite (scan_child sched sort_Slice st streamer s _ d) by done.
    unfold SliceStreamer.stage. simpl. by apply window_ext.
  - match goal with
    | |- SliceStreamer.scan _ _ ?st' _ = _ =>
      change st' with (fst (SliceStreamer.alloc st
        {| SliceStreamer.lastStreamer := Some streamer;
           SliceStreamer.dataGetter := None;
           SliceStreamer.parallel := SliceStreamer.parallel s;
           SliceStreamer.filterFunc := None;
           SliceStreamer.mapFunc := None;
           SliceStreamer.flatMapFunc := None;
           SliceStreamer.sortFunc := None;
           SliceStreamer.offset := SliceStreamer.offset s;
           SliceStreamer.limit := n |}))
    end.
    rewrite (scan_child sched sort_Slice st streamer s _ d) by done.
    unfold SliceStreamer.stage. simpl. by apply window_ext.
Qed.

Lemma X10_Offset_and_Limit_replace_witness :
  let st := Fixture.after (SliceStreamer.Offset Fixture.source 0%nat 2) in
  let o := SliceStreamer.Offset st 1%nat 3 in
  SliceStreamer.scan Fixture.inOrder Fixture.insertionSort
    (Fixture.after o) (Fixture.returned o)
  = Ok [4; 5; 6; 7].
Proof.
  intros st o.
  assert (wellFormed st) as Hwf.
  { apply (wellFormed_Offset Fixture.source 0%nat 2 st 1%nat);
      [apply wellFormed_OfSlice, wellFormed_empty | reflexivity]. }
  destruct (X10_Offset_and_Limit_replace Fixture.inOrder
              Fixture.insertionSort st 1%nat
              (withWindow 2 0 (withParallel 1
                 {| SliceStreamer.lastStreamer := Some 0%nat;
                    SliceStreamer.dataGetter := None;
                    SliceStreamer.parallel := 1;
                    SliceStreamer.filterFunc := None;
                    SliceStreamer.mapFunc := None;
                    SliceStreamer.flatMapFunc := None;
                    SliceStreamer.sortFunc := None;
                    SliceStreamer.offset := 0;
                    SliceStreamer.limit := 0 |}))
              [1; 2; 3; 4; 5; 6; 7] 3 Hwf eq_refl eq_refl ltac:(lia))
    as (HOffset & _).
  rewrite (HOffset (Fixture.after o) (Fixture.returned o) eq_refl).
  reflexivity.
Defined.

(** ** Aggregation by key *)

Section KeyedFacts.
Context {V : Type} `{Countable V}.
Variable key : V → V.
Implicit Types data : list V.

Lemma lastWith_elem k x data :
  lastWith key k data = Some x → x ∈ data ∧ key x = k.
Proof.
  unfold lastWith, group. intros Hlast.
  apply last_Some in Hlast as (l & Hl).
  assert (x ∈ filter (λ y, key y = k) data) as Hx
    by (rewrite Hl; apply elem_of_app; right; left).
  by apply list_elem_of_filter in Hx as (? & ?).
Qed.

(** With keys that identify the elements, each element is the last one
    with its key. *)
Lemma lastWith_unique x data :
  NoDup (key <$> data) → x ∈ data → lastWith key (key x) data = Some x.
Proof.
  intros Hnodup (i & Hi)%list_elem_of_lookup_1.
  apply (lastWith_highest key data i x Hi). intros j y Hlt Hj Heq.
  assert (i = j); [| lia].
  apply (NoDup_lookup (key <$> data) i j (key x)); [done | |].
  - by rewrite list_lookup_fmap, Hi.
  - rewrite list_lookup_fmap, Hj. simpl. by rewrite Heq.
Qed.
End KeyedFacts.

(** X11. [toMap] and [groupBy] agree: run over the same sequence with the
    same key extractor into destinations without entries, in executions in
    which the store of every goroutine is in [resultCollection] (as it is
    with one goroutine), both return, no group is empty, and the element
    [toMap] leaves under a key is the last element of the group [groupBy]
    leaves under that key; the two maps have the same keys. *)
Theorem X11_toMap_keeps_last_of_each_group {V : Type} `{Countable V}
    (sched : nat → list nat) (raceG raceT : nat → mapWrites)
    (s : SliceStreamer.SliceStreamer V)
    (key : V → V) (data : list V) :
  1 ≤ SliceStreamer.parallel s →
  landed raceG (SliceStreamer.parallel s) →
  landed raceT (SliceStreamer.parallel s) →
  ∃ groups entries,
    SliceStreamer.groupBy sched raceG s (pureKeyer key) data ∅ = (groups, Ok ())
    ∧ SliceStreamer.toMap sched raceT s (pureKeyer key) data ∅ = (entries, Ok ())
    ∧ (∀ k g, groups !! k = Some g → g ≠ [])
    ∧ (∀ k, entries !! k = groups !! k ≫= last)
    ∧ (∀ k, is_Some (entries !! k) ↔ is_Some (groups !! k)).
Proof.
  intros Hk HlandedG HlandedT.
  destruct (groupBy_lookup sched raceG key s data ∅ Hk HlandedG)
    as (groups & Hgroups & Hg).
  destruct (toMap_lookup sched raceT key s data ∅ Hk HlandedT)
    as (entries & Hentries & He).
  exists groups, entries.
  assert (∀ k, entries !! k = groups !! k ≫= last) as Hlast.
  { intros k. rewrite He, Hg, !lookup_empty. unfold lastWith.
    destruct (group key k data) as [|x g] eqn:Hgroup; [done |]. simpl.
    by destruct (last (x :: g)) eqn:Hl; [| apply last_None in Hl]. }
  assert (∀ k g, groups !! k = Some g → g ≠ []) as Hne.
  { intros k g. rewrite Hg, lookup_empty.
    destruct (group key k data); simpl; [done |]. by intros [= <-]. }
  split; [done |]. split; [done |]. split; [done |]. split; [done |].
  intros k. rewrite Hlast. destruct (groups !! k) as [g|] eqn:Hgk; simpl.
  - split; [by eauto |]. intros _.
    destruct (last g) eqn:Hl; [by eauto |].
    apply last_None in Hl. by destruct (Hne k g).
  - split; by intros [? ?].
Qed.

Lemma X11_toMap_keeps_last_of_each_group_witness :
  ∃ groups entries,
    SliceStreamer.groupBy Fixture.reversed Fixture.serial
      (withParallel 3 (MapStream.projected [] 1))
      (pureKeyer (λ x, x mod 2)) [1; 2; 3; 4; 5; 6; 7] ∅ = (groups, Ok ())
    ∧ SliceStreamer.toMap Fixture.reversed Fixture.serial
        (withParallel 3 (MapStream.projected [] 1))
        (pureKeyer (λ x, x mod 2)) [1; 2; 3; 4; 5; 6; 7] ∅ = (entries, Ok ())
    ∧ ∀ k, entries !! k = groups !! k ≫= last.
Proof.
  assert (landed Fixture.serial 3) as Hlanded by (right; by eexists).
  destruct (X11_toMap_keeps_last_of_each_group Fixture.reversed
              Fixture.serial Fixture.serial
              (withParallel 3 (MapStream.projected [] 1))
              (λ x, x mod 2) [1; 2; 3; 4; 5; 6; 7])
    as (groups & entries & Hg & He & _ & Hlast & _).
  - simpl. lia.
  - exact Hlanded.
  - exact Hlanded.
  - by exists groups, entries.
Defined.

(** X12. When the key extractor gives every element of the sequence a key of
    its own, [toMap] into a destination without entries is a round trip in
    executions in which the store of every goroutine is in
    [resultCollection] (as it is with one goroutine): every element is found
    under its key, every entry is an element of the sequence stored under
    its own key, and the map has as many entries as the sequence has
    elements. *)
Theorem X12_toMap_with_unique_keys {V : Type} `{Countable V}
    (sched : nat → list nat) (race : nat → mapWrites)
    (s : SliceStreamer.SliceStreamer V)
    (key : V → V) (data : list V) :
  1 ≤ SliceStreamer.parallel s →
  landed race (SliceStreamer.parallel s) →
  NoDup (key <$> data) →
  ∃ entries,
    SliceStreamer.toMap sched race s (pureKeyer key) data ∅ = (entries, Ok ())
    ∧ (∀ x, x ∈ data → entries !! key x = Some x)
    ∧ (∀ k x, entries !! k = Some x → x ∈ data ∧ key x = k)
    ∧ size entries = length data.
Proof.
  intros Hk Hlanded Hnodup.
  destruct (toMap_lookup sched race key s data ∅ Hk Hlanded)
    as (entries & Hentries & He).
  exists entries. split; [done |].
  assert (∀ k x, entries !! k = Some x → x ∈ data ∧ key x = k) as Hback.
  { intros k x. rewrite He, lookup_empty.
    destruct (lastWith key k data) as [y|] eqn:Hy; [| done].
    intros [= <-]. by apply (lastWith_elem key k y data). }
  assert (∀ x, x ∈ data → entries !! key x = Some x) as Hthere.
  { intros x Hx. by rewrite He, (lastWith_unique key x data). }
  split; [done |]. split; [done |].
  assert (entries = list_to_map ((λ x, (key x, x)) <$> data)) as ->.
  { apply map_eq. intros k.
    destruct (list_to_map ((λ x, (key x, x)) <$> data) !! k) as [x|] eqn:Hl.
    - apply elem_of_list_to_map_2, list_elem_of_fmap in Hl
        as (y & [= -> ->] & Hy).
      by apply Hthere.
    - apply not_elem_of_list_to_map in Hl.
      destruct (entries !! k) as [x|] eqn:Hx; [| done].
      destruct (Hback k x Hx) as (Hin & <-). destruct Hl.
      rewrite <- list_fmap_compose. apply list_elem_of_fmap. by exists x. }
  rewrite <- (length_fmap (λ x, (key x, x)) data).
  apply map_size_list_to_map. by rewrite <- list_fmap_compose.
Qed.

(** One goroutine: whatever the run time would make of concurrent stores,
    there are none. *)
Lemma X12_toMap_with_unique_keys_witness :
  ∃ entries : gmap Z Z,
    SliceStreamer.toMap Fixture.reversed Fixture.noticed
      (withParallel 1 (MapStream.projected [] 1))
      (pureKeyer (λ x, 10 * x)) [1; 2; 3; 4; 5; 6; 7] ∅ = (entries, Ok ())
    ∧ entries !! 30 = Some 3
    ∧ size entries = 7%nat.
Proof.
  destruct (X12_toMap_with_unique_keys Fixture.reversed Fixture.noticed
              (withParallel 1 (MapStream.projected [] 1))
              (λ x, 10 * x) [1; 2; 3; 4; 5; 6; 7])
    as (entries & He & Hthere & _ & Hsize).
  - simpl. lia.
  - left. simpl. lia.
  - vm_compute. repeat constructor; intros Hin;
      repeat (apply elem_of_cons in Hin as [Hin|Hin]; [discriminate Hin |]);
      by apply elem_of_nil in Hin.
  - exists entries. split; [done |]. split; [| done].
    apply (Hthere 3). by do 2 right; left.
Defined.

(** ** Streams over the pairs of a map *)

Section MapSourced.
Context {V : Type} `{Countable V}.
Variable sched : nat → list nat.
Variable sort_Slice : list V → (V → V → outcome V bool) → outcome V (list V).
Implicit Types st : SliceStreamer.store V.
Implicit Types l : list (MapStreamer.MapStreamer V).
Implicit Types pairs : list (MapStreamer.pair V).

Lemma chain_elem_of {N} (last : N → option addr) (h : list N) fuel p
    (l : list N) (n : N) :
  chain (V:=V) last h fuel p = Ok l → n ∈ l → n ∈ h.
Proof.
  revert p l. induction fuel as [|fuel IH]; intros [a|] l; simpl; try done;
    try (intros [= <-] Hn; by apply elem_of_nil in Hn).
  destruct (h !! a) as [m|] eqn:Hm; [| done].
  intros (l' & Hl' & [= <-])%bind_Ok_inv [->|Hn]%elem_of_cons.
  - by apply list_elem_of_lookup_2 in Hm.
  - by apply (IH (last m) l').
Qed.

(** As long as the nodes carry no mapper, the replay loop of
    [MapStreamer.scan] is the loop of the projections. *)
Lemma replay_filtersOnly l rest pairs :
  filtersOnly l →
  MapStreamer.replay sched (l ++ rest) pairs
  = (kept ⇐ MapStreamer.replayFilters sched l pairs ;;
     MapStreamer.replay sched rest kept).
Proof.
  intros Hl. revert pairs.
  induction Hl as [|n l (Hm & Hfm) _ IH]; intros pairs; [done |]. simpl.
  destruct (match MapStreamer.filterFunc n with
            | Some _ => MapStreamer.filter sched n pairs
            | None => Ok pairs
            end); simpl; [| done].
  by rewrite Hm, Hfm.
Qed.

(** The pairs that reach the mapper of a node freshly put behind
    [streamer]. *)
Lemma filtered_survivors st streamer l root :
  wellFormed st →
  MapStreamer.streamerList (SliceStreamer.maps st) streamer = Ok l →
  last l = Some root →
  totalFilters l →
  MapStreamer.replayFilters sched (rev l) (MapStreamer.pairData root)
  = Ok (survivors (rev l) (MapStreamer.pairData root)).
Proof.
  intros (_ & _ & _ & Hk) Hl Hroot Htotal. apply replayFilters_total.
  - apply Forall_forall. intros n Hn. rewrite Forall_forall in Hk.
    apply Hk, (chain_elem_of _ _ _ _ l n Hl).
    by apply list_elem_of_In, in_rev, list_elem_of_In.
  - intros n fs f k v Hn. apply Htotal.
    by apply list_elem_of_In, in_rev, list_elem_of_In.
Qed.

(** The chain of a node freshly put behind [streamer]. *)
Lemma streamerList_child st streamer l child :
  wellFormed st →
  MapStreamer.streamerList (SliceStreamer.maps st) streamer = Ok l →
  MapStreamer.lastStreamer child = Some streamer →
  MapStreamer.streamerList (SliceStreamer.maps st ++ [child])
    (length (SliceStreamer.maps st))
  = Ok (child :: l).
Proof.
  intros (_ & Hparents & _) Hl Hparent.
  assert (streamer < length (SliceStreamer.maps st))%nat as Hlt.
  { apply chain_head in Hl as (n & l' & _ & Hn). by apply lookup_lt_Some in Hn. }
  unfold MapStreamer.streamerList. rewrite length_app. simpl.
  rewrite Nat.add_1_r. simpl.
  rewrite lookup_app_r, Nat.sub_diag by lia. simpl. rewrite Hparent.
  rewrite (chain_frame _ _ _ (length (SliceStreamer.maps st))) by done.
  unfold MapStreamer.streamerList in Hl. by rewrite Hl.
Qed.

(** What the stream returned by [MapStream.Map] or [MapStream.FlatMap]
    evaluates to: the result of the mapper node over the pairs that pass
    the filters. *)
Lemma scan_wrap st streamer l root child k :
  wellFormed st →
  MapStreamer.streamerList (SliceStreamer.maps st) streamer = Ok l →
  last l = Some root →
  filtersOnly l → totalFilters l →
  MapStreamer.lastStreamer child = Some streamer →
  SliceStreamer.scan sched sort_Slice (fst (MapStream.wrap st child k))
    (length (SliceStreamer.slices st))
  = MapStreamer.replay sched [child]
      (survivors (rev l) (MapStreamer.pairData root)).
Proof.
  intros Hwf Hl Hroot Hplain Htotal Hparent.
  rewrite (scan_plain_root sched sort_Slice _ _
             {| SliceStreamer.lastStreamer := None;
                SliceStreamer.dataGetter :=
                  Some (SliceStreamer.mapGetter
                          (length (SliceStreamer.maps st)));
                SliceStreamer.parallel := k;
                SliceStreamer.filterFunc := None;
                SliceStreamer.mapFunc := None;
                SliceStreamer.flatMapFunc := None;
                SliceStreamer.sortFunc := None;
                SliceStreamer.offset := 0;
                SliceStreamer.limit := 0 |})
    by (try done; simpl; by rewrite lookup_app_r, Nat.sub_diag).
  unfold SliceStreamer.getData, MapStreamer.scan.
  cbn [SliceStreamer.dataGetter SliceStreamer.maps MapStream.wrap fst].
  rewrite (streamerList_child st streamer l child) by done. cbn [bind].
  rewrite last_cons, Hroot.
  change (rev (child :: l)) with (rev l ++ [child]).
  rewrite replay_filtersOnly
    by (apply Forall_forall; intros n Hn; unfold filtersOnly in Hplain;
        rewrite Forall_forall in Hplain; apply Hplain;
        by apply list_elem_of_In, in_rev, list_elem_of_In).
  rewrite (filtered_survivors st streamer) by done. cbn [bind].
  destruct (MapStreamer.replay sched [child]
              (survivors (rev l) (MapStreamer.pairData root))) as [r|p];
    [| done].
  simpl. by apply window_none.
Qed.

Lemma traverse_pairMapOp_pure (g : V → V → V) pairs :
  traverse (pairMapOp (purePairMapper g)) pairs
  = Ok ((λ p, g (MapStreamer.key p) (MapStreamer.value p)) <$> pairs).
Proof. induction pairs as [|x pairs IH]; [done |]. simpl. by rewrite IH. Qed.

Lemma traverse_pairFlatMapOp_pure (g : V → V → list V) pairs :
  traverse (pairFlatMapOp (λ k v, Ok (g k v))) pairs
  = Ok (concat ((λ p, g (MapStreamer.key p) (MapStreamer.value p)) <$> pairs)).
Proof. induction pairs as [|x pairs IH]; [done |]. simpl. by rewrite IH. Qed.
End MapSourced.

(** X13. A stream over a map, filtered any number of times with predicates
    that do not panic and then handed to [Map] or [FlatMap], evaluates to
    the mapper applied to the pairs of the source that pass all the
    filters, root first, in the order of the source: one result per
    surviving pair for [Map], the results concatenated for [FlatMap]. *)
Theorem X13_map_sourced_pipeline {V : Type} `{Countable V}
    (sched : nat → list nat)
    (sort_Slice : list V → (V → V → outcome V bool) → outcome V (list V))
    (st : SliceStreamer.store V) (streamer : addr)
    (l : list (MapStreamer.MapStreamer V)) (root : MapStreamer.MapStreamer V)
    (g : V → V → V) (h : V → V → list V) :
  wellFormed st →
  MapStreamer.streamerList (SliceStreamer.maps st) streamer = Ok l →
  last l = Some root →
  filtersOnly l → totalFilters l →
  (∀ st' a,
     MapStream.Map st streamer (purePairMapper g) = Ok (st', a) →
     SliceStreamer.scan sched sort_Slice st' a
     = Ok ((λ p, g (MapStreamer.key p) (MapStreamer.value p))
             <$> survivors (rev l) (MapStreamer.pairData root)))
  ∧ (∀ st' a,
       MapStream.FlatMap st streamer (λ k v, Ok (h k v)) = Ok (st', a) →
       SliceStreamer.scan sched sort_Slice st' a
       = Ok (concat ((λ p, h (MapStreamer.key p) (MapStreamer.value p))
                       <$> survivors (rev l) (MapStreamer.pairData root)))).
Proof.
  intros Hwf Hl Hroot Hplain Htotal.
  pose proof Hl as (s & l' & -> & Hs)%chain_head.
  assert (1 ≤ MapStreamer.parallel s) as Hk.
  { destruct Hwf as (_ & _ & _ & Hks). rewrite Forall_lookup in Hks.
    by apply (Hks streamer). }
  unfold MapStream.Map, MapStream.FlatMap. rewrite Hs.
  split; intros st' a [= <- <-].
  - match goal with
    | |- SliceStreamer.scan _ _ ?st' _ = _ =>
      change st' with (fst (MapStream.wrap st
        {| MapStreamer.lastStreamer := Some streamer;
           MapStreamer.parallel := MapStreamer.parallel s;
           MapStreamer.filterFunc := None;
           MapStreamer.mapFunc := Some (purePairMapper g);
           MapStreamer.flatMapFunc := None;
           MapStreamer.pairData := [] |} (MapStreamer.parallel s)))
    end.
    rewrite (scan_wrap sched sort_Slice st streamer (s :: l') root) by done.
    simpl. rewrite (pairMap_join sched _ _ (purePairMapper g)) by done.
    apply elementwise_Ok; [done | apply traverse_pairMapOp_pure].
  - match goal with
    | |- SliceStreamer.scan _ _ ?st' _ = _ =>
      change st' with (fst (MapStream.wrap st
        {| MapStreamer.lastStreamer := Some streamer;
           MapStreamer.parallel := MapStreamer.parallel s;
           MapStreamer.filterFunc := None;
           MapStreamer.mapFunc := None;
           MapStreamer.flatMapFunc := Some (λ k v, Ok (h k v));
           MapStreamer.pairData := [] |} (MapStreamer.parallel s)))
    end.
    rewrite (scan_wrap sched sort_Slice st streamer (s :: l') root) by done.
    simpl. rewrite (pairFlatMap_join sched _ _ (λ k v, Ok (h k v))) by done.
    apply elementwise_Ok; [done | apply traverse_pairFlatMapOp_pure].
Qed.

Lemma X13_map_sourced_pipeline_witness :
  let o := MapStream.Map Fixture.mapSourced 1%nat (purePairMapper Z.add) in
  SliceStreamer.scan Fixture.reversed Fixture.insertionSort
    (Fixture.after o) (Fixture.returned o)
  = Ok [22; 44].
Proof.
  intros o.
  destruct (X13_map_sourced_pipeline Fixture.reversed Fixture.insertionSort
              Fixture.mapSourced 1%nat [Fixture.evenKeys; Fixture.mapRoot]
              Fixture.mapRoot Z.add (λ k v, [k; v])) as (HMap & _).
  - split; [| split; [| split]].
    + intros a n q Ha. by destruct a.
    + intros [|[|[|a]]] n q; simpl; intros [= <-] [= <-]; lia.
    + constructor.
    + repeat constructor; simpl; lia.
  - reflexivity.
  - reflexivity.
  - by repeat constructor.
  - intros n fs f k v Hn Hfs Hf.
    repeat (apply elem_of_cons in Hn as [->|Hn]); try by apply elem_of_nil in Hn.
    + injection Hfs as <-. apply list_elem_of_singleton in Hf as ->. by eexists.
    + discriminate Hfs.
  - rewrite (HMap (Fixture.after o) (Fixture.returned o) eq_refl).
    reflexivity.
Defined.

Section Aligned.
Context {V : Type} `{Countable V}.

Lemma zip_key_value (pairs : list (MapStreamer.pair V)) :
  zip_with MapStreamer.Pair (MapStreamer.key <$> pairs)
    (MapStreamer.value <$> pairs) = pairs.
Proof.
  induction pairs as [|[k v] pairs IH]; [done |]. simpl. f_equal. exact IH.
Qed.
End Aligned.

(** X14. The two projections of a stream over a map stay aligned: on a chain
    whose predicates do not panic, [KeysToStream] and [ValuesToStream] both
    return, the streams they return evaluate without a panic, and pairing
    the two evaluated sequences index by index gives back exactly the pairs
    of the source that pass the filters, in the order of the source. *)
Theorem X14_projections_stay_aligned {V : Type} `{Countable V}
    (sched : nat → list nat)
    (sort_Slice : list V → (V → V → outcome V bool) → outcome V (list V))
    (st : SliceStreamer.store V) (streamer : addr)
    (l : list (MapStreamer.MapStreamer V)) (root : MapStreamer.MapStreamer V) :
  wellFormed st →
  MapStreamer.streamerList (SliceStreamer.maps st) streamer = Ok l →
  last l = Some root →
  totalFilters l →
  ∃ stK aK stV aV keys values,
    MapStream.KeysToStream sched st streamer = Ok (stK, aK)
    ∧ MapStream.ValuesToStream sched st streamer = Ok (stV, aV)
    ∧ SliceStreamer.scan sched sort_Slice stK aK = Ok keys
    ∧ SliceStreamer.scan sched sort_Slice stV aV = Ok values
    ∧ length keys = length values
    ∧ zip_with MapStreamer.Pair keys values
      = survivors (rev l) (MapStreamer.pairData root).
Proof.
  intros Hwf Hl Hroot Htotal.
  pose proof Hl as (s & l' & Hl' & Hs)%chain_head.
  assert (MapStreamer.filtered sched (SliceStreamer.maps st) streamer
          = Ok (survivors (rev l) (MapStreamer.pairData root))) as Hkept.
  { unfold MapStreamer.filtered. rewrite Hl. simpl. rewrite Hroot.
    by apply (filtered_survivors sched st streamer). }
  unfold MapStream.KeysToStream, MapStream.ValuesToStream.
  rewrite Hkept, Hs. simpl. rewrite !project_fmap.
  do 6 eexists. split; [done |]. split; [done |].
  split; [| split; [| split]].
  - rewrite (scan_plain_root sched sort_Slice _ _
               (MapStream.projected
                  (MapStreamer.key <$> survivors (rev l) (MapStreamer.pairData root))
                  (MapStreamer.parallel s)))
      by (try done; simpl; by rewrite lookup_app_r, Nat.sub_diag).
    simpl. by apply window_none.
  - rewrite (scan_plain_root sched sort_Slice _ _
               (MapStream.projected
                  (MapStreamer.value <$> survivors (rev l) (MapStreamer.pairData root))
                  (MapStreamer.parallel s)))
      by (try done; simpl; by rewrite lookup_app_r, Nat.sub_diag).
    simpl. by apply window_none.
  - by rewrite !length_fmap.
  - apply zip_key_value.
Qed.

Lemma X14_projections_stay_aligned_witness :
  ∃ stK aK stV aV,
    MapStream.KeysToStream Fixture.reversed Fixture.mapSourced 2%nat
    = Ok (stK, aK)
    ∧ MapStream.ValuesToStream Fixture.reversed Fixture.mapSourced 2%nat
      = Ok (stV, aV)
    ∧ SliceStreamer.scan Fixture.reversed Fixture.insertionSort stK aK = Ok [4]
    ∧ SliceStreamer.scan Fixture.reversed Fixture.insertionSort stV aV = Ok [40].
Proof.
  destruct (X14_projections_stay_aligned Fixture.reversed Fixture.insertionSort
              Fixture.mapSourced 2%nat
              [Fixture.bigValuesMapped; Fixture.evenKeys; Fixture.mapRoot]
              Fixture.mapRoot)
    as (stK & aK & stV & aV & keys & values & HK & HV & HsK & HsV & _ & Hzip).
  - split; [| split; [| split]].
    + intros a n q Ha. by destruct a.
    + intros [|[|[|a]]] n q; simpl; intros [= <-] [= <-]; lia.
    + constructor.
    + repeat constructor; simpl; lia.
  - reflexivity.
  - reflexivity.
  - intros n fs f k v Hn Hfs Hf.
    repeat (apply elem_of_cons in Hn as [->|Hn]); try by apply elem_of_nil in Hn.
    + injection Hfs as <-. apply list_elem_of_singleton in Hf as ->. by eexists.
    + injection Hfs as <-. apply list_elem_of_singleton in Hf as ->. by eexists.
    + discriminate Hfs.
  - exists stK, aK, stV, aV. split; [done |]. split; [done |].
    injection HK as <- <-. injection HV as <- <-.
    split; reflexivity.
Defined.

(** ** Foreach *)

Section ForeachFacts.
Context {V : Type} `{Countable V} {S : Type}.
Implicit Types w : S.

Lemma callAll_pure (ops : list (V → S → S)) (x : V) w :
  SliceStreamer.callAll (pureOps ops) x w
  = (fold_left (λ w op, op x w) ops w, Ok ()).
Proof. revert w. induction ops as [|op ops IH]; intros w; [done |]. apply IH. Qed.

Lemma visit_pure (ops : list (V → S → S)) (result : list V) w :
  SliceStreamer.visit (pureOps ops) result w
  = (fold_left (λ w x, fold_left (λ w op, op x w) ops w) result w, Ok ()).
Proof.
  revert w. induction result as [|x result IH]; intros w; [done |].
  cbn [SliceStreamer.visit fold_left]. by rewrite callAll_pure, IH.
Qed.

Lemma visit_stops (fvs : list (V → S → S * outcome V unit))
    (before after : list V) (x : V) w w1 w2 p :
  SliceStreamer.visit fvs before w = (w1, Ok ()) →
  SliceStreamer.callAll fvs x w1 = (w2, Panic p) →
  SliceStreamer.visit fvs (before ++ x :: after) w = (w2, Panic p).
Proof.
  revert w. induction before as [|y before IH]; intros w; simpl.
  - intros [= <-] Hx. by rewrite Hx.
  - destruct (SliceStreamer.callAll fvs y w) as [w' [[]|q]]; [| done].
    apply IH.
Qed.
End ForeachFacts.

(** X15. [Foreach] visits the evaluated sequence in order and calls, for
    each element, the operations in the order they were given: with
    operations that do not panic, the state left behind is the nested fold,
    elements outside and operations inside. When the operations return on
    the elements before [x] and one of them panics on [x], [Foreach] ends
    with that panic and the state that call left behind; the elements after
    [x] are not visited. *)
Theorem X15_Foreach_visits_in_order {V : Type} `{Countable V} {S : Type}
    (sched : nat → list nat)
    (sort_Slice : list V → (V → V → outcome V bool) → outcome V (list V))
    (st : SliceStreamer.store V) (streamer : addr) (result : list V) (w : S) :
  SliceStreamer.scan sched sort_Slice st streamer = Ok result →
  (∀ ops : list (V → S → S),
     SliceStreamer.Foreach sched sort_Slice st streamer (pureOps ops) w
     = (fold_left (λ w x, fold_left (λ w op, op x w) ops w) result w, Ok ()))
  ∧ (∀ fvs before x after w1 w2 p,
       result = before ++ x :: after →
       SliceStreamer.visit fvs before w = (w1, Ok ()) →
       SliceStreamer.callAll fvs x w1 = (w2, Panic p) →
       SliceStreamer.Foreach sched sort_Slice st streamer fvs w
       = (w2, Panic p)).
Proof.
  intros Hscan. unfold SliceStreamer.Foreach. rewrite Hscan. split.
  - intros ops. apply visit_pure.
  - intros fvs before x after w1 w2 p -> Hbefore Hx.
    by apply (visit_stops fvs before after x w w1 w2 p).
Qed.

Lemma X15_Foreach_visits_in_order_witness :
  SliceStreamer.Foreach Fixture.inOrder Fixture.insertionSort
    Fixture.source 0%nat
    (pureOps [λ x log, log ++ [x]; λ x log, log ++ [10 * x]]) []
  = ([1; 10; 2; 20; 3; 30; 4; 40; 5; 50; 6; 60; 7; 70], Ok ()).
Proof.
  destruct (X15_Foreach_visits_in_order Fixture.inOrder Fixture.insertionSort
              Fixture.source 0%nat [1; 2; 3; 4; 5; 6; 7] ([] : list Z)
              eq_refl) as (Hpure & _).
  exact (Hpure [λ x log, log ++ [x]; λ x log, log ++ [10 * x]]).
Defined.

(** ** The stores the builders make *)

Section MoreBuilders.
Context {V : Type} `{Countable V}.
Implicit Types st : SliceStreamer.store V.

Lemma clamp_range (NumCPU k : Z) :
  1 ≤ NumCPU →
  1 ≤ (if (if k <=? 0 then 1 else k) >? NumCPU * 2 then NumCPU * 2
       else if k <=? 0 then 1 else k).
Proof.
  intros Hcpu.
  destruct (Z.leb_spec k 0), (Z.gtb_spec 1 (NumCPU * 2)),
    (Z.gtb_spec k (NumCPU * 2)); lia.
Qed.

Lemma wellFormed_maps_snoc st (child : MapStreamer.MapStreamer V) :
  wellFormed st →
  (∀ q, MapStreamer.lastStreamer child = Some q →
        (q < length (SliceStreamer.maps st))%nat) →
  1 ≤ MapStreamer.parallel child →
  wellFormed {| SliceStreamer.slices := SliceStreamer.slices st;
                SliceStreamer.maps := SliceStreamer.maps st ++ [child] |}.
Proof.
  intros (Hs & Hm & Hrs & Hrm) Hparent Hk.
  split; [done |]. split; [by apply parentsFirst_snoc |].
  split; [done |]. apply Forall_app. split; [done |]. by repeat constructor.
Qed.

Lemma wellFormed_maps_insert st q (n n' : MapStreamer.MapStreamer V) :
  wellFormed st →
  SliceStreamer.maps st !! q = Some n →
  MapStreamer.lastStreamer n' = MapStreamer.lastStreamer n →
  1 ≤ MapStreamer.parallel n' →
  wellFormed {| SliceStreamer.slices := SliceStreamer.slices st;
                SliceStreamer.maps := <[q := n']> (SliceStreamer.maps st) |}.
Proof.
  intros (Hs & Hm & Hrs & Hrm) Hn Hlast Hk. apply lookup_lt_Some in Hn as Hlt.
  split; [done |]. split; [| split; [done |]]; simpl.
  - intros b x p Hb Hp. destruct (decide (b = q)) as [->|Hne].
    + rewrite list_lookup_insert_eq in Hb by done. injection Hb as <-.
      rewrite Hlast in Hp. by apply (Hm q n p).
    + rewrite list_lookup_insert_ne in Hb by done. by apply (Hm b x p).
  - apply Forall_lookup. intros b x Hb. rewrite Forall_lookup in Hrm.
    destruct (decide (b = q)) as [->|Hne].
    + rewrite list_lookup_insert_eq in Hb by done. by injection Hb as <-.
    + rewrite list_lookup_insert_ne in Hb by done. by apply (Hrm b x).
Qed.

Lemma wellFormed_wrap st (child : MapStreamer.MapStreamer V) k :
  wellFormed st →
  (∀ q, MapStreamer.lastStreamer child = Some q →
        (q < length (SliceStreamer.maps st))%nat) →
  1 ≤ MapStreamer.parallel child → 1 ≤ k →
  wellFormed (fst (MapStream.wrap st child k)).
Proof.
  intros Hwf Hparent Hchild Hk.
  apply (wellFormed_alloc
           {| SliceStreamer.slices := SliceStreamer.slices st;
              SliceStreamer.maps := SliceStreamer.maps st ++ [child] |}
           {| SliceStreamer.lastStreamer := None;
              SliceStreamer.dataGetter :=
                Some (SliceStreamer.mapGetter (length (SliceStreamer.maps st)));
              SliceStreamer.parallel := k;
              SliceStreamer.filterFunc := None;
              SliceStreamer.mapFunc := None;
              SliceStreamer.flatMapFunc := None;
              SliceStreamer.sortFunc := None;
              SliceStreamer.offset := 0;
              SliceStreamer.limit := 0 |}); simpl; try done.
  by apply wellFormed_maps_snoc.
Qed.

(** The walk along the parent links ends at a node without parent. *)
Lemma chain_last_root {N} (parent : N → option addr) (h : list N) fuel p
    (l : list N) (root : N) :
  chain (V:=V) parent h fuel p = Ok l → last l = Some root →
  parent root = None.
Proof.
  revert p l. induction fuel as [|fuel IH]; intros [a|] l; simpl; try done;
    try (by intros [= <-]).
  destruct (h !! a) as [n|] eqn:Hn; [| done].
  intros (l' & Hl' & [= <-])%bind_Ok_inv Hroot.
  destruct (parent n) as [q|] eqn:Hq.
  - pose proof Hl' as (n' & l'' & -> & _)%chain_head.
    rewrite last_cons_cons in Hroot. by apply (IH (Some q) (n' :: l'')).
  - assert (l' = []) as -> by (destruct fuel; simpl in Hl'; congruence).
    simpl in Hroot. congruence.
Qed.

Lemma alloc_returns st (s : SliceStreamer.SliceStreamer V) :
  (snd (SliceStreamer.alloc st s)
   < length (SliceStreamer.slices (fst (SliceStreamer.alloc st s))))%nat.
Proof. simpl. rewrite length_app. simpl. lia. Qed.
End MoreBuilders.

(** X16. The stores the builders make are well formed, and stay so: from a
    well-formed store, [OfSlice], [OfMap] and every builder of
    [SliceStreamer] and [MapStreamer] that returns leaves a store in which
    each node was allocated after its parent, each degree of parallelism is
    at least 1 and no offset or limit is negative; the stream returned
    exists in that store, and for a [SliceStreamer] the walk along the
    parent links from it ends at a root. *)
Theorem X16_builders_keep_stores_well_formed {V : Type} `{Countable V}
    (sched : nat → list nat) (NumCPU : Z)
    (st : SliceStreamer.store V) (streamer mapStreamer : addr)
    (data : list V) (pairs : list (MapStreamer.pair V))
    (filters : list (V → outcome V bool)) (mapper : V → outcome V V)
    (flatMapper : V → outcome V (list V)) (sorter : V → V → outcome V bool)
    (pairFilters : list (V → V → outcome V bool))
    (pairMapper : V → V → outcome V V)
    (pairFlatMapper : V → V → outcome V (list V))
    (n k : Z) :
  wellFormed st → 1 ≤ NumCPU →
  (∀ o st' a,
     o ∈ [Ok (SliceStreamer.OfSlice st data);
          SliceStreamer.Filter st streamer filters;
          SliceStreamer.Map st streamer mapper;
          SliceStreamer.FlatMap st streamer flatMapper;
          SliceStreamer.Sorted st streamer sorter;
          SliceStreamer.Offset st streamer n;
          SliceStreamer.Limit st streamer n;
          SliceStreamer.Parallel NumCPU st streamer k;
          MapStream.Map st mapStreamer pairMapper;
          MapStream.FlatMap st mapStreamer pairFlatMapper;
          MapStream.KeysToStream sched st mapStreamer;
          MapStream.ValuesToStream sched st mapStreamer] →
     o = Ok (st', a) →
     wellFormed st'
     ∧ ∃ leaf l root,
         SliceStreamer.slices st' !! a = Some leaf
         ∧ SliceStreamer.streamerList st' a = Ok (leaf :: l)
         ∧ last (leaf :: l) = Some root
         ∧ SliceStreamer.lastStreamer root = None)
  ∧ (∀ o h' a,
       o ∈ [Ok (MapStreamer.OfMap (SliceStreamer.maps st) pairs);
            MapStreamer.Filter (SliceStreamer.maps st) mapStreamer pairFilters;
            MapStreamer.Parallel NumCPU (SliceStreamer.maps st) mapStreamer k] →
       o = Ok (h', a) →
       wellFormed {| SliceStreamer.slices := SliceStreamer.slices st;
                     SliceStreamer.maps := h' |}
       ∧ (a < length h')%nat).
Proof.
  intros Hwf Hcpu.
  assert (∀ (st' : SliceStreamer.store V) (a : addr), wellFormed st' →
            (a < length (SliceStreamer.slices st'))%nat →
            wellFormed st'
            ∧ ∃ leaf l root,
                SliceStreamer.slices st' !! a = Some leaf
                ∧ SliceStreamer.streamerList st' a = Ok (leaf :: l)
                ∧ last (leaf :: l) = Some root
                ∧ SliceStreamer.lastStreamer root = None) as Hwalk.
  { intros st' a Hwf' Ha. split; [done |].
    destruct (streamerList_total st' a Hwf' Ha) as (leaf & l & Hleaf & Hl).
    destruct (last (leaf :: l)) as [root|] eqn:Hroot;
      [| by apply last_None in Hroot].
    exists leaf, l, root. split; [done |]. split; [done |]. split; [done |].
    exact (chain_last_root _ _ _ _ _ _ Hl Hroot). }
  pose proof Hwf as (_ & _ & _ & Hks). rewrite Forall_lookup in Hks.
  split.
  - intros o st' a Ho Hcall.
    repeat (apply elem_of_cons in Ho as [->|Ho]);
      [| | | | | | | | | | | | by apply elem_of_nil in Ho].
    + injection Hcall as <- <-.
      apply Hwalk; [by apply wellFormed_OfSlice | apply alloc_returns].
    + apply Hwalk; [by apply (wellFormed_Filter st streamer filters st' a) |].
      unfold SliceStreamer.Filter in Hcall.
      destruct (SliceStreamer.slices st !! streamer); [| done].
      injection Hcall as <- <-. apply alloc_returns.
    + apply Hwalk; [by apply (wellFormed_Map st streamer mapper st' a) |].
      unfold SliceStreamer.Map in Hcall.
      destruct (SliceStreamer.slices st !! streamer); [| done].
      injection Hcall as <- <-. apply alloc_returns.
    + apply Hwalk; [by apply (wellFormed_FlatMap st streamer flatMapper st' a) |].
      unfold SliceStreamer.FlatMap in Hcall.
      destruct (SliceStreamer.slices st !! streamer); [| done].
      injection Hcall as <- <-. apply alloc_returns.
    + apply Hwalk; [by apply (wellFormed_Sorted st streamer sorter st' a) |].
      unfold SliceStreamer.Sorted in Hcall.
      destruct (SliceStreamer.slices st !! streamer); [| done].
      injection Hcall as <- <-. apply alloc_returns.
    + apply Hwalk; [by apply (wellFormed_Offset st streamer n st' a) |].
      unfold SliceStreamer.Offset in Hcall.
      destruct (n <=? 0); [done |].
      destruct (SliceStreamer.slices st !! streamer); [| done].
      injection Hcall as <- <-. apply alloc_returns.
    + apply Hwalk; [by apply (wellFormed_Limit st streamer n st' a) |].
      unfold SliceStreamer.Limit in Hcall.
      destruct (n <=? 0); [done |].
      destruct (SliceStreamer.slices st !! streamer); [| done].
      injection Hcall as <- <-. apply alloc_returns.
    + apply Hwalk;
        [by apply (wellFormed_Parallel NumCPU st streamer k st' a) |].
      unfold SliceStreamer.Parallel in Hcall.
      destruct (SliceStreamer.slices st !! streamer) as [s|] eqn:Hs; [| done].
      injection Hcall as <- <-. simpl. rewrite length_insert.
      by apply lookup_lt_Some in Hs.
    + unfold MapStream.Map in Hcall.
      destruct (SliceStreamer.maps st !! mapStreamer) as [s|] eqn:Hs; [| done].
      injection Hcall as <- <-. apply lookup_lt_Some in Hs as Hlt. apply Hwalk.
      * match goal with
        | |- wellFormed ?st' =>
          change st' with (fst (MapStream.wrap st
            {| MapStreamer.lastStreamer := Some mapStreamer;
               MapStreamer.parallel := MapStreamer.parallel s;
               MapStreamer.filterFunc := None;
               MapStreamer.mapFunc := Some pairMapper;
               MapStreamer.flatMapFunc := None;
               MapStreamer.pairData := [] |} (MapStreamer.parallel s)))
        end.
        apply wellFormed_wrap; simpl;
          [done | by intros ? [= <-] | by apply (Hks mapStreamer)
          | by apply (Hks mapStreamer)].
      * simpl. rewrite length_app. simpl. lia.
    + unfold MapStream.FlatMap in Hcall.
      destruct (SliceStreamer.maps st !! mapStreamer) as [s|] eqn:Hs; [| done].
      injection Hcall as <- <-. apply lookup_lt_Some in Hs as Hlt. apply Hwalk.
      * match goal with
        | |- wellFormed ?st' =>
          change st' with (fst (MapStream.wrap st
            {| MapStreamer.lastStreamer := Some mapStreamer;
               MapStreamer.parallel := MapStreamer.parallel s;
               MapStreamer.filterFunc := None;
               MapStreamer.mapFunc := None;
               MapStreamer.flatMapFunc := Some pairFlatMapper;
               MapStreamer.pairData := [] |} (MapStreamer.parallel s)))
        end.
        apply wellFormed_wrap; simpl;
          [done | by intros ? [= <-] | by apply (Hks mapStreamer)
          | by apply (Hks mapStreamer)].
      * simpl. rewrite length_app. simpl. lia.
    + unfold MapStream.KeysToStream in Hcall.
      apply bind_Ok_inv in Hcall as (kept & _ & Hcall).
      destruct (SliceStreamer.maps st !! mapStreamer) as [s|] eqn:Hs; [| done].
      injection Hcall as <- <-. apply Hwalk; [| apply alloc_returns].
      apply wellFormed_alloc; simpl; [done | done | | done | done].
      by apply (Hks mapStreamer).
    + unfold MapStream.ValuesToStream in Hcall.
      apply bind_Ok_inv in Hcall as (kept & _ & Hcall).
      destruct (SliceStreamer.maps st !! mapStreamer) as [s|] eqn:Hs; [| done].
      injection Hcall as <- <-. apply Hwalk; [| apply alloc_returns].
      apply wellFormed_alloc; simpl; [done | done | | done | done].
      by apply (Hks mapStreamer).
  - intros o h' a Ho Hcall.
    repeat (apply elem_of_cons in Ho as [->|Ho]);
      [| | | by apply elem_of_nil in Ho].
    + injection Hcall as <- <-. split; [| rewrite length_app; simpl; lia].
      by apply wellFormed_maps_snoc.
    + unfold MapStreamer.Filter in Hcall.
      destruct (SliceStreamer.maps st !! mapStreamer) as [s|] eqn:Hs; [| done].
      injection Hcall as <- <-. apply lookup_lt_Some in Hs as Hlt.
      split; [| rewrite length_app; simpl; lia].
      apply wellFormed_maps_snoc; simpl;
        [done | by intros ? [= <-] | by apply (Hks mapStreamer)].
    + unfold MapStreamer.Parallel in Hcall.
      destruct (SliceStreamer.maps st !! mapStreamer) as [s|] eqn:Hs; [| done].
      injection Hcall as <- <-. apply lookup_lt_Some in Hs as Hlt.
      split; [| by rewrite length_insert].
      apply (wellFormed_maps_insert st mapStreamer s); simpl;
        [done | done | done | by apply clamp_range].
Qed.

Lemma X16_builders_keep_stores_well_formed_witness :
  wellFormed
    (Fixture.after (SliceStreamer.Filter Fixture.source 0%nat [Fixture.atLeast 3]))
  ∧ wellFormed
      {| SliceStreamer.slices := SliceStreamer.slices Fixture.source;
         SliceStreamer.maps := [Fixture.mapRoot] |}.
Proof.
  assert (wellFormed Fixture.source) as Hwf
    by apply wellFormed_OfSlice, wellFormed_empty.
  destruct (X16_builders_keep_stores_well_formed Fixture.inOrder
              Fixture.NumCPU Fixture.source 0%nat 0%nat [] Fixture.pairs
              [Fixture.atLeast 3] Fixture.double Fixture.twice
              (λ x y, Ok (x <? y)) [] (λ k v, Ok k) (λ k v, Ok [k]) 1 1
              Hwf ltac:(unfold Fixture.NumCPU; lia)) as (Hslice & Hmap).
  split.
  - apply (Hslice (SliceStreamer.Filter Fixture.source 0%nat [Fixture.atLeast 3])
             _ 1%nat); [by right; left | reflexivity].
  - apply (Hmap (Ok (MapStreamer.OfMap [] Fixture.pairs)) _ 0%nat);
      [by left | reflexivity].
Defined.

(** ** Pipelines whose operations do not panic *)

Section TotalPipelines.
Context {V : Type} `{Countable V}.
Variable sched : nat → list nat.
Variable sort_Slice : list V → (V → V → outcome V bool) → outcome V (list V).
Implicit Types st : SliceStreamer.store V.
Implicit Types s : SliceStreamer.SliceStreamer V.
Implicit Types data : list V.

Lemma traverse_total {A B} (op : A → outcome V (list B)) (l : list A) :
  (∀ x, ∃ r, op x = Ok r) → ∃ r, traverse op l = Ok r.
Proof.
  intros Hop. induction l as [|x l (r & IH)]; simpl; [by eauto |].
  destruct (Hop x) as (ys & ->). rewrite IH. simpl. by eauto.
Qed.

Lemma isFilter_returns (fs : list (V → outcome V bool)) (x : V) :
  (∀ f y, f ∈ fs → ∃ b, f y = Ok b) →
  ∃ b, SliceStreamer.isFilter fs x = Ok b.
Proof.
  induction fs as [|f fs IH]; intros Htotal; simpl; [by eauto |].
  destruct (Htotal f x) as ([] & ->); [left | | by eauto]. simpl.
  apply IH. intros g y Hg. apply Htotal. by right.
Qed.

Lemma stage_total st s data :
  1 ≤ SliceStreamer.parallel s → totalStage sort_Slice s →
  ∃ r, SliceStreamer.stage sched sort_Slice st s data = Ok r.
Proof.
  intros Hk (Hfilter & Hmap & HflatMap & Hsort). unfold SliceStreamer.stage.
  assert (∃ d1, match SliceStreamer.filterFunc s with
                | Some _ => SliceStreamer.filter sched s data
                | None => Ok data
                end = Ok d1) as (d1 & ->).
  { destruct (SliceStreamer.filterFunc s) as [fs|] eqn:Hfs; [| by eauto].
    destruct (traverse_total (filterOp fs) data) as (r & Hr).
    - intros x. unfold filterOp.
      destruct (isFilter_returns fs x) as (b & ->); [| simpl; by eauto].
      intros f y Hf. by apply (Hfilter fs).
    - exists r. by apply (filter_Ok sched s data fs). }
  cbn [bind].
  assert (∃ d2, match SliceStreamer.flatMapFunc s with
                | Some _ => SliceStreamer.flatMap sched st s d1
                | None => Ok d1
                end = Ok d2) as (d2 & ->).
  { destruct (SliceStreamer.flatMapFunc s) as [f|] eqn:Hf; [| by eauto].
    destruct (traverse_total f d1) as (r & Hr); [intros x; by apply HflatMap |].
    exists r. rewrite (flatMap_join sched st s d1 f Hf).
    by apply elementwise_Ok. }
  cbn [bind].
  assert (∃ d3, match SliceStreamer.mapFunc s with
                | Some _ => SliceStreamer._map sched s d2
                | None => Ok d2
                end = Ok d3) as (d3 & ->).
  { destruct (SliceStreamer.mapFunc s) as [f|] eqn:Hf; [| by eauto].
    destruct (traverse_total (mapOp f) d2) as (r & Hr).
    - intros x. unfold mapOp. destruct (Hmap f x eq_refl) as (y & ->).
      simpl. by eauto.
    - exists r. rewrite (map_join sched s d2 f Hf). by apply elementwise_Ok. }
  cbn [bind].
  destruct (SliceStreamer.sortFunc s) as [f|]; [by apply Hsort | by eauto].
Qed.

Lemma replay_total st (l : list (SliceStreamer.SliceStreamer V)) data :
  Forall (λ s, 1 ≤ SliceStreamer.parallel s) l →
  Forall (totalStage sort_Slice) l →
  ∃ r, SliceStreamer.replay sched sort_Slice st l data = Ok r.
Proof.
  intros Hk. revert data.
  induction Hk as [|s l Hs _ IH]; intros data Htotal; simpl; [by eauto |].
  apply Forall_cons in Htotal as (Hstage & Htotal).
  destruct (stage_total st s data Hs Hstage) as (r & ->). simpl. by apply IH.
Qed.

Lemma window_returns s data :
  0 ≤ SliceStreamer.offset s → 0 ≤ SliceStreamer.limit s →
  ∃ r, SliceStreamer.window s data = Ok r.
Proof.
  intros Ho Hl.
  destruct (Z.ltb_spec (SliceStreamer.offset s) (Z.of_nat (length data))).
  - rewrite window_inside by lia. by eauto.
  - rewrite window_beyond by lia. by eauto.
Qed.
End TotalPipelines.

(** X17. Evaluation does not panic by itself: in a store made by the
    builders in which every stream starts from a slice and the predicates,
    mappers and flat-mappers of every node return on every element, and the
    comparisons let [sort.Slice] return, every stream of the store evaluates
    to a sequence, for every schedule of the goroutines: the walk along the
    parent links ends, the joins return and the window is inside the
    sequence. [Count] then returns the length of that sequence. *)
Theorem X17_total_pipelines_return {V : Type} `{Countable V}
    (sched : nat → list nat)
    (sort_Slice : list V → (V → V → outcome V bool) → outcome V (list V))
    (st : SliceStreamer.store V) (streamer : addr) :
  wellFormed st →
  (streamer < length (SliceStreamer.slices st))%nat →
  Forall overSlice (SliceStreamer.slices st) →
  Forall (totalStage sort_Slice) (SliceStreamer.slices st) →
  ∃ result,
    SliceStreamer.scan sched sort_Slice st streamer = Ok result
    ∧ SliceStreamer.Count sched sort_Slice st streamer
      = Ok (Z.of_nat (length result)).
Proof.
  intros Hwf Hstreamer Hroots Htotal.
  pose proof Hwf as (_ & _ & Hranges & _). rewrite Forall_forall in Hranges.
  rewrite Forall_forall in Hroots. rewrite Forall_forall in Htotal.
  destruct (streamerList_total st streamer Hwf Hstreamer)
    as (leaf & l & Hleaf & Hl).
  assert (∀ n, n ∈ leaf :: l → n ∈ SliceStreamer.slices st) as Hin
    by (intros n; by apply (chain_elem_of _ _ _ _ (leaf :: l) n Hl)).
  destruct (last (leaf :: l)) as [root|] eqn:Hroot;
    [| by apply last_None in Hroot].
  destruct (Hroots root) as (data & Hdata).
  { apply Hin. apply last_Some in Hroot as (l' & ->).
    apply elem_of_app. right. by left. }
  { exact (chain_last_root _ _ _ _ _ _ Hl Hroot). }
  destruct (replay_total sched sort_Slice st (rev (leaf :: l)) data)
    as (newData & HnewData).
  - apply Forall_forall. intros n Hn. apply Hranges, Hin.
    by apply list_elem_of_In, in_rev, list_elem_of_In.
  - apply Forall_forall. intros n Hn. apply Htotal, Hin.
    by apply list_elem_of_In, in_rev, list_elem_of_In.
  - destruct (window_returns leaf newData) as (result & Hresult);
      [apply Hranges, Hin; by left..|].
    exists result.
    assert (SliceStreamer.scan sched sort_Slice st streamer = Ok result)
      as Hscan.
    { unfold SliceStreamer.scan. rewrite Hl. cbn [bind]. rewrite Hroot.
      unfold SliceStreamer.getData. rewrite Hdata. cbn [bind].
      by rewrite HnewData. }
    split; [done |]. unfold SliceStreamer.Count. by rewrite Hscan.
Qed.

Lemma X17_total_pipelines_return_witness :
  ∃ result,
    SliceStreamer.scan Fixture.reversed Fixture.insertionSort
      Fixture.pipeline 2%nat = Ok result
    ∧ SliceStreamer.Count Fixture.reversed Fixture.insertionSort
        Fixture.pipeline 2%nat = Ok (Z.of_nat (length result)).
Proof.
  apply (X17_total_pipelines_return Fixture.reversed Fixture.insertionSort
           Fixture.pipeline 2%nat).
  - apply (wellFormed_Map (Fixture.after
             (SliceStreamer.Filter Fixture.source 0%nat [Fixture.atLeast 3]))
             1%nat Fixture.double Fixture.pipeline 2%nat); [| reflexivity].
    apply (wellFormed_Filter Fixture.source 0%nat [Fixture.atLeast 3] _ 1%nat);
      [| reflexivity].
    apply wellFormed_OfSlice, wellFormed_empty.
  - simpl. lia.
  - repeat constructor; intros Hlast; [by eexists | discriminate Hlast..].
  - repeat constructor; simpl; try (intros; discriminate).
    + intros fs f x [= <-] ->%list_elem_of_singleton. by eexists.
    + intros f x [= <-]. by eexists.
Defined.

(** ** Two stages in a row *)

Section Fusion.
Context {V : Type} `{Countable V}.
Variable sched : nat → list nat.
Variable sort_Slice : list V → (V → V → outcome V bool) → outcome V (list V).
Implicit Types st : SliceStreamer.store V.
Implicit Types s : SliceStreamer.SliceStreamer V.

(** The node [Filter] returns, and the sequence its stages produce. *)
Lemma Filter_pure_evaluates st streamer s d (ps : list (V → bool)) st' a :
  wellFormed st →
  SliceStreamer.slices st !! streamer = Some s →
  unwindowed sched sort_Slice st streamer = Ok d →
  SliceStreamer.Filter st streamer (purePredicates ps) = Ok (st', a) →
  ∃ s', SliceStreamer.slices st' !! a = Some s'
        ∧ SliceStreamer.offset s' = SliceStreamer.offset s
        ∧ SliceStreamer.limit s' = SliceStreamer.limit s
        ∧ unwindowed sched sort_Slice st' a
          = Ok (filter (λ x, forallb (λ p, p x) ps = true) d).
Proof.
  intros Hwf Hs Hd. pose proof Hwf as (_ & _ & Hranges & _).
  rewrite Forall_lookup in Hranges. destruct (Hranges _ _ Hs) as (Hk & _).
  unfold SliceStreamer.Filter. rewrite Hs. intros [= <- <-].
  eexists. split; [simpl; by rewrite lookup_app_r, Nat.sub_diag |].
  split; [done |]. split; [done |].
  match goal with
  | |- unwindowed _ _ ?st' _ = _ =>
    change st' with (fst (SliceStreamer.alloc st
      {| SliceStreamer.lastStreamer := Some streamer;
         SliceStreamer.dataGetter := None;
         SliceStreamer.parallel := SliceStreamer.parallel s;
         SliceStreamer.filterFunc := Some (purePredicates ps);
         SliceStreamer.mapFunc := None;
         SliceStreamer.flatMapFunc := None;
         SliceStreamer.sortFunc := None;
         SliceStreamer.offset := SliceStreamer.offset s;
         SliceStreamer.limit := SliceStreamer.limit s |}))
  end.
  rewrite (unwindowed_child sched sort_Slice st streamer s) by done.
  rewrite Hd. unfold SliceStreamer.stage. simpl.
  by rewrite (filter_bool sched _ (purePredicates ps)
                (λ x, forallb (λ p, p x) ps) d)
    by (try done; intros x _; apply isFilter_pure).
Qed.

(** The node [Map] returns, and the sequence its stages produce. *)
Lemma Map_pure_evaluates st streamer s d (g : V → V) st' a :
  wellFormed st →
  SliceStreamer.slices st !! streamer = Some s →
  unwindowed sched sort_Slice st streamer = Ok d →
  SliceStreamer.Map st streamer (pureMapper g) = Ok (st', a) →
  ∃ s', SliceStreamer.slices st' !! a = Some s'
        ∧ SliceStreamer.offset s' = SliceStreamer.offset s
        ∧ SliceStreamer.limit s' = SliceStreamer.limit s
        ∧ unwindowed sched sort_Slice st' a = Ok (g <$> d).
Proof.
  intros Hwf Hs Hd. pose proof Hwf as (_ & _ & Hranges & _).
  rewrite Forall_lookup in Hranges. destruct (Hranges _ _ Hs) as (Hk & _).
  unfold SliceStreamer.Map. rewrite Hs. intros [= <- <-].
  eexists. split; [simpl; by rewrite lookup_app_r, Nat.sub_diag |].
  split; [done |]. split; [done |].
  match goal with
  | |- unwindowed _ _ ?st' _ = _ =>
    change st' with (fst (SliceStreamer.alloc st
      {| SliceStreamer.lastStreamer := Some streamer;
         SliceStreamer.dataGetter := None;
         SliceStreamer.parallel := SliceStreamer.parallel s;
         SliceStreamer.filterFunc := None;
         SliceStreamer.mapFunc := Some (pureMapper g);
         SliceStreamer.flatMapFunc := None;
         SliceStreamer.sortFunc := None;
         SliceStreamer.offset := SliceStreamer.offset s;
         SliceStreamer.limit := SliceStreamer.limit s |}))
  end.
  rewrite (unwindowed_child sched sort_Slice st streamer s) by done.
  rewrite Hd. unfold SliceStreamer.stage. simpl.
  by rewrite (map_pure sched _ g d) by done.
Qed.
End Fusion.

(** X18. Two stages in a row fuse: with predicates and mappers that do not
    panic, [Filter(ps)] followed by [Filter(qs)] evaluates as the single
    call [Filter(ps, qs)] does, and [Map(g)] followed by [Map(g')] as the
    single call [Map] of the composition does, whatever window the stream
    they are built on carries. *)
Theorem X18_stages_fuse {V : Type} `{Countable V}
    (sched : nat → list nat)
    (sort_Slice : list V → (V → V → outcome V bool) → outcome V (list V))
    (st : SliceStreamer.store V) (streamer : addr)
    (s : SliceStreamer.SliceStreamer V) (d : list V)
    (ps qs : list (V → bool)) (g g' : V → V) :
  wellFormed st →
  SliceStreamer.slices st !! streamer = Some s →
  unwindowed sched sort_Slice st streamer = Ok d →
  (∀ st1 a1 st2 a2 st3 a3,
     SliceStreamer.Filter st streamer (purePredicates ps) = Ok (st1, a1) →
     SliceStreamer.Filter st1 a1 (purePredicates qs) = Ok (st2, a2) →
     SliceStreamer.Filter st streamer (purePredicates (ps ++ qs)) = Ok (st3, a3) →
     SliceStreamer.scan sched sort_Slice st2 a2
     = SliceStreamer.scan sched sort_Slice st3 a3)
  ∧ (∀ st1 a1 st2 a2 st3 a3,
       SliceStreamer.Map st streamer (pureMapper g) = Ok (st1, a1) →
       SliceStreamer.Map st1 a1 (pureMapper g') = Ok (st2, a2) →
       SliceStreamer.Map st streamer (pureMapper (g' ∘ g)) = Ok (st3, a3) →
       SliceStreamer.scan sched sort_Slice st2 a2
       = SliceStreamer.scan sched sort_Slice st3 a3).
Proof.
  intros Hwf Hs Hd. split; intros st1 a1 st2 a2 st3 a3 H1 H2 H3.
  - pose proof (wellFormed_Filter st streamer _ st1 a1 Hwf H1) as Hwf1.
    destruct (Filter_pure_evaluates sched sort_Slice st streamer s d ps st1 a1
                Hwf Hs Hd H1) as (s1 & Hs1 & Ho1 & Hl1 & Hd1).
    destruct (Filter_pure_evaluates sched sort_Slice st1 a1 s1 _ qs st2 a2
                Hwf1 Hs1 Hd1 H2) as (s2 & Hs2 & Ho2 & Hl2 & Hd2).
    destruct (Filter_pure_evaluates sched sort_Slice st streamer s d (ps ++ qs)
                st3 a3 Hwf Hs Hd H3) as (s3 & Hs3 & Ho3 & Hl3 & Hd3).
    rewrite (scan_unwindowed sched sort_Slice st2 a2 s2 Hs2), Hd2.
    rewrite (scan_unwindowed sched sort_Slice st3 a3 s3 Hs3), Hd3.
    cbn [bind]. rewrite list_filter_filter.
    rewrite (window_ext s3 s2) by congruence. f_equal.
    apply list_filter_iff. intros x.
    rewrite forallb_app, andb_true_iff. tauto.
  - pose proof (wellFormed_Map st streamer _ st1 a1 Hwf H1) as Hwf1.
    destruct (Map_pure_evaluates sched sort_Slice st streamer s d g st1 a1
                Hwf Hs Hd H1) as (s1 & Hs1 & Ho1 & Hl1 & Hd1).
    destruct (Map_pure_evaluates sched sort_Slice st1 a1 s1 _ g' st2 a2
                Hwf1 Hs1 Hd1 H2) as (s2 & Hs2 & Ho2 & Hl2 & Hd2).
    destruct (Map_pure_evaluates sched sort_Slice st streamer s d (g' ∘ g)
                st3 a3 Hwf Hs Hd H3) as (s3 & Hs3 & Ho3 & Hl3 & Hd3).
    rewrite (scan_unwindowed sched sort_Slice st2 a2 s2 Hs2), Hd2.
    rewrite (scan_unwindowed sched sort_Slice st3 a3 s3 Hs3), Hd3.
    cbn [bind]. rewrite list_fmap_compose.
    apply window_ext; congruence.
Qed.

Lemma X18_stages_fuse_witness :
  let st1 := Fixture.after
               (SliceStreamer.Filter Fixture.source 0%nat
                  (purePredicates [Z.leb 3])) in
  let o2 := SliceStreamer.Filter st1 1%nat (purePredicates [Z.even]) in
  let o3 := SliceStreamer.Filter Fixture.source 0%nat
              (purePredicates ([Z.leb 3] ++ [Z.even])) in
  SliceStreamer.scan Fixture.inOrder Fixture.insertionSort
    (Fixture.after o2) (Fixture.returned o2)
  = SliceStreamer.scan Fixture.inOrder Fixture.insertionSort
      (Fixture.after o3) (Fixture.returned o3).
Proof.
  intros st1 o2 o3.
  destruct (X18_stages_fuse Fixture.inOrder Fixture.insertionSort
              Fixture.source 0%nat (MapStream.projected [1; 2; 3; 4; 5; 6; 7] 1)
              [1; 2; 3; 4; 5; 6; 7] [Z.leb 3] [Z.even] (λ x, x) (λ x, x))
    as (HFilter & _).
  - apply wellFormed_OfSlice, wellFormed_empty.
  - reflexivity.
  - reflexivity.
  - apply (HFilter st1 1%nat (Fixture.after o2) (Fixture.returned o2)
             (Fixture.after o3) (Fixture.returned o3)); reflexivity.
Defined.

(** ** The degree of parallelism of a stream over a map *)

(** X19. [Parallel] of a stream over a map does what [Parallel] of a stream
    over a slice does: no node is allocated, the receiver is returned and
    now carries the degree clamped between 1 and twice the number of CPUs,
    its other fields and the other nodes are as before; a degree inside
    that range is stored as given, and a second call with the same argument
    changes nothing. *)
Theorem X19_map_Parallel_retunes_receiver {V : Type}
    (NumCPU : Z) (h : list (MapStreamer.MapStreamer V)) (streamer : addr)
    (s : MapStreamer.MapStreamer V) (k : Z) :
  1 ≤ NumCPU →
  h !! streamer = Some s →
  let h' := <[streamer := pairWithParallel (clamp NumCPU k) s]> h in
  MapStreamer.Parallel NumCPU h streamer k = Ok (h', streamer)
  ∧ length h' = length h
  ∧ (∀ b, b ≠ streamer → h' !! b = h !! b)
  ∧ 1 ≤ clamp NumCPU k ≤ NumCPU * 2
  ∧ (1 ≤ k ≤ NumCPU * 2 → clamp NumCPU k = k)
  ∧ MapStreamer.Parallel NumCPU h' streamer k = Ok (h', streamer).
Proof.
  intros Hcpu Hs h'.
  assert (∀ n : MapStreamer.MapStreamer V,
            {| MapStreamer.lastStreamer := MapStreamer.lastStreamer n;
               MapStreamer.parallel :=
                 if (if k <=? 0 then 1 else k) >? NumCPU * 2
                 then NumCPU * 2 else if k <=? 0 then 1 else k;
               MapStreamer.filterFunc := MapStreamer.filterFunc n;
               MapStreamer.mapFunc := MapStreamer.mapFunc n;
               MapStreamer.flatMapFunc := MapStreamer.flatMapFunc n;
               MapStreamer.pairData := MapStreamer.pairData n |}
            = pairWithParallel (clamp NumCPU k) n) as Hclamp.
  { intros n. unfold pairWithParallel, clamp. f_equal.
    destruct (Z.leb_spec k 0).
    - destruct (Z.gtb_spec 1 (NumCPU * 2)); lia.
    - destruct (Z.gtb_spec k (NumCPU * 2)); lia. }
  apply lookup_lt_Some in Hs as Hlt.
  split; [| split; [| split; [| split; [| split]]]].
  - unfold MapStreamer.Parallel. rewrite Hs. cbn zeta. by rewrite Hclamp.
  - apply length_insert.
  - intros b Hb. by apply list_lookup_insert_ne.
  - unfold clamp. lia.
  - unfold clamp. lia.
  - unfold MapStreamer.Parallel, h'.
    rewrite list_lookup_insert_eq by done. cbn zeta.
    by rewrite Hclamp, list_insert_insert_eq.
Qed.

Lemma X19_map_Parallel_retunes_receiver_witness :
  MapStreamer.Parallel Fixture.NumCPU
    [Fixture.mapRoot; Fixture.evenKeys; Fixture.bigValuesMapped] 0%nat 100
  = Ok ([pairWithParallel 8 Fixture.mapRoot; Fixture.evenKeys;
         Fixture.bigValuesMapped], 0%nat).
Proof.
  destruct (X19_map_Parallel_retunes_receiver Fixture.NumCPU
              [Fixture.mapRoot; Fixture.evenKeys; Fixture.bigValuesMapped]
              0%nat Fixture.mapRoot 100
              ltac:(unfold Fixture.NumCPU; lia) eq_refl) as (Hcall & _).
  exact Hcall.
Defined.
